(** * koukoku-backlog-bot: the framer, the recency cache, the command router,
      the expression validator, the tally, the keyword commands and the
      log listing of [src/bot.ts]

    The development follows the class [Bot] method by method.  JavaScript
    strings are modelled as lists of Unicode code points, regular expressions
    by a backtracking matcher that follows the ECMAScript matcher semantics
    (continuation passing, greedy quantifiers, named groups), and the
    asynchronous methods by a state-and-exception monad over the parts of the
    bot the methods mutate. *)

From Stdlib Require Import String Ascii.
From Stdlib Require Import List ZArith NArith Lia Bool.
From Stdlib.Strings Require Import Byte.
From Stdlib Require Import Sorted Permutation.
Import ListNotations.
Local Open Scope N_scope.
#[local] Set Warnings "-comment-terminator-in-string".

(* ================================================================== *)
(** ** Text *)

(** A JavaScript string, as the sequence of its code points.  Every
    character the bot's patterns name lies in the Basic Multilingual Plane,
    where code points and UTF-16 code units coincide. *)
Definition char := N.
Definition text := list char.

Fixpoint text_eqb (a b : text) : bool :=
  match a, b with
  | [], [] => true
  | x :: a', y :: b' => (x =? y) && text_eqb a' b'
  | _, _ => false
  end.

(** [Buffer.prototype.toString()]: UTF-8 decoding, each ill-formed
    subsequence replaced by U+FFFD. *)
Record utf8_state := {
  u_cp : N; u_seen : N; u_needed : N; u_lower : N; u_upper : N }.

Definition utf8_init : utf8_state :=
  {| u_cp := 0; u_seen := 0; u_needed := 0; u_lower := 128; u_upper := 191 |}.

Definition replacement : char := 65533.

Definition utf8_lead (b : N) : utf8_state * text :=
  if b <=? 127 then (utf8_init, [b])
  else if (194 <=? b) && (b <=? 223) then
    ({| u_cp := N.land b 31; u_seen := 0; u_needed := 1;
        u_lower := 128; u_upper := 191 |}, [])
  else if (224 <=? b) && (b <=? 239) then
    ({| u_cp := N.land b 15; u_seen := 0; u_needed := 2;
        u_lower := if b =? 224 then 160 else 128;
        u_upper := if b =? 237 then 159 else 191 |}, [])
  else if (240 <=? b) && (b <=? 244) then
    ({| u_cp := N.land b 7; u_seen := 0; u_needed := 3;
        u_lower := if b =? 240 then 144 else 128;
        u_upper := if b =? 244 then 143 else 191 |}, [])
  else (utf8_init, [replacement]).

Definition utf8_step (st : utf8_state) (b : N) : utf8_state * text :=
  if u_needed st =? 0 then utf8_lead b
  else if (u_lower st <=? b) && (b <=? u_upper st) then
    let cp := N.lor (N.shiftl (u_cp st) 6) (N.land b 63) in
    let seen := u_seen st + 1 in
    if seen =? u_needed st then (utf8_init, [cp])
    else ({| u_cp := cp; u_seen := seen; u_needed := u_needed st;
             u_lower := 128; u_upper := 191 |}, [])
  else
    let '(st', out) := utf8_lead b in (st', replacement :: out).

Fixpoint utf8_run (st : utf8_state) (bs : list N) : text :=
  match bs with
  | [] => if u_needed st =? 0 then [] else [replacement]
  | b :: bs' => let '(st', out) := utf8_step st b in out ++ utf8_run st' bs'
  end.

Definition Buffer := list byte.

Definition byteLength (data : Buffer) : nat := length data.

Definition toString (data : Buffer) : text :=
  utf8_run utf8_init (map Byte.to_N data).

(** A string literal of the source, written as it is there. *)
Definition U (s : string) : text := toString (list_byte_of_string s).

Definition ch (s : string) : char := hd 0 (U s).

(* ================================================================== *)
(** ** Regular expressions *)

Definition cset := char -> bool.

Definition lit (c : char) : cset := fun x => x =? c.
Definition range (a b : char) : cset := fun x => (a <=? x) && (x <=? b).
Definition oneOf (cs : text) : cset := fun x => existsb (N.eqb x) cs.
Definition neg (p : cset) : cset := fun x => negb (p x).
Definition either (p q : cset) : cset := fun x => p x || q x.
Definition anyOf (ps : list cset) : cset := fun x => existsb (fun p => p x) ps.

(** [\d], [\w] and [\s] of ECMAScript (WhiteSpace and LineTerminator). *)
Definition digit : cset := range 48 57.
Definition word : cset :=
  anyOf [range 97 122; range 65 90; digit; lit 95].
Definition space : cset :=
  anyOf [range 9 13; lit 32; lit 160; lit 5760; range 8192 8202;
         lit 8232; lit 8233; lit 8239; lit 8287; lit 12288; lit 65279].
(** [.]: anything but a line terminator. *)
Definition dot : cset := neg (oneOf [10; 13; 8232; 8233]).
(** A letter under the [i] flag: itself or its other ASCII case. *)
Definition ci (c : char) : cset :=
  if (97 <=? c) && (c <=? 122) then either (lit c) (lit (c - 32))
  else if (65 <=? c) && (c <=? 90) then either (lit c) (lit (c + 32))
  else lit c.

Inductive regex :=
| Empty
| Char (cs : cset)
| Cat (r1 r2 : regex)
| Or (r1 r2 : regex)
| Quant (min : nat) (max : option nat) (r : regex)
| Group (name : option string) (r : regex)
| AssertStart
| AssertEnd.

Definition cats (rs : list regex) : regex := fold_right Cat Empty rs.
Definition alt (r : regex) (rs : list regex) : regex := fold_left Or rs r.
Definition str (s : string) : regex := cats (map (fun c => Char (lit c)) (U s)).
Definition stri (s : string) : regex := cats (map (fun c => Char (ci c)) (U s)).
Definition opt (r : regex) : regex := Quant 0 (Some 1%nat) r.
Definition star (r : regex) : regex := Quant 0 None r.
Definition plus (r : regex) : regex := Quant 1 None r.
Definition named (n : string) (r : regex) : regex := Group (Some n) r.
Definition group (r : regex) : regex := Group None r.

(** The named groups of a match: [groups.name] is [undefined] when the
    name is not bound. *)
Definition Groups := list (string * text).

Fixpoint group_get (n : string) (g : Groups) : option text :=
  match g with
  | [] => None
  | (n', v) :: g' => if String.eqb n n' then Some v else group_get n g'
  end.

Fixpoint group_unset (n : string) (g : Groups) : Groups :=
  match g with
  | [] => []
  | (n', v) :: g' =>
      if String.eqb n n' then group_unset n g' else (n', v) :: group_unset n g'
  end.

Definition group_set (n : string) (v : text) (g : Groups) : Groups :=
  group_unset n g ++ [(n, v)].

Fixpoint names_of (r : regex) : list string :=
  match r with
  | Cat a b | Or a b => names_of a ++ names_of b
  | Quant _ _ a => names_of a
  | Group (Some n) a => n :: names_of a
  | Group None a => names_of a
  | _ => []
  end.

(** The matcher's state: the end index reached, the input from there on,
    and the captures so far. *)
Record mstate := { pos : nat; rest : text; caps : Groups }.

Definition advance (s : mstate) (t : text) : mstate :=
  {| pos := S (pos s); rest := t; caps := caps s |}.

Definition pred_max (max : option nat) : option nat := option_map Nat.pred max.

Definition clear (names : list string) (s : mstate) : mstate :=
  {| pos := pos s; rest := rest s;
     caps := fold_right group_unset (caps s) names |}.

(** RepeatMatcher, over the matcher [atom] of the quantified term: greedy,
    the captures of the atom cleared at each round, and a round that
    matches the empty string refused once [min] is reached, which bounds
    the rounds by [min] plus the input left. *)
Fixpoint rounds (atom : mstate -> (mstate -> option mstate) -> option mstate)
  (names : list string) (fuel min : nat) (max : option nat) (s : mstate)
  (k : mstate -> option mstate) {struct fuel} : option mstate :=
  match fuel with
  | O => None
  | S fuel' =>
      match max with
      | Some O => k s
      | _ =>
          let again s' :=
            if (min =? 0)%nat && (pos s' =? pos s)%nat then None
            else rounds atom names fuel' (Nat.pred min) (pred_max max) s' k in
          match min with
          | O =>
              match atom (clear names s) again with
              | Some x => Some x
              | None => k s
              end
          | S _ => atom (clear names s) again
          end
      end
  end.

(** ECMAScript's matcher, in continuation-passing style. *)
Fixpoint run (r : regex) (s : mstate) (k : mstate -> option mstate)
  {struct r} : option mstate :=
  match r with
  | Empty => k s
  | Char cs =>
      match rest s with
      | c :: t => if cs c then k (advance s t) else None
      | [] => None
      end
  | Cat a b => run a s (fun s' => run b s' k)
  | Or a b =>
      match run a s k with
      | Some x => Some x
      | None => run b s k
      end
  | Quant min max a =>
      rounds (run a) (names_of a) (S (min + length (rest s))) min max s k
  | Group name a =>
      run a s (fun s' =>
        match name with
        | Some n =>
            k {| pos := pos s'; rest := rest s';
                 caps := group_set n (firstn (pos s' - pos s) (rest s)) (caps s') |}
        | None => k s'
        end)
  | AssertStart => if (pos s =? 0)%nat then k s else None
  | AssertEnd => match rest s with [] => k s | _ => None end
  end.

(** A successful match: [matched[0]], [matched.index], [matched.groups]. *)
Record Match := { m0 : text; index : nat; groups : Groups }.

Definition match_end (m : Match) : nat := (index m + length (m0 m))%nat.

(** RegExpBuiltinExec from [lastIndex = i]: the leftmost index at or after
    [i] where the pattern matches. *)
Fixpoint exec (r : regex) (i : nat) (input : text) : option Match :=
  match run r {| pos := i; rest := input; caps := [] |} Some with
  | Some s' =>
      Some {| m0 := firstn (pos s' - i) input; index := i; groups := caps s' |}
  | None =>
      match input with
      | [] => None
      | _ :: t => exec r (S i) t
      end
  end.

(** [String.prototype.match] with a pattern that has no [g] flag. *)
Definition re_match (r : regex) (t : text) : option Match := exec r 0 t.

(** [String.prototype.matchAll] with a [g] pattern: exec repeated, each
    from the end of the previous match (one further after an empty one). *)
Fixpoint matchAll_from (fuel : nat) (r : regex) (i : nat) (input : text)
  : list Match :=
  match fuel with
  | O => []
  | S fuel' =>
      match exec r i input with
      | None => []
      | Some m =>
          let e := match_end m in
          let next := if (length (m0 m) =? 0)%nat then S e else e in
          m :: (if (next <=? i + length input)%nat
                then matchAll_from fuel' r next (skipn (next - i) input)
                else [])
      end
  end.

Definition matchAll (r : regex) (t : text) : list Match :=
  matchAll_from (S (S (length t))) r 0 t.

(** [String.prototype.replaceAll] with a [g] pattern and a fixed
    replacement. *)
Fixpoint splice_matches (ms : list Match) (i : nat) (input rep : text) : text :=
  match ms with
  | [] => input
  | m :: ms' =>
      firstn (index m - i) input ++ rep ++
      splice_matches ms' (match_end m) (skipn (match_end m - i) input) rep
  end.

Definition replaceAll (r : regex) (rep : text) (t : text) : text :=
  splice_matches (matchAll r t) 0 t rep.

(* ================================================================== *)
(** ** JavaScript containers and comparisons *)

(** [lhs < rhs] on strings: lexicographic on the code units. *)
Fixpoint text_ltb (a b : text) : bool :=
  match a, b with
  | _, [] => false
  | [], _ :: _ => true
  | x :: a', y :: b' => (x <? y) || ((x =? y) && text_ltb a' b')
  end.

(** A JavaScript number that is an integer or [NaN] ([None]). *)
Definition number := option Z.

(** SameValueZero, the equality of [Map] keys and [Set] members: [NaN] is
    the same as [NaN]. *)
Class SameValueZero (K : Type) := same : K -> K -> bool.

#[export] Instance same_text : SameValueZero text := text_eqb.

#[export] Instance same_number : SameValueZero number :=
  fun a b =>
    match a, b with
    | Some x, Some y => (x =? y)%Z
    | None, None => true
    | _, _ => false
    end.

(** [Map]: keys in insertion order; setting a present key keeps its place. *)
Definition JsMap (K V : Type) := list (K * V).

Fixpoint map_get {K V} `{SameValueZero K} (k : K) (m : JsMap K V) : option V :=
  match m with
  | [] => None
  | (k', v) :: m' => if same k k' then Some v else map_get k m'
  end.

Fixpoint map_set {K V} `{SameValueZero K} (k : K) (v : V) (m : JsMap K V)
  : JsMap K V :=
  match m with
  | [] => [(k, v)]
  | (k', v') :: m' =>
      if same k k' then (k, v) :: m' else (k', v') :: map_set k v m'
  end.

Fixpoint map_delete {K V} `{SameValueZero K} (k : K) (m : JsMap K V)
  : JsMap K V :=
  match m with
  | [] => []
  | (k', v') :: m' =>
      if same k k' then m' else (k', v') :: map_delete k m'
  end.

Definition map_keys {K V} (m : JsMap K V) : list K := map fst m.

(** [Set] of strings. *)
Definition JsSet := list text.

Definition set_has (x : text) (s : JsSet) : bool := existsb (text_eqb x) s.

Definition set_add (x : text) (s : JsSet) : JsSet :=
  if set_has x s then s else s ++ [x].

Definition set_delete (x : text) (s : JsSet) : JsSet :=
  filter (fun y => negb (text_eqb x y)) s.

(** [Array.prototype.findIndex]: [-1] when no element passes. *)
Fixpoint findIndex {A} (p : A -> bool) (l : list A) : Z :=
  match l with
  | [] => (-1)%Z
  | x :: l' =>
      if p x then 0%Z
      else let i := findIndex p l' in if (i <? 0)%Z then (-1)%Z else (i + 1)%Z
  end.

(** [Array.prototype.splice(start)]: the elements from [start] on leave the
    array and are returned; a negative [start] counts from the end.  The
    result is (what stays, what was removed). *)
Definition splice {A} (start : Z) (l : list A) : list A * list A :=
  let len := Z.of_nat (length l) in
  let from := if (start <? 0)%Z then Z.max (len + start) 0 else Z.min start len in
  (firstn (Z.to_nat from) l, skipn (Z.to_nat from) l).

(** [Array.prototype.sort]: stable; each element goes behind those the
    comparator does not put after it. *)
Fixpoint insert_by {A} (cmp : A -> A -> Z) (x : A) (l : list A) : list A :=
  match l with
  | [] => [x]
  | y :: l' => if (cmp y x <=? 0)%Z then y :: insert_by cmp x l' else x :: l
  end.

Definition sort_by {A} (cmp : A -> A -> Z) (l : list A) : list A :=
  fold_left (fun acc x => insert_by cmp x acc) l [].

(** Decimal rendering of a number in a template literal. *)
Fixpoint digits_of (fuel : nat) (n : N) (acc : text) : text :=
  match fuel with
  | O => acc
  | S fuel' =>
      let acc' := (48 + n mod 10) :: acc in
      if n <? 10 then acc' else digits_of fuel' (n / 10) acc'
  end.

Definition text_of_N (n : N) : text := digits_of (S (N.to_nat (N.log2 n))) n [].

Definition text_of_Z (z : Z) : text :=
  if (z <? 0)%Z then 45 :: text_of_N (Z.abs_N z) else text_of_N (Z.abs_N z).

(** [parseInt(s)] without a radix: leading white space, a sign, then the
    longest run of decimal digits, or of hexadecimal digits behind [0x];
    [None] is [NaN]. *)
Fixpoint skip_space (t : text) : text :=
  match t with
  | c :: t' => if space c then skip_space t' else t
  | [] => []
  end.

Fixpoint read_digits (t : text) (acc : option N) : option N :=
  match t with
  | c :: t' =>
      if digit c
      then read_digits t' (Some (10 * match acc with Some a => a | None => 0 end + (c - 48)))
      else acc
  | [] => acc
  end.

Definition hex_value (c : char) : option N :=
  if digit c then Some (c - 48)
  else if range 97 102 c then Some (c - 87)
  else if range 65 70 c then Some (c - 55)
  else None.

Fixpoint read_hex (t : text) (acc : option N) : option N :=
  match t with
  | c :: t' =>
      match hex_value c with
      | Some d => read_hex t' (Some (16 * match acc with Some a => a | None => 0 end + d))
      | None => acc
      end
  | [] => acc
  end.

Definition read_number (t : text) : option N :=
  match t with
  | 48 :: x :: t' =>
      if (x =? 120) || (x =? 88) then read_hex t' None else read_digits t None
  | _ => read_digits t None
  end.

Definition parseInt (t : text) : option Z :=
  match skip_space t with
  | 45 :: t' => option_map (fun n => (- Z.of_N n)%Z) (read_number t')
  | 43 :: t' => option_map Z.of_N (read_number t')
  | t' => option_map Z.of_N (read_number t')
  end.

(** [s.split('-')[0]]. *)
Fixpoint before_dash (t : text) : text :=
  match t with
  | [] => []
  | c :: t' => if c =? 45 then [] else c :: before_dash t'
  end.

(* ================================================================== *)
(** ** The bot's state and the outside world *)

(** [Log]: an entry of the Redis stream, [{ id, message: { log } }]. *)
Record Log := { id : text; message_log : text }.

(** [this.recent]: the sequence, the index by id, the raw texts seen. *)
Record Recent := {
  recent_list : list Log;
  recent_map : JsMap text Log;
  recent_set : JsSet }.

Record Speech := { content : text; expiresAt : Z; speech_id : text; url : text }.

(** What [new Date()] yields, read through the accessors the bot uses:
    [getTime()], the time of [new Date(getFullYear(), 0, 1)], [getDay()],
    [toLocaleDateString('ja-JP-u-ca-japanese', ...)], [toLocaleTimeString()]. *)
Record Moment := {
  time_ms : Z;
  year_start : Z;
  weekday : Z;
  localeDate : text;
  localeTime : text }.

(** The bot's mutable fields, and the collaborators' state as far as the
    bot observes it: the Redis stream (oldest entry first) with the ids
    Redis will assign, the keyword hash, the texts handed to
    [KoukokuProxy.sendAsync], the logs handed to [web.broadcastAsync], and
    the clock. *)
Record World := {
  recent : Recent;
  userKeywords : JsSet;
  speechesSet : list Speech;
  stream : list Log;
  stream_ids : nat -> text;
  keywordHash : JsMap text text;
  sent : list text;
  broadcast : list Log;
  now : Moment }.

Definition with_recent (r : Recent) (w : World) : World :=
  {| recent := r; userKeywords := userKeywords w; speechesSet := speechesSet w;
     stream := stream w; stream_ids := stream_ids w;
     keywordHash := keywordHash w; sent := sent w; broadcast := broadcast w;
     now := now w |}.

Definition with_userKeywords (s : JsSet) (w : World) : World :=
  {| recent := recent w; userKeywords := s; speechesSet := speechesSet w;
     stream := stream w; stream_ids := stream_ids w;
     keywordHash := keywordHash w; sent := sent w; broadcast := broadcast w;
     now := now w |}.

Definition with_speechesSet (s : list Speech) (w : World) : World :=
  {| recent := recent w; userKeywords := userKeywords w; speechesSet := s;
     stream := stream w; stream_ids := stream_ids w;
     keywordHash := keywordHash w; sent := sent w; broadcast := broadcast w;
     now := now w |}.

Definition with_stream (s : list Log) (w : World) : World :=
  {| recent := recent w; userKeywords := userKeywords w;
     speechesSet := speechesSet w; stream := s; stream_ids := stream_ids w;
     keywordHash := keywordHash w; sent := sent w; broadcast := broadcast w;
     now := now w |}.

Definition with_keywordHash (h : JsMap text text) (w : World) : World :=
  {| recent := recent w; userKeywords := userKeywords w;
     speechesSet := speechesSet w; stream := stream w;
     stream_ids := stream_ids w; keywordHash := h; sent := sent w;
     broadcast := broadcast w; now := now w |}.

Definition with_sent (s : list text) (w : World) : World :=
  {| recent := recent w; userKeywords := userKeywords w;
     speechesSet := speechesSet w; stream := stream w;
     stream_ids := stream_ids w; keywordHash := keywordHash w; sent := s;
     broadcast := broadcast w; now := now w |}.

Definition with_broadcast (b : list Log) (w : World) : World :=
  {| recent := recent w; userKeywords := userKeywords w;
     speechesSet := speechesSet w; stream := stream w;
     stream_ids := stream_ids w; keywordHash := keywordHash w; sent := sent w;
     broadcast := b; now := now w |}.

(** A thrown value: an [Error] (or [TypeError]) with its message. *)
Inductive ErrorName := PlainError | TypeError.
Record Error := { error_name : ErrorName; message : text }.

(** An [async] method: it runs on the world and either returns or rejects;
    what it did before rejecting stays done. *)
Inductive Outcome (A : Type) : Type :=
| Returned (a : A) (w : World)
| Thrown (e : Error) (w : World).
Arguments Returned {A} a w.
Arguments Thrown {A} e w.

Definition Async (A : Type) : Type := World -> Outcome A.

Definition ret {A} (a : A) : Async A := fun w => Returned a w.

Definition bind {A B} (m : Async A) (k : A -> Async B) : Async B :=
  fun w =>
    match m w with
    | Returned a w' => k a w'
    | Thrown e w' => Thrown e w'
    end.

Definition throw {A} (e : Error) : Async A := fun w => Thrown e w.

(** [try { m } catch (reason) { h reason }]. *)
Definition try_catch {A} (m : Async A) (h : Error -> Async A) : Async A :=
  fun w =>
    match m w with
    | Returned a w' => Returned a w'
    | Thrown e w' => h e w'
    end.

Definition get : Async World := fun w => Returned w w.
Definition modify (f : World -> World) : Async unit := fun w => Returned tt (f w).

Notation "x <- m ;; k" := (bind m (fun x => k))
  (at level 61, m at next level, right associativity).
Notation "m ;; k" := (bind m (fun _ => k))
  (at level 61, right associativity).

(** [for (const x of xs) await f(x)]. *)
Fixpoint for_of {A} (xs : list A) (f : A -> Async unit) : Async unit :=
  match xs with
  | [] => ret tt
  | x :: xs' => f x ;; for_of xs' f
  end.

Definition world_of {A} (o : Outcome A) : World :=
  match o with Returned _ w | Thrown _ w => w end.

(* ================================================================== *)
(** ** What the bot imports *)

(** The Unicode script-extension classes the keyword pattern names, the
    evaluation of a [new Function] body, and the collaborators the bot
    reaches through its imports. *)
Class Collaborators := {
  scx_Common : cset;
  scx_Hiragana : cset;
  scx_Katakana : cset;
  scx_Han : cset;
  (** [new Function(...args, `"use strict";return ${expr}`)(...)], rendered
      by the template literal, or what it threw. *)
  evaluate : text -> Error + text;
  (** [GitHub.uploadToGistAsync]: the gist's id and raw url, when it
      answers with a [GitHubResponse]. *)
  uploadToGistAsync : text -> option (text * text);
  (** [readFile(path).catch(suppress)], then [toString().trim()]. *)
  readFile : text -> option text;
  (** [shouldBeIgnored(matched, this.ignorePatterns)]. *)
  shouldBeIgnored : Match -> bool;
  (** [dialogueAsync], whose body is calls to DeepL and PhiLLM. *)
  dialogueAsync : Match -> Async unit;
  (** [translateOrDescribeAsync] starts its work and does not await it:
      it cannot reject. *)
  translateOrDescribeAsync : Match -> World -> World;
  (** [toLocaleString()] of the date of a time value. *)
  toLocaleString : Z -> text;
  (** [selectBodyOfLog], imported from the package index. *)
  selectBodyOfLog : Log -> text }.

(* ================================================================== *)
(** ** The patterns of [Bot] *)

Definition d2 : regex := Cat (Char digit) (Char digit).

(** The source has "/^計算\s(?<expr>[πEIPaceginopstx\d\s.+\-*/%()]+)$/". *)
Definition CalcRE : regex :=
  cats [AssertStart; str "計算"; Char space;
        named "expr"
          (plus (Char (anyOf [oneOf (U "πEIPaceginopstx"); digit; space;
                              oneOf (U ".+-*/%()")])));
        AssertEnd].

(** The source has "/^対話\s(?<body>.+)$/". *)
Definition DialogueRE : regex :=
  cats [AssertStart; str "対話"; Char space; named "body" (plus (Char dot));
        AssertEnd].

(** The source has "/^(?<command>コマンド(リスト)?|ヘルプ)$/". *)
Definition HelpRE : regex :=
  cats [AssertStart;
        named "command"
          (Or (cats [str "コマンド"; opt (group (str "リスト"))]) (str "ヘルプ"));
        AssertEnd].

(** The source has "/^(バック)?ログ(\s+((?<command>--help)|(?<count>[1-9]\d*)))?$/". *)
Definition LogRE : regex :=
  cats [AssertStart; opt (group (str "バック")); str "ログ";
        opt (group (cats [plus (Char space);
                          group (Or (named "command" (str "--help"))
                                    (named "count"
                                       (cats [Char (range 49 57);
                                              star (Char digit)])))]));
        AssertEnd].

(** The source has "/>>\s「\s(?<msg>[^」]+)\s」\(チャット放話\s-\s(?<date>\d\d\/\d\d\s\([^)]+\))\s(?<time>\d\d:\d\d:\d\d)\sby\s(?<host>[^\s]+)\s君(\s(?<self>〈＊あなた様＊〉))?\)\s<</g". *)
Definition MessageRE : regex :=
  cats [str ">>"; Char space; str "「"; Char space;
        named "msg" (plus (Char (neg (lit (ch "」")))));
        Char space; str "」(チャット放話"; Char space; str "-"; Char space;
        named "date"
          (cats [d2; str "/"; d2; Char space; str "(";
                 plus (Char (neg (lit (ch ")")))); str ")"]);
        Char space;
        named "time" (cats [d2; str ":"; d2; str ":"; d2]);
        Char space; str "by"; Char space;
        named "host" (plus (Char (neg space)));
        Char space; str "君";
        opt (group (cats [Char space; named "self" (str "〈＊あなた様＊〉")]));
        str ")"; Char space; str "<<"].

(** The source has "/^集計(\s(?<command>--help))?$/". *)
Definition TallyRE : regex :=
  cats [AssertStart; str "集計";
        opt (group (cats [Char space; named "command" (str "--help")]));
        AssertEnd].

Definition languages : list string :=
  ["bg"; "cs"; "da"; "de"; "el"; "en"; "es"; "et"; "fi"; "fr"; "hu"; "id";
   "it"; "ja"; "ko"; "lt"; "lv"; "nb"; "nl"; "pl"; "pt"; "ro"; "ru"; "sk";
   "sl"; "sv"; "tr"; "uk"; "zh"]%string.

(** The source has "/^翻訳\s+((?<command>--(help|lang))|((?<lang>bg|...|zh|bg|...|zh)\s+)?(?<text>.+))$/i". *)
Definition TranslateRE : regex :=
  cats [AssertStart; stri "翻訳"; plus (Char space);
        group
          (Or (named "command"
                 (cats [stri "--"; group (Or (stri "help") (stri "lang"))]))
              (cats [opt (group
                       (cats [named "lang"
                                (alt (stri "bg")
                                     (map stri (tl (languages ++ languages))));
                              plus (Char space)]));
                     named "text" (plus (Char dot))]));
        AssertEnd].

(** The source has "/^キーワード(?<command>一覧|登録|解除)?(\s(?<name>(--help|[\p{scx=Hiragana}\p{scx=Katakana}\p{scx=Han}\w]{1,8})))?(\s(?<value>[\p{scx=Common}\p{scx=Hiragana}\p{scx=Katakana}\p{scx=Han}\s\w\x21-\x2f\x3a-\x40\x5b-\x60\x7b-\x7e]+))?$/u". *)
Definition UserKeywordRE `{Collaborators} : regex :=
  cats [AssertStart; str "キーワード";
        opt (named "command" (alt (str "一覧") [str "登録"; str "解除"]));
        opt (group
               (cats [Char space;
                      named "name"
                        (group
                           (Or (str "--help")
                               (Quant 1 (Some 8%nat)
                                  (Char (anyOf [scx_Hiragana; scx_Katakana;
                                                scx_Han; word])))))]));
        opt (group
               (cats [Char space;
                      named "value"
                        (plus (Char (anyOf [scx_Common; scx_Hiragana;
                                            scx_Katakana; scx_Han; space; word;
                                            range 33 47; range 58 64;
                                            range 91 96; range 123 126])))]));
        AssertEnd].

(* ================================================================== *)
(** ** The recency cache *)

(** [sendAsync(text)]: the text goes to [KoukokuProxy.sendAsync]. *)
Definition sendAsync (t : text) : Async unit :=
  modify (fun w => with_sent (sent w ++ [t]) w).

(** [this.db.xAdd(Bot.LogKey, '*', message)]: Redis appends the entry
    under the next id it assigns and answers with that id. *)
Definition xAdd (entry : text) : Async text :=
  fun w =>
    let i := stream_ids w (length (stream w)) in
    Returned i (with_stream (stream w ++ [{| id := i; message_log := entry |}]) w).

(** [appendLogAsync(text)]: the entry goes to the stream, then to the
    front of the sequence, into the index and into the set. *)
Definition appendLogAsync (t : text) : Async Log :=
  i <- xAdd t ;;
  let obj := {| id := i; message_log := t |} in
  modify (fun w =>
    with_recent
      {| recent_list := obj :: recent_list (recent w);
         recent_map := map_set i obj (recent_map (recent w));
         recent_set := set_add t (recent_set (recent w)) |} w) ;;
  ret obj.

(** [updateRecent(log)], on [this.recent]. *)
Definition updateRecent (r : Recent) (log : Log) : Recent :=
  if negb (set_has (message_log log) (recent_set r)) then
    let index := findIndex (fun value => text_ltb (id value) (id log)) (recent_list r) in
    let '(kept, rhs) := splice index (recent_list r) in
    let pushed := kept ++ [log] in
    {| recent_list := if (0 <? length rhs)%nat then pushed ++ rhs else pushed;
       recent_map := map_set (id log) log (recent_map r);
       recent_set := set_add (message_log log) (recent_set r) |}
  else r.

(** The comparator of [queryLogAsync]: [[-1, 1][+(lhs.id < rhs.id)]]. *)
Definition byIdDescending (lhs rhs : Log) : Z :=
  if text_ltb (id lhs) (id rhs) then 1%Z else (-1)%Z.

(** [queryLogAsync('+', '-')], its one call: the whole stream, newest
    first from [xRevRange], reversed, merged one by one, then sorted. *)
Definition queryLogAsync : Async unit :=
  w <- get ;;
  let entries := rev (rev (stream w)) in
  modify (fun w => with_recent (fold_left updateRecent entries (recent w)) w) ;;
  modify (fun w =>
    with_recent
      {| recent_list := sort_by byIdDescending (recent_list (recent w));
         recent_map := recent_map (recent w);
         recent_set := recent_set (recent w) |} w).

(* ================================================================== *)
(** ** The expression validator *)

Record Parenthesis := { opened : Z; qualifier : text }.

Definition valueForParenthesis : list (char * Z) :=
  [(ch " ", 0); (ch "%", 0); (ch "(", 1); (ch ")", -1); (ch "*", 0);
   (ch "+", 0); (ch "-", 0); (ch ".", 0); (ch "/", 0); (ch "0", 0);
   (ch "1", 0); (ch "2", 0); (ch "3", 0); (ch "4", 0); (ch "5", 0);
   (ch "6", 0); (ch "7", 0); (ch "8", 0); (ch "9", 0)]%Z.

Fixpoint lookup_char (c : char) (table : list (char * Z)) : option Z :=
  match table with
  | [] => None
  | (c', v) :: table' => if c =? c' then Some v else lookup_char c table'
  end.

Definition newError (msg : text) : Error :=
  {| error_name := PlainError; message := msg |}.

(** [String.prototype.trim]. *)
Fixpoint trimEnd (t : text) : text :=
  match t with
  | [] => []
  | c :: t' =>
      match trimEnd t' with
      | [] => if space c then [] else [c]
      | kept => c :: kept
      end
  end.

Definition trim (t : text) : text := trimEnd (skip_space t).

Definition functionNames : list text :=
  [U "cos"; U "exp"; U "log"; U "sin"; U "tan"].

Definition validateQualifier (ctx : Parenthesis) : Error + unit :=
  if (0 <? length (qualifier ctx))%nat
     && negb (existsb (text_eqb (trim (qualifier ctx))) functionNames)
  then inl (newError (qualifier ctx ++ U "は関数ではありません"))
  else inr tt.

Definition updateParenthesisContext (ctx : Parenthesis) (c : char)
  : Error + Parenthesis :=
  match lookup_char c valueForParenthesis with
  | None => inr {| opened := opened ctx; qualifier := qualifier ctx ++ [c] |}
  | Some addendum =>
      match validateQualifier ctx with
      | inl e => inl e
      | inr _ => inr {| opened := (opened ctx + addendum)%Z; qualifier := [] |}
      end
  end.

(** [[...expr].reduce(updateParenthesisContext, ctx)]: a throw ends it. *)
Fixpoint reduce_chars (cs : text) (ctx : Parenthesis) : Error + Parenthesis :=
  match cs with
  | [] => inr ctx
  | c :: cs' =>
      match updateParenthesisContext ctx c with
      | inl e => inl e
      | inr ctx' => reduce_chars cs' ctx'
      end
  end.

(** [isNaN] of a count of parentheses, which is an integer. *)
Definition isNaN (z : Z) : bool := false.

Definition validateParentheses (expr : text) : Error + unit :=
  match reduce_chars expr {| opened := 0; qualifier := [] |} with
  | inl e => inl e
  | inr parenthesis =>
      let messages :=
        [Some (text_of_Z (opened parenthesis) ++ U "個の閉じ括弧が不足しています");
         None;
         Some (U "不正な閉じ括弧があります")] in
      let index :=
        ((if isNaN (opened parenthesis) then 1 else 0) * 2
         + (if (opened parenthesis =? 0)%Z then 1 else 0))%nat in
      match nth index messages None with
      | Some msg => inl (newError msg)
      | None => inr tt
      end
  end.

(* ================================================================== *)
(** ** String helpers of the runtime *)

Fixpoint join (sep : text) (parts : list text) : text :=
  match parts with
  | [] => []
  | [p] => p
  | p :: parts' => p ++ sep ++ join sep parts'
  end.

(** [s.split(c)] for a one-character separator. *)
Fixpoint split_on (c : char) (t : text) : list text :=
  match t with
  | [] => [[]]
  | x :: t' =>
      if x =? c then [] :: split_on c t'
      else match split_on c t' with
           | p :: ps => (x :: p) :: ps
           | [] => [[x]]
           end
  end.

Fixpoint startsWith (t prefix : text) : bool :=
  match prefix, t with
  | [], _ => true
  | p :: prefix', x :: t' => (x =? p) && startsWith t' prefix'
  | _ :: _, [] => false
  end.

Definition endsWith (t suffix : text) : bool := startsWith (rev t) (rev suffix).

Fixpoint includes (t needle : text) : bool :=
  startsWith t needle ||
  match t with
  | [] => false
  | _ :: t' => includes t' needle
  end.

(** [toLowerCase] on the ASCII letters; the one text the bot lowers is the
    [--help] that [LogRE] binds. *)
Definition toLowerCase (t : text) : text :=
  map (fun c => if (65 <=? c) && (c <=? 90) then c + 32 else c) t.

(** [n.toString(16)]. *)
Fixpoint hex_digits (fuel : nat) (n : N) (acc : text) : text :=
  match fuel with
  | O => acc
  | S fuel' =>
      let d := n mod 16 in
      let acc' := (if d <? 10 then 48 + d else 87 + d) :: acc in
      if n <? 16 then acc' else hex_digits fuel' (n / 16) acc'
  end.

Definition toString16 (z : Z) : text :=
  let n := Z.abs_N z in
  let body := hex_digits (S (N.to_nat (N.log2 n))) n [] in
  if (z <? 0)%Z then 45 :: body else body.

(** [s.slice(2, -2)]. *)
Definition slice_2_m2 (t : text) : text := firstn (length t - 4) (skipn 2 t).

(** [groups.name], [undefined] as [None]; truthiness; [${...}]. *)
Definition field (n : string) (m : Match) : option text := group_get n (groups m).

Definition truthy (v : option text) : bool :=
  match v with
  | Some (_ :: _) => true
  | _ => false
  end.

Definition show (v : option text) : text :=
  match v with
  | Some t => t
  | None => U "undefined"
  end.

Definition quote : char := 34.

(* ================================================================== *)
(** ** Speeches *)

(** [createSpeechAsync(text, maxLength, remark)]; [maxLength] only cuts
    the name of the gist, a hash of the moment and the text. *)
Definition createSpeechAsync `{Collaborators} (t : text) (remark : bool)
  : Async (option Speech) :=
  w <- get ;;
  match uploadToGistAsync t with
  | Some (gist, rawUrl) =>
      let speech :=
        {| content := t; expiresAt := (time_ms (now w) + 300000)%Z;
           speech_id := gist; url := rawUrl |} in
      modify (fun w => with_speechesSet (speechesSet w ++ [speech]) w) ;;
      (if remark then sendAsync rawUrl else ret tt) ;;
      ret (Some speech)
  | None =>
      sendAsync (U "[Bot] 大演説の生成に失敗しました") ;;
      ret None
  end.

Definition createSpeechFromFileAsync `{Collaborators} (path : text) : Async unit :=
  match readFile path with
  | Some t =>
      w <- get ;;
      let time := slice_2_m2 (toString16 (time_ms (now w))) in
      createSpeechAsync
        (U "[Bot@" ++ time ++ U "] https://github.com/kei-g/koukoku-bot"
           ++ [10; 10] ++ t) true ;;
      ret tt
  | None => ret tt
  end.

Definition describeGeneralHelp `{Collaborators} (_ : Match) : Async unit :=
  createSpeechFromFileAsync (U "templates/help.txt").

Definition describeTallyHelp `{Collaborators} (_ : Match) : Async unit :=
  createSpeechFromFileAsync (U "templates/tally/help.txt").

Definition describeUserKeywordAsync `{Collaborators} (_ : Match) : Async unit :=
  createSpeechFromFileAsync (U "templates/keyword/help.txt").

Definition describeLogAsync `{Collaborators} (m : Match) : Async unit :=
  let name := toLowerCase (skipn 2 (show (field "command" m))) in
  createSpeechFromFileAsync (U "templates/log/" ++ name ++ U ".txt").

(* ================================================================== *)
(** ** The calculator *)

(** [calculateAsync]: validation, evaluation and the reply, inside
    [try]; the complaint, in [catch]. *)
Definition calculateAsync `{Collaborators} (matched : Match) : Async unit :=
  let expr := show (field "expr" matched) in
  try_catch
    (match validateParentheses expr with
     | inl e => throw e
     | inr _ =>
         match evaluate expr with
         | inl e => throw e
         | inr value => sendAsync (U "[Bot] 計算結果は" ++ value ++ U "です")
         end
     end)
    (fun reason => sendAsync (U "[Bot] 計算エラー, " ++ message reason)).

(* ================================================================== *)
(** ** The log listing *)

(** The source has "/(\*+[-.]?)+/g": the mask of a host name. *)
Definition MaskRE : regex :=
  plus (group (cats [plus (Char (lit 42)); opt (Char (oneOf (U "-.")))])).

Definition isNotBot (matched : Match) : bool :=
  negb (startsWith (show (field "msg" matched)) (U "[Bot] ")).

Definition isNotTimeSignal (matched : Match) : bool :=
  negb (startsWith (show (field "msg" matched)) (U "[時報] ")).

(** [composeLog(last, matched)]: the line, and [last] as it leaves it. *)
Definition composeLog (last : option text * option text) (matched : Match)
  : text * (option text * option text) :=
  let host := replaceAll MaskRE [] (show (field "host" matched)) in
  let msg := trim (show (field "msg" matched)) in
  let sameHost := match fst last with Some h => text_eqb host h | None => false end in
  let sameMsg := match snd last with Some t => text_eqb msg t | None => false end in
  (join (U " ")
     [show (field "date" matched); show (field "time" matched);
      if sameMsg then U "〃" else msg; if sameHost then U "〃" else host],
   (if sameHost then fst last else Some host,
    if sameMsg then snd last else Some msg)).

Definition parseIntOr (t : option text) (defaultValue : Z) : Z :=
  match t with
  | Some t' => match parseInt t' with Some c => c | None => defaultValue end
  | None => defaultValue
  end.

Definition locateLogsAsync `{Collaborators} (matched : Match) : Async unit :=
  if truthy (field "command" matched) then describeLogAsync matched
  else
    w <- get ;;
    let ms :=
      flat_map (fun line => filter isNotTimeSignal
                              (filter isNotBot (matchAll MessageRE line)))
               (map selectBodyOfLog (recent_list (recent w))) in
    let contents :=
      fst (fold_left (fun '(acc, last) m =>
                        let '(line, last') := composeLog last m in
                        (acc ++ [line], last'))
                     ms ([], (None, None))) in
    let count := Z.min (parseIntOr (field "count" matched) 10) 30 in
    createSpeechAsync (join [10] (firstn (Z.to_nat count) contents)) true ;;
    ret tt.

(* ================================================================== *)
(** ** The tally *)

Definition Hosts := JsMap text (list Match).
Definition Weekly := JsMap number Hosts.

(** [Math.ceil(x / 7)]. *)
Definition ceil_div (x y : Z) : Z := (- ((- x) / y))%Z.

(** [new Date(v).getTime()]: [v], or [NaN] beyond the range of dates. *)
Definition timeClip (v : number) : number :=
  match v with
  | Some t => if (Z.abs t <=? 8640000000000000)%Z then Some t else None
  | None => None
  end.

(** The week of a cached record, as the body of the loop of [tallyWeekly]
    computes it from the record's id and the moment of the tally.  The
    arithmetic is that of the integers, with which the doubles of the
    source agree while the timestamp and the start of the year are less
    than 2^53 milliseconds apart. *)
Definition weekOf (moment : Moment) (item : Log) : number :=
  let epoch := year_start moment in
  let timestamp := timeClip (parseInt (before_dash (id item))) in
  match timestamp with
  | Some ts =>
      let numberOfDays := ((ts - epoch) / (24 * 60 * 60 * 1000))%Z in
      Some (ceil_div (weekday moment + 1 + numberOfDays) 7)
  | None => None
  end.

(** The body of the inner loop of [tallyWeekly], for one framed message
    of a record of the given week. *)
Definition tallyOne (week : number) (weekly : Weekly) (m : Match) : Weekly :=
  let hosts := match map_get week weekly with Some h => h | None => [] end in
  let host := show (field "host" m) in
  let entries := match map_get host hosts with Some l => l | None => [] end in
  map_set week (map_set host (entries ++ [m]) hosts) weekly.

Definition tallyWeekly (moment : Moment) (cached : list Log) (weekly : Weekly)
  : Weekly :=
  fold_left
    (fun weekly item =>
       fold_left (tallyOne (weekOf moment item))
                 (matchAll MessageRE (message_log item)) weekly)
    cached weekly.

(** [descending]: [rhs - lhs], which [sort] reads as [0] when it is [NaN]. *)
Definition descending (lhs rhs : number) : Z :=
  match lhs, rhs with
  | Some l, Some r => (r - l)%Z
  | _, _ => 0%Z
  end.

Definition descendingByFrequency (lhs rhs : text * list Match) : Z :=
  (Z.of_nat (length (snd rhs)) - Z.of_nat (length (snd lhs)))%Z.

Definition undefinedSize : Error :=
  {| error_name := TypeError;
     message := U "Cannot read properties of undefined (reading 'size')" |}.

(** What one round of the loop of [tally] pushes: the header with
    [hosts.size], then the first five of the hosts sorted by frequency. *)
Definition tallyLines (name : text) (hosts : Hosts) : list text :=
  (U "[Bot] " ++ name ++ U "週の逆引きホスト名で区別可能なクライアントの数は "
     ++ text_of_Z (Z.of_nat (length hosts))
     ++ U " で、発言回数の多かったものは次の通りです")
  :: firstn 5
       (map (fun e => U "[Bot] " ++ replaceAll MaskRE [] (fst e) ++ U " "
                        ++ text_of_Z (Z.of_nat (length (snd e))) ++ U " 回")
            (sort_by descendingByFrequency hosts)).

(** The loop of [tally] over [今] and [先]: [weekly.get(x.week)] is
    [undefined] when [weeks] has no such element, and [hosts.size] throws. *)
Fixpoint tallyLoop (weekly : Weekly) (xs : list (text * option number))
  (lines : list text) : Error + list text :=
  match xs with
  | [] => inr lines
  | (name, week) :: xs' =>
      match match week with Some k => map_get k weekly | None => None end with
      | Some hosts => tallyLoop weekly xs' (lines ++ tallyLines name hosts)
      | None => inl undefinedSize
      end
  end.

Definition tally (moment : Moment) (cached : list Log) : Error + list text :=
  let weekly := tallyWeekly moment cached [] in
  let weeks := sort_by descending (map_keys weekly) in
  tallyLoop weekly [(U "今", nth_error weeks 0); (U "先", nth_error weeks 1)] [].

(** [time = now.toLocaleTimeString().split(':')] after
    [time.push('時', time.splice(1).join('分'), '秒')]. *)
Definition clockParts (moment : Moment) : list text :=
  match split_on 58 (localeTime moment) with
  | [] => []
  | hour :: others => [hour; U "時"; join (U "分") others; U "秒"]
  end.

Definition tallyAsync `{Collaborators} (_ : Match) : Async unit :=
  w <- get ;;
  let date := localeDate (now w) in
  let time := clockParts (now w) in
  let heading := [U "[Bot] " ++ date ++ join [] time ++ U "時点の集計結果"; []] in
  match tally (now w) (recent_list (recent w)) with
  | inl e => throw e
  | inr lines =>
      createSpeechAsync (join [10] (heading ++ lines)) true ;;
      ret tt
  end.

Definition handleTallyCommandAsync `{Collaborators} (matched : Match) : Async unit :=
  match field "command" matched with
  | Some c => if text_eqb c (U "--help") then describeTallyHelp matched
              else tallyAsync matched
  | None => tallyAsync matched
  end.

(* ================================================================== *)
(** ** User keywords *)

Definition syntaxComplaint (command : option text) : text :=
  U "[Bot] キーワード" ++ show command ++ U "の構文が正しくありません".

Definition notASpeech : Error :=
  {| error_name := TypeError;
     message := U "Cannot read properties of undefined (reading 'expiresAt')" |}.

(** [createUserKeywordsSpeechAsync(command, keywords)]: the list as a
    speech; a long one is not sent as such, its address is. *)
Definition createUserKeywordsSpeechAsync `{Collaborators} (command : option text)
  (keywords : JsMap text text) : Async unit :=
  w <- get ;;
  let date := localeDate (now w) in
  let time := clockParts (now w) in
  let lines :=
    [date ++ join [] time ++ U "時点で登録されているキーワードの一覧は以下の通りです"; []]
      ++ map (fun kv => join (U " => ") [fst kv; snd kv]) keywords in
  if (length lines <=? 30)%nat
  then createSpeechAsync (join [10] lines) true ;; ret tt
  else
    speech <- createSpeechAsync (join [10] lines) false ;;
    match speech with
    | Some sp =>
        sendAsync (U "[Bot] キーワード" ++ show command ++ U "を" ++ url sp
                     ++ U "に置きました,期限" ++ toLocaleString (expiresAt sp))
    | None => throw notASpeech
    end.

Definition listUserKeywordsAsync `{Collaborators} (m : Match) : Async unit :=
  if truthy (field "name" m) || truthy (field "value" m)
  then sendAsync (syntaxComplaint (field "command" m))
  else
    w <- get ;;
    let keywords := keywordHash w in
    if (length keywords =? 0)%nat
    then sendAsync (U "[Bot] キーワードは登録されていません")
    else createUserKeywordsSpeechAsync (field "command" m) keywords.

(** [hSetNX]: sets the field when it is absent and says whether it did. *)
Definition hSetNX (k v : text) : Async bool :=
  fun w =>
    match map_get k (keywordHash w) with
    | Some _ => Returned false w
    | None => Returned true (with_keywordHash (map_set k v (keywordHash w)) w)
    end.

(** [hDel]: the number of fields it removed. *)
Definition hDel (k : text) : Async bool :=
  fun w =>
    match map_get k (keywordHash w) with
    | Some _ => Returned true (with_keywordHash (map_delete k (keywordHash w)) w)
    | None => Returned false w
    end.

Definition registerUserKeywordAsync (m : Match) : Async unit :=
  let name := field "name" m in
  let value := field "value" m in
  tail <-
    (if truthy name && truthy value
     then done <- hSetNX (show name) (show value) ;;
          ret ([32; quote] ++ show name ++ [quote; 32]
                 ++ (if done then U "を登録しました" else U "は既に登録されています"))
     else ret (show (field "command" m) ++ U "の構文が正しくありません")) ;;
  let t := U "[Bot] キーワード" ++ tail in
  (if endsWith t (U "を登録しました")
   then modify (fun w => with_userKeywords (set_add (show name) (userKeywords w)) w)
   else ret tt) ;;
  sendAsync t.

Definition unregisterUserKeywordAsync (m : Match) : Async unit :=
  let name := field "name" m in
  let value := field "value" m in
  tail <-
    (if truthy name && negb (truthy value)
     then done <- hDel (show name) ;;
          ret ([32; quote] ++ show name ++ [quote; 32]
                 ++ (if done then U "を登録解除しました" else U "は未登録です"))
     else ret (show (field "command" m) ++ U "の構文が正しくありません")) ;;
  let t := U "[Bot] キーワード" ++ tail in
  (if endsWith t (U "を登録解除しました")
   then modify (fun w => with_userKeywords (set_delete (show name) (userKeywords w)) w)
   else ret tt) ;;
  sendAsync t.

(** The [template] of [handleUserKeywordCommandAsync].  [key in template]
    also holds for what the object inherits; of those names a key of at
    most eight word characters can spell [toString] and [valueOf], which
    answer without touching the bot. *)
Inductive KeywordAction := Describe | ListAll | Register | Unregister | Inherited.

Definition template (key : text) : option KeywordAction :=
  if text_eqb key (U "--help") then Some Describe
  else if text_eqb key (U "一覧") then Some ListAll
  else if text_eqb key (U "登録") then Some Register
  else if text_eqb key (U "解除") then Some Unregister
  else if text_eqb key (U "toString") || text_eqb key (U "valueOf")
  then Some Inherited
  else None.

Definition inTemplate (key : option text) : bool :=
  match template (match key with Some k => k | None => U "null" end) with
  | Some _ => true
  | None => false
  end.

(** [[null, name, command, null][u * 2 + v]]; [None] is [null] or
    [undefined]. *)
Definition determineUserKeywordCommandHandler (m : Match) : option text :=
  let command := field "command" m in
  let name := field "name" m in
  let u := match command with Some c => inTemplate (Some c) | None => false end in
  let v := match command, name with None, Some _ => true | _, _ => false end in
  nth ((if u then 1 else 0) * 2 + (if v then 1 else 0))%nat
      [None; name; command; None] None.

Definition handleUserKeywordCommandAsync `{Collaborators} (m : Match) : Async unit :=
  let key := determineUserKeywordCommandHandler m in
  if inTemplate key then
    match template (show key) with
    | Some Describe => describeUserKeywordAsync m
    | Some ListAll => listUserKeywordsAsync m
    | Some Register => registerUserKeywordAsync m
    | Some Unregister => unregisterUserKeywordAsync m
    | Some Inherited | None => ret tt
    end
  else ret tt.

(** [testUserKeywordsAsync]: a reply for each registered keyword the
    message includes, in the order of the set; a keyword the hash no
    longer holds is answered with [undefined]. *)
Definition testUserKeywordsAsync `{Collaborators} (matched : Match) : Async unit :=
  if negb (shouldBeIgnored matched) then
    w <- get ;;
    for_of (filter (includes (show (field "msg" matched))) (userKeywords w))
      (fun keyword =>
         w <- get ;;
         sendAsync (U "[Bot] " ++ show (map_get keyword (keywordHash w))))
  else ret tt.

(* ================================================================== *)
(** ** The command router *)

(** An entry [{ e, f }] of the table [patterns]. *)
Record Pattern := { e : regex; f : Match -> Async unit }.

(** The loop of [handleCanonicalCommandsAsync] over a table, carrying
    [placeholder.matched]. *)
Fixpoint routeLoop (table : list Pattern) (t : text) (placeholder : bool)
  : Async bool :=
  match table with
  | [] => ret placeholder
  | a :: table' =>
      let matched := re_match (e a) t in
      (match matched with
       | Some m => f a m
       | None => ret tt
       end) ;;
      routeLoop table' t (match matched with Some _ => true | None => false end)
  end.

Definition route (table : list Pattern) (t : text) : Async bool :=
  routeLoop table t false.

Definition patterns `{Collaborators} : list Pattern :=
  [ {| e := CalcRE; f := calculateAsync |};
    {| e := DialogueRE; f := dialogueAsync |};
    {| e := HelpRE; f := describeGeneralHelp |};
    {| e := LogRE; f := locateLogsAsync |};
    {| e := TallyRE; f := handleTallyCommandAsync |};
    {| e := TranslateRE; f := fun m => modify (translateOrDescribeAsync m) |};
    {| e := UserKeywordRE; f := handleUserKeywordCommandAsync |} ].

Definition handleCanonicalCommandsAsync `{Collaborators} (t : text) : Async bool :=
  route patterns t.

(* ================================================================== *)
(** ** The framer and the dispatch *)

(** The source has "/\r?\n/g". *)
Definition LineBreakRE : regex := cats [opt (Char (lit 13)); Char (lit 10)].

(** What the loop of [acceptKoukoku] runs over: nothing unless
    [this.threshold < data.byteLength], else the matches of [MessageRE] in
    the text without its line breaks. *)
Definition extractRecords (threshold : nat) (data : Buffer) : list Match :=
  if (threshold <? byteLength data)%nat
  then matchAll MessageRE (replaceAll LineBreakRE [] (toString data))
  else [].

(** [this.web.broadcastAsync(log)]: the log is handed over when the job
    starts; the job is awaited last. *)
Definition broadcastAsync (log : Log) : Async unit :=
  modify (fun w => with_broadcast (broadcast w ++ [log]) w).

(** The body of the loop of [acceptKoukoku], with the two methods it
    calls on [this] as parameters. *)
Definition acceptMatched (router : text -> Async bool)
  (keywords : Match -> Async unit) (matched : Match) : Async unit :=
  log <- appendLogAsync (m0 matched) ;;
  broadcastAsync log ;;
  (if negb (truthy (field "self" matched))
   then found <- router (show (field "msg" matched)) ;;
        if negb found then keywords matched else ret tt
   else ret tt).

Definition acceptKoukoku `{Collaborators} (threshold : nat) (data : Buffer)
  : Async unit :=
  for_of (extractRecords threshold data)
         (acceptMatched handleCanonicalCommandsAsync testUserKeywordsAsync).

(* ================================================================== *)
(** ** Properties stated about the cache *)

(** Invariant I1 of the cache: strictly descending by id. *)
Definition descendingById (l : list Log) : Prop :=
  StronglySorted (fun a b => text_ltb (id b) (id a) = true) l.

(** The same, as a check on neighbours. *)
Fixpoint descendingByIdb (l : list Log) : bool :=
  match l with
  | a :: (b :: _) as l' => text_ltb (id b) (id a) && descendingByIdb l'
  | _ => true
  end.

(* ================================================================== *)
(** ** Sample data for the examples *)

(** A line of the feed as the server frames it. *)
Definition frame (msg date time host : string) : string :=
  (">> 「 " ++ msg ++ " 」(チャット放話 - " ++ date ++ " " ++ time
     ++ " by " ++ host ++ " 君) <<")%string.

Definition frameSelf (msg date time host : string) : string :=
  (">> 「 " ++ msg ++ " 」(チャット放話 - " ++ date ++ " " ++ time
     ++ " by " ++ host ++ " 君 〈＊あなた様＊〉) <<")%string.

Definition entry (i : string) (raw : string) : Log :=
  {| id := U i; message_log := U raw |}.

Definition cacheOf (l : list Log) : Recent :=
  {| recent_list := l;
     recent_map := fold_left (fun m x => map_set (id x) x m) l [];
     recent_set := fold_left (fun s x => set_add (message_log x) s) l [] |}.

(** Collaborators for the examples: the script classes cut down to their
    main blocks, an evaluator that always answers 3, a gist service that
    accepts, no template files, no ignore patterns. *)
Definition sampleCollaborators : Collaborators :=
  {| scx_Common := range 32 64;
     scx_Hiragana := range 12352 12447;
     scx_Katakana := range 12448 12543;
     scx_Han := range 19968 40959;
     evaluate := fun _ => inr (U "3");
     uploadToGistAsync := fun _ => Some (U "gist", U "https://gist.example/raw");
     readFile := fun _ => None;
     shouldBeIgnored := fun _ => false;
     dialogueAsync := fun _ => ret tt;
     translateOrDescribeAsync := fun _ w => w;
     toLocaleString := fun ms => text_of_Z ms;
     selectBodyOfLog := message_log |}.

(** 14 November 2023, 22:13:20 UTC, read in a zone nine hours ahead:
    Wednesday the 15th, 7:13:20, in a year that began at 15:00 UTC on 31
    December 2022. *)
Definition sampleMoment : Moment :=
  {| time_ms := 1700000000000; year_start := 1672498800000; weekday := 3;
     localeDate := U "令和5年11月15日"; localeTime := U "7:13:20" |}%Z.

(** The ids Redis assigns in the examples, one a second from the sample
    moment on. *)
Definition sampleIds : list text :=
  map U ["1700000000000-0"; "1700000001000-0"; "1700000002000-0";
         "1700000003000-0"; "1700000004000-0"; "1700000005000-0"]%string.

(** A bot that has just started on an empty stream. *)
Definition sampleWorld : World :=
  {| recent := cacheOf [];
     userKeywords := [U "foo"];
     speechesSet := [];
     stream := [];
     stream_ids := fun n => nth n sampleIds (U "1700000009000-0");
     keywordHash := [(U "foo", U "bar")];
     sent := [];
     broadcast := [];
     now := sampleMoment |}.


(** ** Properties stated about the validator *)

Definition leads_with_digit (t : text) : Prop :=
  exists c t', t = c :: t' /\ 48 <= c <= 57.

(** ** Properties stated about the router *)

(** The entries of a table that match a text, in table order, each with
    its match. *)
Definition matchesOf (table : list Pattern) (t : text) : list (Pattern * Match) :=
  flat_map (fun a => match re_match (e a) t with
                     | Some m => [(a, m)]
                     | None => []
                     end) table.

Definition entryMatches (t : text) (a : Pattern) : bool :=
  match re_match (e a) t with Some _ => true | None => false end.

(** Whether the last entry of the table matches ([false] for no entry). *)
Definition lastEntryMatched (table : list Pattern) (t : text) : bool :=
  last (map (entryMatches t) table) false.


(** The handlers of the given matches, awaited one after the other. *)
Definition runHandlers (ms : list (Pattern * Match)) : Async unit :=
  for_of ms (fun am => f (fst am) (snd am)).

(** ** Properties stated about sorting and the tally *)

(** A comparator that subtracts keys, on the elements of a list. *)
Definition keyed {A} (cmp : A -> A -> Z) (key : A -> Z) (l : list A) : Prop :=
  forall a b, In a l -> In b l -> cmp a b = (key b - key a)%Z.

(** Ranked by key, the greatest first. *)
Definition ranked {A} (key : A -> Z) (l : list A) : Prop :=
  StronglySorted (fun a b => (key b <= key a)%Z) l.

Definition hostOf (m : Match) : text := show (field "host" m).

(** The framed messages of the cached records, each with the week of its
    record, in the order the loops of [tallyWeekly] visit them. *)
Definition entriesOf (moment : Moment) (cached : list Log) : list (number * Match) :=
  flat_map (fun item => map (pair (weekOf moment item))
                            (matchAll MessageRE (message_log item)))
           cached.

(** The hosts of a week in the table, and the messages of a host in a
    week ([undefined] read as empty). *)
Definition hostsOf (weekly : Weekly) (week : number) : Hosts :=
  match map_get week weekly with Some hosts => hosts | None => [] end.

Definition bucket (weekly : Weekly) (week : number) (host : text) : list Match :=
  match map_get host (hostsOf weekly week) with Some l => l | None => [] end.

Definition inBucket (week : number) (host : text) (x : number * Match) : bool :=
  same (fst x) week && same (hostOf (snd x)) host.

Definition weekKey (week : number) : Z :=
  match week with Some z => z | None => 0%Z end.

Definition frequency (x : text * list Match) : Z := Z.of_nat (length (snd x)).

Definition tallyStep (weekly : Weekly) (x : number * Match) : Weekly :=
  tallyOne (fst x) weekly (snd x).

(** The two kinds of line of the report. *)
Definition tallyHeader (name : text) (hosts : nat) : text :=
  U "[Bot] " ++ name ++ U "週の逆引きホスト名で区別可能なクライアントの数は "
    ++ text_of_Z (Z.of_nat hosts)
    ++ U " で、発言回数の多かったものは次の通りです".

Definition tallyLine (x : text * list Match) : text :=
  U "[Bot] " ++ replaceAll MaskRE [] (fst x) ++ U " "
    ++ text_of_Z (Z.of_nat (length (snd x))) ++ U " 回".

(** A timestamp within the range of [Date]. *)
Definition inDateRange (ts : Z) : Prop := (Z.abs ts <= 8640000000000000)%Z.

(** A cache over two weeks, newest first: eleven messages of the week of
    the sample moment from seven hosts, three messages of the week before
    from two hosts. *)
Definition said (i host : string) : Log :=
  entry i (frame "hi" "11/15 (水)" "07:13:20" host).

Definition sampleCache : list Log :=
  [ said "1700000000000-0" "alpha.example.jp";
    said "1699999000000-0" "beta***.example.jp";
    said "1699998000000-0" "alpha.example.jp";
    said "1699997000000-0" "gamma.example.jp";
    said "1699996000000-0" "delta.example.jp";
    said "1699995000000-0" "beta***.example.jp";
    said "1699994000000-0" "epsilon.example.jp";
    said "1699993000000-0" "alpha.example.jp";
    said "1699992000000-0" "zeta.example.jp";
    said "1699991000000-0" "eta.example.jp";
    said "1699990000000-0" "beta***.example.jp";
    said "1699300000000-0" "beta***.example.jp";
    said "1699200000000-0" "alpha.example.jp";
    said "1699100000000-0" "beta***.example.jp" ].

(** The report expected for the sample cache at the sample moment. *)
Definition sampleReport : list text :=
  map U
    [ "[Bot] 今週の逆引きホスト名で区別可能なクライアントの数は 7 で、発言回数の多かったものは次の通りです";
      "[Bot] alpha.example.jp 3 回";
      "[Bot] betaexample.jp 3 回";
      "[Bot] gamma.example.jp 1 回";
      "[Bot] delta.example.jp 1 回";
      "[Bot] epsilon.example.jp 1 回";
      "[Bot] 先週の逆引きホスト名で区別可能なクライアントの数は 2 で、発言回数の多かったものは次の通りです";
      "[Bot] betaexample.jp 2 回";
      "[Bot] alpha.example.jp 1 回" ]%string.

(** ** Properties stated about the dispatch *)

(** The world once a framed message is appended to the stream and the
    cache and handed to the broadcast. *)
Definition recorded (matched : Match) (w : World) : World :=
  world_of ((log <- appendLogAsync (m0 matched) ;; broadcastAsync log) w).

Definition selfAuthored (matched : Match) : bool := truthy (field "self" matched).

(** Stand-ins for the router and the keyword engine that reject when
    called. *)
Definition unreachable : Error := newError (U "unreachable").
Definition noKeywords : Match -> Async unit := fun _ => throw unreachable.

(** A chunk of the feed holding one line, and the match of a line. *)
Definition chunkOf (line : string) : Buffer := list_byte_of_string line.

Definition framed (msg date time host : string) : Match :=
  {| m0 := U (frame msg date time host);
     index := 0;
     groups := [("msg", U msg); ("date", U date); ("time", U time);
                ("host", U host)]%string |}.

Definition keywordAlone : string := frame "キーワード" "11/15 (水)" "07:13:20" "h*.example.jp".

(** A chunk with two lines: the tally command of one user, then a message
    of another that names the keyword [foo]. *)
Definition tallyThenChat : string :=
  (frame "集計" "11/15 (水)" "07:13:20" "h*.example.jp"
     ++ frame "hello foo" "11/15 (水)" "07:13:21" "g*.example.jp")%string.

(** The bot's own line, as the feed marks it. *)
Definition ownLine : Match :=
  {| m0 := U (frameSelf "集計" "11/15 (水)" "07:13:20" "h*.example.jp");
     index := 0;
     groups := [("msg", U "集計"); ("date", U "11/15 (水)"); ("time", U "07:13:20");
                ("host", U "h*.example.jp"); ("self", U "〈＊あなた様＊〉")]%string |}.

(** ** Properties stated about the matcher and the framer *)

Definition mem (n : string) (l : list string) : bool := existsb (String.eqb n) l.

(** The names a pattern is sure to have bound when it has matched, given
    those bound before: a quantifier may leave the names of its atom
    unbound, an alternative binds what both sides bind. *)
Fixpoint must (r : regex) (B : list string) : list string :=
  match r with
  | Cat a b => must b (must a B)
  | Or a b => filter (fun n => mem n (must b B)) (must a B)
  | Quant _ _ a => filter (fun n => negb (mem n (names_of a))) B
  | Group (Some n) a => n :: must a B
  | Group None a => must a B
  | _ => B
  end.

Definition bound (n : string) (s : mstate) : Prop := group_get n (caps s) <> None.

(** A later state of the matcher on the same input: it has consumed a
    prefix of what was left. *)
Definition reaches (s s' : mstate) : Prop :=
  exists consumed,
    rest s = consumed ++ rest s' /\ pos s' = (pos s + length consumed)%nat.

(** The pattern matches the text at an index. *)
Definition matchesAt (r : regex) (t : text) (i : nat) : Prop :=
  run r {| pos := i; rest := skipn i t; caps := [] |} Some <> None.

(** A match lies in the text: the matcher, started at [matched.index],
    stops having consumed [matched[0]] and bound [matched.groups]. *)
Definition occursIn (r : regex) (t : text) (m : Match) : Prop :=
  (index m <= length t)%nat /\
  exists s',
    run r {| pos := index m; rest := skipn (index m) t; caps := [] |} Some = Some s' /\
    skipn (index m) t = m0 m ++ rest s' /\
    groups m = caps s'.

(** Left to right, none starting before the one in front of it ends. *)
Definition inDocumentOrder (ms : list Match) : Prop :=
  StronglySorted
    (fun a b => (match_end a <= index b)%nat /\ (index a < index b)%nat) ms.

(** An index is covered by the matches: one of them starts there or
    runs over it. *)
Definition covered (ms : list Match) (i : nat) : Prop :=
  exists m, In m ms /\ (index m <= i)%nat /\ ((i < match_end m)%nat \/ i = index m).

(** What a successful run of the matcher hands to its continuation: a
    later state of the same input, with the names the pattern must bind
    bound. *)
Definition post (r : regex) (B : list string) (s s' : mstate) : Prop :=
  reaches s s' /\ forall n, In n (must r B) -> bound n s'.

(** A line of exactly seventy bytes, the default threshold. *)
Definition seventyBytes : string := frame "hiya" "11/15 (水)" "07:13:20" "h".

(** A chunk with a line of another user, a line break, and a line of the
    bot itself. *)
Definition twoLines : string :=
  (frame "hello" "11/15 (水)" "07:13:20" "h*.example.jp"
     ++ String "013" (String "010" EmptyString)
     ++ frameSelf "集計" "11/15 (水)" "07:13:20" "h*.example.jp")%string.

(** Descending by id, ties allowed. *)
Definition notAscendingById (l : list Log) : Prop :=
  StronglySorted (fun a b => text_ltb (id a) (id b) = false) l.

(** ** Properties stated about the texts of the cache *)

(** Invariant I2 of the cache: no two records of the sequence share a raw
    text, and the set holds the raw texts of the sequence and no other. *)
Definition textsIndexed (r : Recent) : Prop :=
  NoDup (map message_log (recent_list r)) /\
  forall t, set_has t (recent_set r) = true <-> In t (map message_log (recent_list r)).

(** The cache of a bot that has not loaded or received anything. *)
Definition emptyRecent : Recent :=
  {| recent_list := []; recent_map := []; recent_set := [] |}.

(** The entries Redis makes of the given texts, from the [k]-th id on. *)
Fixpoint assign (ids : nat -> text) (k : nat) (texts : list text) : list Log :=
  match texts with
  | [] => []
  | t :: texts' => {| id := ids k; message_log := t |} :: assign ids (S k) texts'
  end.

(** The part of the world that holds the log: the cache, the stream with
    the ids to come, and what went to the web clients. *)
Definition sameLog (w w' : World) : Prop :=
  recent w' = recent w /\ stream w' = stream w /\
  stream_ids w' = stream_ids w /\ broadcast w' = broadcast w.

(** The two handlers whose bodies are calls to other services leave the
    log alone, as every handler written out here does. *)
Definition quiet (C : Collaborators) : Prop :=
  (forall m w, sameLog w (world_of (dialogueAsync m w))) /\
  (forall m w, sameLog w (translateOrDescribeAsync m w)).

(** A method that leaves the log alone, however it ends. *)
Definition keeps {A} (m : Async A) : Prop := forall w, sameLog w (world_of (m w)).

(** ** Properties stated about the scan of an expression *)

(** The number of opening and of closing parentheses of a text. *)
Definition opens (expr : text) : Z := Z.of_nat (length (filter (N.eqb 40) expr)).
Definition closes (expr : text) : Z := Z.of_nat (length (filter (N.eqb 41) expr)).

(** A character that is a key of [valueForParenthesis]; any other
    character goes to the qualifier. *)
Definition symbol (c : char) : bool :=
  match lookup_char c valueForParenthesis with
  | Some _ => true
  | None => false
  end.

Definition letters (q : text) : bool := forallb (fun c => negb (symbol c)) q.

(** The context [reduce] starts from. *)
Definition initialContext : Parenthesis := {| opened := 0; qualifier := [] |}.

(* ================================================================== *)
(** ** The keywords at start *)

(** [this.db.hKeys(Bot.UserKeywordKey)]: the fields of the hash. *)
Definition hKeys : Async (list text) :=
  w <- get ;; ret (map_keys (keywordHash w)).

(** [queryUserKeywordsAsync]: the set is emptied, then filled with the
    fields of the hash. *)
Definition queryUserKeywordsAsync : Async unit :=
  modify (fun w => with_userKeywords [] w) ;;
  keys <- hKeys ;;
  for_of keys
    (fun keyword =>
       modify (fun w => with_userKeywords (set_add keyword (userKeywords w)) w)).

(** ** Properties stated about the keywords *)

(** The set of keywords is in step with the hash: the fields of the hash,
    each once. *)
Definition inStep (w : World) : Prop :=
  NoDup (map_keys (keywordHash w)) /\
  NoDup (userKeywords w) /\
  forall k, In k (userKeywords w) <-> In k (map_keys (keywordHash w)).

(** The reply to a message for one keyword: the value the hash holds. *)
Definition replyOf (w : World) (keyword : text) : text :=
  U "[Bot] " ++ show (map_get keyword (keywordHash w)).

Definition keywordReply (name : text) (outcome : text) : text :=
  U "[Bot] キーワード" ++ [32; quote] ++ name ++ [quote; 32] ++ outcome.

(** A keyword command as [UserKeywordRE] binds it. *)
Definition keywordCommand (command name value : option text) : Match :=
  {| m0 := []; index := 0;
     groups := (match command with Some c => [("command"%string, c)] | None => [] end)
               ++ (match name with Some n => [("name"%string, n)] | None => [] end)
               ++ (match value with Some v => [("value"%string, v)] | None => [] end) |}.

(** The lines [createUserKeywordsSpeechAsync] lists: the heading with the
    date and the time, an empty line, and a line for each keyword. *)
Definition keywordLines (moment : Moment) (keywords : JsMap text text) : list text :=
  [localeDate moment ++ join [] (clockParts moment)
     ++ U "時点で登録されているキーワードの一覧は以下の通りです"; []]
    ++ map (fun kv => join (U " => ") [fst kv; snd kv]) keywords.

(** ** Properties stated about what a pattern consumes *)

(** The least number of rounds a quantifier makes. *)
Definition lower (min : nat) (max : option nat) : nat :=
  match max with
  | Some m => Nat.min min m
  | None => min
  end.

Definition within (n : nat) (max : option nat) : Prop :=
  match max with
  | Some m => (n <= m)%nat
  | None => True
  end.

(** The rounds of a quantifier, one piece of text each, in front of what
    is left of the input. *)
Fixpoint pieces_ok (d : nat -> text -> text -> Prop) (p : nat)
  (pieces : list text) (left : text) : Prop :=
  match pieces with
  | [] => True
  | y :: ys => d p y (concat ys ++ left) /\ pieces_ok d (p + length y)%nat ys left
  end.

(** The pattern can consume the text [x] at index [p], in front of
    [left]: what the matcher does without its priorities and captures. *)
Fixpoint derives (r : regex) (p : nat) (x left : text) : Prop :=
  match r with
  | Empty => x = []
  | Char cs => exists c, x = [c] /\ cs c = true
  | Cat a b =>
      exists y z, x = y ++ z /\ derives a p y (z ++ left)
                  /\ derives b (p + length y)%nat z left
  | Or a b => derives a p x left \/ derives b p x left
  | Quant min max a =>
      exists pieces,
        x = concat pieces /\ (lower min max <= length pieces)%nat /\
        within (length pieces) max /\ pieces_ok (derives a) p pieces left
  | Group _ a => derives a p x left
  | AssertStart => x = [] /\ p = 0%nat
  | AssertEnd => x = [] /\ left = []
  end.



(** The characters [CalcRE] lets into an expression. *)
Definition calcChar : cset :=
  anyOf [oneOf (U "πEIPaceginopstx"); digit; space; oneOf (U ".+-*/%()")].

(** The match of a whole text that binds one group. *)
Definition wholeMatch (t : text) (name : string) (value : text) : Match :=
  {| m0 := t; index := 0; groups := [(name, value)] |}.

(** The pattern of a text, character by character, and the shape of the
    patterns [CalcRE] and [DialogueRE]: the word of the command, a white
    space character, and a named argument up to the end. *)
Definition literal (word : text) : regex := cats (map (fun c => Char (lit c)) word).

Definition wordWithArgument (word : text) (name : string) (cs : cset) : regex :=
  cats [AssertStart; literal word; Char space; named name (plus (Char cs)); AssertEnd].

(** ** Properties stated about the count of the tally *)

(** The number of messages a table of hosts holds, and a weekly table. *)
Definition sizeOf (hosts : Hosts) : nat :=
  list_sum (map (fun e => length (snd e)) hosts).

Definition counted (weekly : Weekly) : nat :=
  list_sum (map (fun e => sizeOf (snd e)) weekly).

(* ================================================================== *)
(** ** The chunks that wait for the start *)

(** [postponeKoukoku(data)], on [this.pending]. *)
Definition postponeKoukoku (threshold : nat) (pending : list Buffer) (data : Buffer)
  : list Buffer :=
  if (threshold <? byteLength data)%nat then pending ++ [data] else pending.

(** ** Properties stated about the log listing *)

(** The host and the message of a line as the listing shows them. *)
Definition hostShown (m : Match) : text :=
  replaceAll MaskRE [] (show (field "host" m)).

Definition messageShown (m : Match) : text := trim (show (field "msg" m)).

(** The line of a message that follows the message [prev] in the
    listing: date, time, message and host, with the ditto mark for a
    message or a host that repeats the one of [prev]. *)
Definition lineAfter (prev : option Match) (m : Match) : text :=
  let repeats shown :=
    match prev with
    | Some p => text_eqb (shown m) (shown p)
    | None => false
    end in
  join (U " ")
    [show (field "date" m); show (field "time" m);
     if repeats messageShown then U "〃" else messageShown m;
     if repeats hostShown then U "〃" else hostShown m].

Fixpoint linesAfter (prev : option Match) (ms : list Match) : list text :=
  match ms with
  | [] => []
  | m :: ms' => lineAfter prev m :: linesAfter (Some m) ms'
  end.

(** The messages [locateLogsAsync] lists: those of the cached records,
    newest record first, that are neither the bot's nor time signals. *)
Definition listed `{Collaborators} (w : World) : list Match :=
  flat_map (fun line => filter isNotTimeSignal (filter isNotBot (matchAll MessageRE line)))
           (map selectBodyOfLog (recent_list (recent w))).

(** ** Properties stated about rejections *)

(** A method that rejects with the listed errors only. *)
Definition rejectsOnly {A} (P : Error -> Prop) (m : Async A) : Prop :=
  forall w err w', m w = Thrown err w' -> P err.

(* ================================================================== *)
(** ** [BotService] *)

(** A [CommandService] as [BotService] reaches it: [match(body)], and
    [execute(matched, rawMessage)]. *)
Record CommandService := {
  service_match : option text -> option Match;
  execute : option Match -> text -> Async unit }.

(** [services.find(service => !!(found.matched ??= service.match(body)))]:
    the service found, and [found.matched] as the search leaves it. *)
Fixpoint findService (services : list CommandService) (body : option text)
  (found : option Match) : option CommandService * option Match :=
  match services with
  | [] => (None, found)
  | service :: services' =>
      let found' := match found with
                    | Some m => Some m
                    | None => service_match service body
                    end in
      match found' with
      | Some _ => (Some service, found')
      | None => findService services' body found'
      end
  end.

(** [#findHandler(matched)], over the command services of the resolver
    and the [test] of the keyword service. *)
Definition findHandler (services : list CommandService)
  (test : Match -> Async unit) (matched : Match) : Async unit :=
  let body := field "body" matched in
  let '(service, found) := findService services body None in
  match service with
  | Some s => execute s found (m0 matched)
  | None => test matched
  end.

(** ** Properties stated about [BotService] *)

Definition answers (body : option text) (service : CommandService) : bool :=
  match service_match service body with
  | Some _ => true
  | None => false
  end.

(** ** More sample data *)

(** Collaborators whose gist service refuses. *)
Definition noGist : Collaborators :=
  {| scx_Common := range 32 64;
     scx_Hiragana := range 12352 12447;
     scx_Katakana := range 12448 12543;
     scx_Han := range 19968 40959;
     evaluate := fun _ => inr (U "3");
     uploadToGistAsync := fun _ => None;
     readFile := fun _ => None;
     shouldBeIgnored := fun _ => false;
     dialogueAsync := fun _ => ret tt;
     translateOrDescribeAsync := fun _ w => w;
     toLocaleString := fun ms => text_of_Z ms;
     selectBodyOfLog := message_log |}.

(** Twenty-nine keywords, [k1] to [k29]. *)
Definition manyKeywords : JsMap text text :=
  map (fun n => (U "k" ++ text_of_N (N.of_nat n), U "v")) (seq 1 29).

(** Two command services: one that answers no body, one that answers
    every body and sends the raw message back. *)
Definition silentService : CommandService :=
  {| service_match := fun _ => None;
     execute := fun _ _ => sendAsync (U "silent") |}.

Definition echoService : CommandService :=
  {| service_match := fun body => Some (wholeMatch (show body) "body" (show body));
     execute := fun _ raw => sendAsync raw |}.

(* ================================================================== *)
(** * Properties *)

(** ** Order on texts *)

Lemma text_eqb_refl (a : text) : text_eqb a a = true.
Proof.
  induction a as [|x a IH]; simpl; [reflexivity|].
  now rewrite N.eqb_refl, IH.
Qed.

Lemma text_eqb_eq (a b : text) : text_eqb a b = true <-> a = b.
Proof.
  split.
  - revert b; induction a as [|x a IH]; destruct b as [|y b]; simpl;
      try discriminate; [reflexivity|].
    intros H. apply andb_true_iff in H as [Hx Hr].
    apply N.eqb_eq in Hx. subst. f_equal. now apply IH.
  - intros ->. apply text_eqb_refl.
Qed.

Lemma text_eqb_neq (a b : text) : text_eqb a b = false <-> a <> b.
Proof.
  split.
  - intros H E. apply text_eqb_eq in E. congruence.
  - intros H. destruct (text_eqb a b) eqn:E; [|reflexivity].
    apply text_eqb_eq in E. contradiction.
Qed.

Lemma text_ltb_irrefl (a : text) : text_ltb a a = false.
Proof.
  induction a as [|x a IH]; simpl; [reflexivity|].
  rewrite N.ltb_irrefl, N.eqb_refl, IH. reflexivity.
Qed.

Lemma text_ltb_trans (a b c : text) :
  text_ltb a b = true -> text_ltb b c = true -> text_ltb a c = true.
Proof.
  revert b c; induction a as [|x a IH]; intros [|y b] [|z c]; simpl;
    try discriminate; try reflexivity.
  intros H1 H2.
  apply orb_true_iff in H1. apply orb_true_iff in H2. apply orb_true_iff.
  destruct H1 as [H1|H1], H2 as [H2|H2].
  - left. apply N.ltb_lt in H1, H2. apply N.ltb_lt. lia.
  - apply andb_true_iff in H2 as [E _]. apply N.eqb_eq in E. subst. now left.
  - apply andb_true_iff in H1 as [E _]. apply N.eqb_eq in E. subst. now left.
  - apply andb_true_iff in H1 as [E1 L1]. apply andb_true_iff in H2 as [E2 L2].
    apply N.eqb_eq in E1, E2. subst. right.
    rewrite N.eqb_refl. simpl. eapply IH; eassumption.
Qed.

Lemma text_ltb_total (a b : text) :
  a <> b -> text_ltb a b = false -> text_ltb b a = true.
Proof.
  revert b; induction a as [|x a IH]; intros [|y b]; simpl; try congruence.
  intros Hne H. apply orb_false_iff in H as [H1 H2].
  apply N.ltb_ge in H1.
  destruct (N.eqb_spec x y) as [->|Hxy].
  - simpl in H2. rewrite N.ltb_irrefl, N.eqb_refl. simpl.
    apply IH; [congruence|assumption].
  - assert (y < x) as Hlt by lia. apply N.ltb_lt in Hlt. now rewrite Hlt.
Qed.

Lemma text_ltb_asym (a b : text) :
  text_ltb a b = true -> text_ltb b a = false.
Proof.
  intros H. destruct (text_ltb b a) eqn:E; [|reflexivity].
  pose proof (text_ltb_trans _ _ _ H E) as C.
  now rewrite text_ltb_irrefl in C.
Qed.

(** ** [findIndex] and [splice] *)

Lemma findIndex_range {A} (p : A -> bool) (l : list A) :
  (-1 <= findIndex p l < Z.of_nat (length l))%Z.
Proof.
  induction l as [|x l IH]; simpl; [lia|].
  destruct (p x); [lia|].
  destruct (findIndex p l <? 0)%Z eqn:E; [lia|].
  apply Z.ltb_ge in E. lia.
Qed.

Lemma findIndex_none {A} (p : A -> bool) (l : list A) :
  Forall (fun x => p x = false) l -> findIndex p l = (-1)%Z.
Proof.
  induction 1 as [|x l Hx _ IH]; simpl; [reflexivity|].
  now rewrite Hx, IH.
Qed.

Lemma findIndex_first {A} (p : A -> bool) (before : list A) (x : A) (after : list A) :
  Forall (fun y => p y = false) before -> p x = true ->
  findIndex p (before ++ x :: after) = Z.of_nat (length before).
Proof.
  induction 1 as [|y before Hy _ IH]; simpl; intros Hx.
  - now rewrite Hx.
  - rewrite Hy, (IH Hx).
    destruct (Z.of_nat (length before) <? 0)%Z eqn:E.
    + apply Z.ltb_lt in E. lia.
    + lia.
Qed.

Lemma first_passing {A} (p : A -> bool) (l : list A) :
  (exists x, In x l /\ p x = true) ->
  exists before x after,
    l = before ++ x :: after /\ Forall (fun y => p y = false) before /\ p x = true.
Proof.
  induction l as [|y l IH]; intros (x & Hin & Hx); [destruct Hin|].
  destruct (p y) eqn:Hy.
  - exists [], y, l. repeat split; [constructor|assumption].
  - destruct IH as (before & z & after & -> & Hb & Hz).
    + destruct Hin as [->|Hin]; [congruence|]. now exists x.
    + exists (y :: before), z, after. repeat split; [|assumption].
      now constructor.
Qed.

Lemma splice_at_length {A} (before after : list A) :
  splice (Z.of_nat (length before)) (before ++ after) = (before, after).
Proof.
  unfold splice.
  destruct (Z.of_nat (length before) <? 0)%Z eqn:E;
    [apply Z.ltb_lt in E; lia|].
  rewrite length_app, Nat2Z.inj_add.
  rewrite Z.min_l by lia. rewrite Nat2Z.id.
  rewrite firstn_app, skipn_app, Nat.sub_diag, firstn_all, skipn_all.
  simpl. now rewrite app_nil_r.
Qed.

Lemma splice_minus_one {A} (init : list A) (last : A) :
  splice (-1) (init ++ [last]) = (init, [last]).
Proof.
  unfold splice.
  replace (-1 <? 0)%Z with true by reflexivity.
  rewrite length_app, Nat2Z.inj_add. simpl (Z.of_nat (length [last])).
  replace (Z.max (Z.of_nat (length init) + 1 + -1) 0) with (Z.of_nat (length init)) by lia.
  rewrite Nat2Z.id.
  rewrite firstn_app, skipn_app, Nat.sub_diag, firstn_all, skipn_all.
  simpl. now rewrite app_nil_r.
Qed.

(** ** The merge operation [updateRecent] *)

Lemma descendingByIdb_spec (l : list Log) :
  descendingByIdb l = true <-> descendingById l.
Proof.
  unfold descendingById. split.
  - induction l as [|a l IH]; intros H; [constructor|].
    destruct l as [|b l]; [repeat constructor|].
    simpl in H. apply andb_true_iff in H as [Hab Hl].
    specialize (IH Hl). constructor; [assumption|].
    constructor; [assumption|].
    apply StronglySorted_inv in IH as [_ Hb].
    eapply Forall_impl; [|exact Hb].
    intros c Hc. simpl in Hc. eapply text_ltb_trans; eassumption.
  - induction 1 as [|a l Hl IH Ha]; [reflexivity|].
    destruct l as [|b l]; [reflexivity|].
    simpl. apply andb_true_iff. split; [|exact IH].
    now apply Forall_inv in Ha.
Qed.

Lemma updateRecent_seen (r : Recent) (log : Log) :
  set_has (message_log log) (recent_set r) = true -> updateRecent r log = r.
Proof.
  intros H. unfold updateRecent. now rewrite H.
Qed.

Lemma updateRecent_found (r : Recent) (log x : Log) (before after : list Log) :
  set_has (message_log log) (recent_set r) = false ->
  recent_list r = before ++ x :: after ->
  Forall (fun v => text_ltb (id v) (id log) = false) before ->
  text_ltb (id x) (id log) = true ->
  recent_list (updateRecent r log) = before ++ log :: x :: after.
Proof.
  intros Hset Hl Hb Hx. unfold updateRecent. rewrite Hset, Hl. simpl negb. cbv iota.
  rewrite (findIndex_first (fun value => text_ltb (id value) (id log))
             before x after Hb Hx).
  rewrite splice_at_length. simpl.
  now rewrite <- app_assoc.
Qed.

Lemma updateRecent_not_found (r : Recent) (log last : Log) (init : list Log) :
  set_has (message_log log) (recent_set r) = false ->
  recent_list r = init ++ [last] ->
  Forall (fun v => text_ltb (id v) (id log) = false) (init ++ [last]) ->
  recent_list (updateRecent r log) = init ++ [log; last].
Proof.
  intros Hset Hl Hall. unfold updateRecent. rewrite Hset, Hl. simpl negb. cbv iota.
  rewrite (findIndex_none _ _ Hall), splice_minus_one. simpl.
  now rewrite <- app_assoc.
Qed.

Lemma updateRecent_empty (r : Recent) (log : Log) :
  set_has (message_log log) (recent_set r) = false ->
  recent_list r = [] ->
  recent_list (updateRecent r log) = [log].
Proof.
  intros Hset Hl. unfold updateRecent. now rewrite Hset, Hl.
Qed.

Lemma descending_insert (log x : Log) (before after : list Log) :
  descendingById (before ++ x :: after) ->
  Forall (fun v => text_ltb (id v) (id log) = false /\ id v <> id log) before ->
  text_ltb (id x) (id log) = true ->
  descendingById (before ++ log :: x :: after).
Proof.
  unfold descendingById.
  induction before as [|y before IH]; simpl; intros Hs Hb Hx.
  - constructor; [assumption|].
    constructor; [assumption|].
    apply StronglySorted_inv in Hs as [_ Ha].
    eapply Forall_impl; [|exact Ha].
    intros c Hc. simpl in Hc. eapply text_ltb_trans; eassumption.
  - apply StronglySorted_inv in Hs as [Hs Hy].
    apply Forall_cons_iff in Hb as [[Hy1 Hy2] Hb].
    constructor; [now apply IH|].
    apply Forall_app in Hy as [Hy3 Hy4].
    apply Forall_app. split; [assumption|].
    constructor; [|assumption].
    apply text_ltb_total; [congruence|assumption].
Qed.

(** Where some cached id is less than the record's (insertion before the
    head or in the middle), the merge keeps the order. *)
Lemma updateRecent_keeps_order (r : Recent) (log : Log) :
  descendingById (recent_list r) ->
  set_has (message_log log) (recent_set r) = false ->
  (forall v, In v (recent_list r) -> id v <> id log) ->
  (exists v, In v (recent_list r) /\ text_ltb (id v) (id log) = true) ->
  exists before x after,
    recent_list r = before ++ x :: after /\
    Forall (fun v => text_ltb (id v) (id log) = false) before /\
    text_ltb (id x) (id log) = true /\
    recent_list (updateRecent r log) = before ++ log :: x :: after /\
    descendingById (recent_list (updateRecent r log)).
Proof.
  intros Hs Hset Hne Hex.
  destruct (first_passing (fun v => text_ltb (id v) (id log)) _ Hex)
    as (before & x & after & Hl & Hb & Hx).
  exists before, x, after.
  rewrite (updateRecent_found r log x before after Hset Hl Hb Hx).
  repeat split; try assumption.
  apply descending_insert; [now rewrite <- Hl| |assumption].
  apply Forall_forall. intros v Hv. split.
  - now apply (proj1 (Forall_forall _ _) Hb).
  - apply Hne. rewrite Hl. apply in_or_app. now left.
Qed.

(** Where no cached id is less than the record's (the record is older than
    all the cache holds), [findIndex] answers [-1], [splice(-1)] takes the
    last element off, and the record lands in front of it. *)
Lemma updateRecent_older_than_all (r : Recent) (log last : Log) (init : list Log) :
  set_has (message_log log) (recent_set r) = false ->
  recent_list r = init ++ [last] ->
  Forall (fun v => text_ltb (id log) (id v) = true) (init ++ [last]) ->
  recent_list (updateRecent r log) = init ++ [log; last] /\
  ~ descendingById (recent_list (updateRecent r log)).
Proof.
  intros Hset Hl Hall.
  assert (Forall (fun v => text_ltb (id v) (id log) = false) (init ++ [last])) as Hnone.
  { eapply Forall_impl; [|exact Hall]. intros v Hv. now apply text_ltb_asym. }
  rewrite (updateRecent_not_found r log last init Hset Hl Hnone).
  split; [reflexivity|].
  unfold descendingById. intros Hs.
  assert (text_ltb (id last) (id log) = true) as Hbad.
  { clear - Hs. induction init as [|y init IH]; simpl in Hs.
    - apply StronglySorted_inv in Hs as [_ H]. now apply Forall_inv in H.
    - apply StronglySorted_inv in Hs as [Hs _]. now apply IH. }
  apply Forall_app in Hnone as [_ Hlast]. apply Forall_inv in Hlast. congruence.
Qed.


(** ** The live append [appendLogAsync] *)

Lemma appendLogAsync_unshifts (t : text) (w : World) :
  exists obj w',
    appendLogAsync t w = Returned obj w' /\
    message_log obj = t /\
    id obj = stream_ids w (length (stream w)) /\
    recent_list (recent w') = obj :: recent_list (recent w) /\
    sent w' = sent w /\ broadcast w' = broadcast w.
Proof.
  eexists _, _. unfold appendLogAsync, bind, xAdd, modify, ret. simpl.
  repeat split.
Qed.

(** C3.  [updateRecent] looks the raw text up in [recent.set] and leaves
    the cache alone when it is there; [appendLogAsync] does not look: the
    feed delivering the same line twice makes the live append put a second
    record of the same raw text in front, so the cache grows, while the
    merge of that very record is a no-op. *)
Theorem appendLogAsync_duplicates_seen_text :
  let raw := U (frame "hello" "11/15 (水)" "07:13:20" "h*.example.jp") in
  let once := world_of (appendLogAsync raw sampleWorld) in
  let twice := world_of (appendLogAsync raw once) in
  set_has raw (recent_set (recent once)) = true /\
  length (recent_list (recent once)) = 1%nat /\
  length (recent_list (recent twice)) = 2%nat /\
  map message_log (recent_list (recent twice)) = [raw; raw] /\
  length (recent_map (recent twice)) = 2%nat /\
  recent twice <> recent once /\
  updateRecent (recent once) {| id := U "1700000001000-0"; message_log := raw |}
    = recent once.
Proof.
  intros raw once twice.
  assert (length (recent_list (recent once)) = 1%nat) as H1 by (vm_compute; reflexivity).
  assert (length (recent_list (recent twice)) = 2%nat) as H2 by (vm_compute; reflexivity).
  split; [|split; [|split; [|split; [|split; [|split]]]]];
    try (vm_compute; reflexivity); try assumption.
  intros E. rewrite E in H2. rewrite H1 in H2. discriminate.
Qed.

(** ** The expression validator *)

Lemma decimal_digit_bounds (n : N) : 48 <= 48 + n mod 10 <= 57.
Proof.
  pose proof (N.mod_upper_bound n 10 ltac:(lia)) as H.
  generalize dependent (n mod 10). intros. lia.
Qed.

Lemma digits_of_leads (fuel : nat) (n : N) (acc : text) :
  leads_with_digit acc -> leads_with_digit (digits_of fuel n acc).
Proof.
  revert n acc; induction fuel as [|fuel IH]; intros n acc H; simpl; [exact H|].
  assert (leads_with_digit ((48 + n mod 10) :: acc)) as H'.
  { eexists _, _. split; [reflexivity|].
    apply decimal_digit_bounds. }
  destruct (n <? 10); [exact H'|]. now apply IH.
Qed.

Lemma text_of_N_leads (n : N) : leads_with_digit (text_of_N n).
Proof.
  unfold text_of_N. simpl.
  assert (leads_with_digit [48 + n mod 10]) as H'.
  { eexists _, _. split; [reflexivity|].
    apply decimal_digit_bounds. }
  destruct (n <? 10); [exact H'|]. now apply digits_of_leads.
Qed.

(** A count is rendered with a leading digit, or a minus sign. *)
Lemma text_of_Z_head (z : Z) :
  exists c t', text_of_Z z = c :: t' /\ (c = 45 \/ 48 <= c <= 57).
Proof.
  unfold text_of_Z. destruct (z <? 0)%Z.
  - eexists _, _. split; [reflexivity|]. now left.
  - destruct (text_of_N_leads (Z.abs_N z)) as (c & t' & -> & Hc).
    eexists _, _. split; [reflexivity|]. now right.
Qed.

Lemma reduce_chars_error (cs : text) (ctx : Parenthesis) (e : Error) :
  reduce_chars cs ctx = inl e ->
  exists q, e = newError (q ++ U "は関数ではありません").
Proof.
  revert ctx; induction cs as [|c cs IH]; intros ctx; simpl; [discriminate|].
  unfold updateParenthesisContext.
  destruct (lookup_char c valueForParenthesis) as [addendum|].
  - unfold validateQualifier.
    destruct (_ && _).
    + intros [= <-]. now exists (qualifier ctx).
    + apply IH.
  - apply IH.
Qed.

(** After the scan the verdict depends on the count alone: none when it
    is zero, and otherwise the message of the missing closing parentheses
    with the count in it, whatever its sign. *)
Lemma validateParentheses_by_count (expr : text) (ctx : Parenthesis) :
  reduce_chars expr {| opened := 0; qualifier := [] |} = inr ctx ->
  validateParentheses expr =
    if (opened ctx =? 0)%Z then inr tt
    else inl (newError (text_of_Z (opened ctx) ++ U "個の閉じ括弧が不足しています")).
Proof.
  intros H. unfold validateParentheses. rewrite H. unfold isNaN.
  destruct (opened ctx =? 0)%Z; reflexivity.
Qed.

(** The third message of [validateParentheses] is never the one thrown. *)
Lemma invalid_closing_is_never_reported (expr : text) (e : Error) :
  validateParentheses expr = inl e ->
  message e <> U "不正な閉じ括弧があります".
Proof.
  unfold validateParentheses.
  destruct (reduce_chars expr _) as [e'|ctx] eqn:R.
  - intros [= <-]. apply reduce_chars_error in R as [q ->].
    unfold newError, message. intros E.
    apply (f_equal (@rev char)) in E. rewrite rev_app_distr in E.
    assert (rev (U "は関数ではありません") = 12435 :: rev (U "は関数ではありませ")) as R1
      by (vm_compute; reflexivity).
    assert (rev (U "不正な閉じ括弧があります") = 12377 :: rev (U "不正な閉じ括弧がありま")) as R2
      by (vm_compute; reflexivity).
    rewrite R1, R2 in E. simpl in E. injection E as E _. discriminate.
  - unfold isNaN. destruct (opened ctx =? 0)%Z; simpl; [discriminate|].
    intros [= <-]. unfold newError, message.
    destruct (text_of_Z_head (opened ctx)) as (c & t' & -> & Hc).
    assert (U "不正な閉じ括弧があります" = 19981 :: tl (U "不正な閉じ括弧があります")) as R2
      by (vm_compute; reflexivity).
    rewrite R2. simpl. intros E. injection E as E _. lia.
Qed.

(** C5.  A closing parenthesis too many leaves the count at [-1], which
    is neither [NaN] nor zero: [validateParentheses] throws the message of
    the missing closing parentheses with [-1] in it, not the message of
    the invalid closing parenthesis.  The balanced expression passes and
    the unclosed one is reported with its count. *)
Theorem validateParentheses_reports_a_negative_deficit :
  validateParentheses (U "1+2)")
    = inl (newError (U "-1個の閉じ括弧が不足しています")) /\
  validateParentheses (U "1+2)")
    <> inl (newError (U "不正な閉じ括弧があります")) /\
  validateParentheses (U "(1+2")
    = inl (newError (U "1個の閉じ括弧が不足しています")) /\
  validateParentheses (U "1+(2*3)") = inr tt.
Proof.
  split; [|split; [|split]]; try (vm_compute; reflexivity).
  intros E. apply invalid_closing_is_never_reported in E.
  now apply E.
Qed.

(** ** The command router *)

Lemma lastEntryMatched_cons (a : Pattern) (table : list Pattern) (t : text) :
  lastEntryMatched (a :: table) t =
  match table with
  | [] => entryMatches t a
  | _ :: _ => lastEntryMatched table t
  end.
Proof.
  destruct table; reflexivity.
Qed.

Lemma routeLoop_spec (table : list Pattern) (t : text) (placeholder : bool) (w : World) :
  routeLoop table t placeholder w =
  (runHandlers (matchesOf table t) ;;
   ret (match table with
        | [] => placeholder
        | _ :: _ => lastEntryMatched table t
        end)) w.
Proof.
  revert placeholder w.
  induction table as [|a table IH]; intros placeholder w; [reflexivity|].
  rewrite lastEntryMatched_cons.
  cbn [routeLoop matchesOf flat_map].
  change (flat_map _ table) with (matchesOf table t).
  unfold entryMatches.
  destruct (re_match (e a) t) as [m|] eqn:Hm.
  - cbn [app runHandlers for_of fst snd]. unfold bind.
    destruct (f a m w) as [[] w'|err w']; [|reflexivity].
    rewrite IH. unfold bind, runHandlers.
    destruct (for_of (matchesOf table t) _ w'); [|reflexivity].
    destruct table; reflexivity.
  - cbn [app]. unfold bind, ret.
    rewrite IH. unfold bind, runHandlers, ret.
    destruct (for_of (matchesOf table t) _ w); [|reflexivity].
    destruct table; reflexivity.
Qed.

Lemma matchesOf_cons_none (a : Pattern) (table : list Pattern) (t : text) :
  re_match (e a) t = None -> matchesOf (a :: table) t = matchesOf table t.
Proof.
  intros H. cbn [matchesOf flat_map]. now rewrite H.
Qed.

Lemma matchesOf_cons_some (a : Pattern) (m : Match) (table : list Pattern) (t : text) :
  re_match (e a) t = Some m -> matchesOf (a :: table) t = (a, m) :: matchesOf table t.
Proof.
  intros H. cbn [matchesOf flat_map]. now rewrite H.
Qed.






(** ** [Map] and [sort] *)

Lemma same_text_spec (a b : text) : same a b = true <-> a = b.
Proof.
  apply text_eqb_eq.
Qed.

Lemma same_number_spec (a b : number) : same a b = true <-> a = b.
Proof.
  destruct a as [x|], b as [y|]; simpl; unfold same, same_number;
    try (split; [discriminate|congruence]); [|split; reflexivity].
  rewrite Z.eqb_eq. split; [congruence|intros [= ->]; reflexivity].
Qed.

Section MapFacts.
Context {K V : Type} `{SameValueZero K}.
Hypothesis same_spec : forall a b : K, same a b = true <-> a = b.

Lemma same_refl (k : K) : same k k = true.
Proof.
  now apply same_spec.
Qed.

Lemma same_neq (k k' : K) : k <> k' -> same k k' = false.
Proof.
  intros Hne. destruct (same k k') eqn:E; [|reflexivity].
  apply same_spec in E. contradiction.
Qed.

Lemma map_get_set_same (k : K) (v : V) (m : JsMap K V) :
  map_get k (map_set k v m) = Some v.
Proof.
  induction m as [|[k' v'] m IH]; simpl.
  - now rewrite same_refl.
  - destruct (same k k') eqn:E; simpl.
    + now rewrite same_refl.
    + now rewrite E.
Qed.

Lemma map_get_set_other (k k' : K) (v : V) (m : JsMap K V) :
  k <> k' -> map_get k' (map_set k v m) = map_get k' m.
Proof.
  intros Hne. induction m as [|[k0 v0] m IH]; simpl.
  - rewrite same_neq; [reflexivity|congruence].
  - destruct (same k k0) eqn:E; simpl.
    + apply same_spec in E. subst k0.
      rewrite same_neq; [reflexivity|congruence].
    + now rewrite IH.
Qed.

Lemma map_get_in (k : K) (m : JsMap K V) :
  In k (map_keys m) <-> exists v, map_get k m = Some v.
Proof.
  induction m as [|[k' v'] m IH]; simpl.
  - split; [intros []|intros [v Hv]; discriminate].
  - destruct (same k k') eqn:E.
    + apply same_spec in E. subst. split; [now exists v'|now left].
    + rewrite <- IH. split; [|now right].
      intros [->|Hin]; [|assumption]. rewrite same_refl in E. discriminate.
Qed.

Lemma map_get_none (k : K) (m : JsMap K V) :
  map_get k m = None <-> ~ In k (map_keys m).
Proof.
  rewrite map_get_in. destruct (map_get k m) as [v|].
  - split; [discriminate|]. intros Hn. exfalso. apply Hn. now exists v.
  - split; [|reflexivity]. intros _ [v Hv]. discriminate.
Qed.

Lemma map_keys_set (k : K) (v : V) (m : JsMap K V) :
  map_keys (map_set k v m) =
  match map_get k m with
  | Some _ => map_keys m
  | None => map_keys m ++ [k]
  end.
Proof.
  unfold map_keys.
  induction m as [|[k' v'] m IH]; simpl; [reflexivity|].
  destruct (same k k') eqn:E; simpl.
  - apply same_spec in E. now subst.
  - rewrite IH. now destruct (map_get k m).
Qed.

Lemma map_set_nodup (k : K) (v : V) (m : JsMap K V) :
  NoDup (map_keys m) -> NoDup (map_keys (map_set k v m)).
Proof.
  intros Hnd. rewrite map_keys_set.
  destruct (map_get k m) eqn:E; [assumption|].
  apply map_get_none in E.
  apply NoDup_app; [assumption|repeat constructor; intros []|].
  intros x Hx [<-|[]]. contradiction.
Qed.

End MapFacts.

Section SortFacts.
Context {A : Type} (cmp : A -> A -> Z) (key : A -> Z).

Lemma insert_by_perm (x : A) (l : list A) :
  Permutation (x :: l) (insert_by cmp x l).
Proof.
  induction l as [|y l IH]; simpl; [reflexivity|].
  destruct (cmp y x <=? 0)%Z; [|reflexivity].
  rewrite perm_swap. now constructor.
Qed.

Lemma sort_by_perm_acc (l acc : list A) :
  Permutation (acc ++ l)
    (fold_left (fun acc x => insert_by cmp x acc) l acc).
Proof.
  revert acc; induction l as [|x l IH]; intros acc; simpl.
  - now rewrite app_nil_r.
  - rewrite <- IH. rewrite <- insert_by_perm.
    symmetry. apply Permutation_middle.
Qed.

Lemma sort_by_perm (l : list A) : Permutation l (sort_by cmp l).
Proof.
  apply (sort_by_perm_acc l []).
Qed.

Lemma insert_by_ranked (x : A) (l : list A) :
  keyed cmp key (x :: l) -> ranked key l -> ranked key (insert_by cmp x l).
Proof.
  unfold ranked. intros Hk Hs.
  induction Hs as [|y l Hs IH Hy]; simpl; [repeat constructor|].
  assert (cmp y x = (key x - key y)%Z) as Hc
    by (apply Hk; simpl; auto).
  destruct (cmp y x <=? 0)%Z eqn:E.
  - apply Z.leb_le in E. constructor.
    + apply IH. intros a b Ha Hb. apply Hk; simpl in *; tauto.
    + rewrite <- insert_by_perm. constructor; [lia|assumption].
  - apply Z.leb_gt in E. constructor; [now constructor|].
    constructor; [lia|].
    eapply Forall_impl; [|exact Hy]. simpl. intros; lia.
Qed.

Lemma sort_by_ranked_acc (l acc : list A) :
  keyed cmp key (acc ++ l) -> ranked key acc ->
  ranked key (fold_left (fun acc x => insert_by cmp x acc) l acc).
Proof.
  revert acc; induction l as [|x l IH]; intros acc Hk Hs; simpl; [assumption|].
  apply IH.
  - intros a b Ha Hb. apply Hk.
    + apply in_app_or in Ha as [Ha|Ha].
      * apply (Permutation_in _ (Permutation_sym (insert_by_perm x acc))) in Ha.
        destruct Ha as [<-|Ha]; apply in_or_app; simpl; auto.
      * apply in_or_app; simpl; auto.
    + apply in_app_or in Hb as [Hb|Hb].
      * apply (Permutation_in _ (Permutation_sym (insert_by_perm x acc))) in Hb.
        destruct Hb as [<-|Hb]; apply in_or_app; simpl; auto.
      * apply in_or_app; simpl; auto.
  - apply insert_by_ranked; [|assumption].
    intros a b Ha Hb. apply Hk.
    + destruct Ha as [<-|Ha]; apply in_or_app; simpl; auto.
    + destruct Hb as [<-|Hb]; apply in_or_app; simpl; auto.
Qed.

(** With a comparator that subtracts keys, [sort] ranks by key, the
    greatest first. *)
Lemma sort_by_ranked (l : list A) : keyed cmp key l -> ranked key (sort_by cmp l).
Proof.
  intros Hk. apply sort_by_ranked_acc; [assumption|constructor].
Qed.

Lemma filter_none {B} (p : B -> bool) (l : list B) :
  Forall (fun x => p x = false) l -> filter p l = [].
Proof.
  induction 1 as [|x l Hx _ IH]; simpl; [reflexivity|]. now rewrite Hx.
Qed.

Lemma insert_by_stable (k : Z) (x : A) (l : list A) :
  keyed cmp key (x :: l) -> ranked key l ->
  filter (fun y => (key y =? k)%Z) (insert_by cmp x l)
  = filter (fun y => (key y =? k)%Z) l ++ (if (key x =? k)%Z then [x] else []).
Proof.
  unfold ranked. intros Hk Hs.
  induction Hs as [|y l Hs IH Hy]; [simpl; now destruct (key x =? k)%Z|].
  assert (cmp y x = (key x - key y)%Z) as Hc by (apply Hk; simpl; auto).
  cbn [insert_by]. destruct (cmp y x <=? 0)%Z eqn:E.
  - cbn [filter]. rewrite IH.
    + now destruct (key y =? k)%Z.
    + intros a b Ha Hb. apply Hk; simpl in *; tauto.
  - apply Z.leb_gt in E.
    destruct (key x =? k)%Z eqn:Ex.
    + assert (filter (fun y0 => (key y0 =? k)%Z) (y :: l) = []) as HF.
      { apply Z.eqb_eq in Ex. apply filter_none.
        apply Forall_forall. intros z Hz.
        assert (key z <= key y)%Z as Hzy.
        { destruct Hz as [<-|Hz]; [lia|].
          now apply (proj1 (Forall_forall _ _) Hy). }
        apply Z.eqb_neq. lia. }
      rewrite HF. cbn [filter] in HF |- *. now rewrite Ex, HF.
    + cbn [filter]. now rewrite Ex, app_nil_r.
Qed.

Lemma sort_by_stable_acc (k : Z) (l acc : list A) :
  keyed cmp key (acc ++ l) -> ranked key acc ->
  filter (fun y => (key y =? k)%Z)
         (fold_left (fun acc x => insert_by cmp x acc) l acc)
  = filter (fun y => (key y =? k)%Z) acc ++ filter (fun y => (key y =? k)%Z) l.
Proof.
  revert acc; induction l as [|x l IH]; intros acc Hk Hs.
  - simpl. now rewrite app_nil_r.
  - cbn [fold_left]. rewrite IH.
    + rewrite insert_by_stable, <- app_assoc.
      * cbn [filter]. now destruct (key x =? k)%Z.
      * intros a b Ha Hb. apply Hk.
        -- destruct Ha as [<-|Ha]; apply in_or_app; simpl; auto.
        -- destruct Hb as [<-|Hb]; apply in_or_app; simpl; auto.
      * exact Hs.
    + intros a b Ha Hb. apply Hk.
      * apply in_app_or in Ha as [Ha|Ha].
        -- apply (Permutation_in _ (Permutation_sym (insert_by_perm x acc))) in Ha.
           destruct Ha as [<-|Ha]; apply in_or_app; simpl; auto.
        -- apply in_or_app; simpl; auto.
      * apply in_app_or in Hb as [Hb|Hb].
        -- apply (Permutation_in _ (Permutation_sym (insert_by_perm x acc))) in Hb.
           destruct Hb as [<-|Hb]; apply in_or_app; simpl; auto.
        -- apply in_or_app; simpl; auto.
    + apply insert_by_ranked; [|exact Hs].
      intros a b Ha Hb. apply Hk.
      * destruct Ha as [<-|Ha]; apply in_or_app; simpl; auto.
      * destruct Hb as [<-|Hb]; apply in_or_app; simpl; auto.
Qed.

(** [sort] is stable: elements of one key keep their order. *)
Lemma sort_by_stable (k : Z) (l : list A) :
  keyed cmp key l ->
  filter (fun y => (key y =? k)%Z) (sort_by cmp l)
  = filter (fun y => (key y =? k)%Z) l.
Proof.
  intros Hk. unfold sort_by. rewrite sort_by_stable_acc; [reflexivity|exact Hk|constructor].
Qed.

End SortFacts.

(** ** The sort that ends [queryLogAsync] *)

Lemma text_ltb_neither (a b c : text) :
  text_ltb a b = false -> text_ltb b c = false -> text_ltb a c = false.
Proof.
  intros H1 H2. destruct (text_ltb a c) eqn:E; [|reflexivity].
  destruct (text_eqb a b) eqn:Eab.
  - apply text_eqb_eq in Eab. subst. congruence.
  - apply text_eqb_neq in Eab.
    pose proof (text_ltb_total a b Eab H1) as Hba.
    pose proof (text_ltb_trans _ _ _ Hba E). congruence.
Qed.

Lemma insert_byId_sorted (x : Log) (l : list Log) :
  notAscendingById l -> notAscendingById (insert_by byIdDescending x l).
Proof.
  unfold notAscendingById. intros Hs.
  induction Hs as [|y l Hs IH Hy]; simpl; [repeat constructor|].
  unfold byIdDescending at 1.
  destruct (text_ltb (id y) (id x)) eqn:E; simpl.
  - constructor; [now constructor|].
    constructor; [now apply text_ltb_asym|].
    eapply Forall_impl; [|exact Hy]. simpl. intros z Hz.
    apply (text_ltb_neither _ (id y)); [now apply text_ltb_asym|exact Hz].
  - constructor; [exact IH|].
    rewrite <- (insert_by_perm byIdDescending x l).
    constructor; assumption.
Qed.

Lemma sort_byId_sorted (l acc : list Log) :
  notAscendingById acc ->
  notAscendingById (fold_left (fun acc x => insert_by byIdDescending x acc) l acc).
Proof.
  revert acc; induction l as [|x l IH]; intros acc Hs; [exact Hs|].
  simpl. apply IH. now apply insert_byId_sorted.
Qed.

Lemma notAscending_distinct (l : list Log) :
  notAscendingById l -> NoDup (map id l) -> descendingById l.
Proof.
  unfold notAscendingById, descendingById.
  induction 1 as [|a l Hs IH Ha]; intros Hnd; [constructor|].
  simpl in Hnd. apply NoDup_cons_iff in Hnd as [Hnot Hnd].
  constructor; [now apply IH|].
  apply Forall_forall. intros b Hb.
  apply text_ltb_total.
  - intros E. apply Hnot. rewrite E. now apply in_map.
  - now apply (proj1 (Forall_forall _ _) Ha).
Qed.

(** The backfill as a whole: after the merges, [queryLogAsync] sorts the
    sequence, so it ends with the merged records in descending order of
    id, strictly when the ids differ, wherever the merges had put
    them. *)
Lemma queryLogAsync_sorts (w : World) :
  exists w',
    queryLogAsync w = Returned tt w' /\
    Permutation (recent_list (fold_left updateRecent (stream w) (recent w)))
                (recent_list (recent w')) /\
    notAscendingById (recent_list (recent w')) /\
    (NoDup (map id (recent_list (recent w'))) ->
     descendingById (recent_list (recent w'))).
Proof.
  eexists. unfold queryLogAsync, bind, get, modify. rewrite rev_involutive.
  split; [reflexivity|]. cbn [recent with_recent recent_list].
  split; [apply sort_by_perm|].
  assert (notAscendingById
            (sort_by byIdDescending
               (recent_list (fold_left updateRecent (stream w) (recent w))))) as Hs
    by (apply sort_byId_sorted; constructor).
  split; [exact Hs|]. now apply notAscending_distinct.
Qed.

(** ** The weekly table *)

Lemma tallyWeekly_entries (moment : Moment) (cached : list Log) (weekly : Weekly) :
  tallyWeekly moment cached weekly =
  fold_left tallyStep (entriesOf moment cached) weekly.
Proof.
  unfold tallyWeekly, entriesOf.
  revert weekly; induction cached as [|item cached IH]; intros weekly; [reflexivity|].
  cbn [fold_left flat_map]. rewrite fold_left_app, IH. f_equal.
  generalize (matchAll MessageRE (message_log item)) as ms.
  intros ms. revert weekly.
  induction ms as [|m ms IHm]; intros weekly; [reflexivity|].
  cbn [map fold_left fst snd]. apply IHm.
Qed.

Lemma hostsOf_tallyOne (week0 : number) (weekly : Weekly) (m : Match) (week : number) :
  hostsOf (tallyOne week0 weekly m) week =
  if same week0 week
  then map_set (hostOf m) (bucket weekly week (hostOf m) ++ [m]) (hostsOf weekly week)
  else hostsOf weekly week.
Proof.
  unfold bucket, hostsOf, hostOf, tallyOne.
  destruct (same week0 week) eqn:E.
  - apply same_number_spec in E. subst week0.
    rewrite (map_get_set_same same_number_spec). reflexivity.
  - rewrite (map_get_set_other same_number_spec); [reflexivity|].
    intros ->. rewrite (same_refl same_number_spec) in E. discriminate.
Qed.

Lemma bucket_tallyOne (week0 : number) (weekly : Weekly) (m : Match)
  (week : number) (host : text) :
  bucket (tallyOne week0 weekly m) week host =
  bucket weekly week host ++ (if inBucket week host (week0, m) then [m] else []).
Proof.
  unfold bucket at 1. rewrite hostsOf_tallyOne. unfold inBucket. cbn [fst snd].
  destruct (same week0 week) eqn:E; cbn [andb]; [|now rewrite app_nil_r].
  destruct (same (hostOf m) host) eqn:Eh.
  - apply same_text_spec in Eh. subst host.
    now rewrite (map_get_set_same same_text_spec).
  - rewrite (map_get_set_other same_text_spec).
    + now rewrite app_nil_r.
    + intros Hx. rewrite Hx, (same_refl same_text_spec) in Eh. discriminate.
Qed.

Lemma keys_tallyOne (week0 : number) (weekly : Weekly) (m : Match) :
  map_keys (tallyOne week0 weekly m) =
  match map_get week0 weekly with
  | Some _ => map_keys weekly
  | None => map_keys weekly ++ [week0]
  end.
Proof.
  unfold tallyOne. apply (map_keys_set same_number_spec).
Qed.

Lemma bucket_fold (xs : list (number * Match)) (weekly : Weekly)
  (week : number) (host : text) :
  bucket (fold_left tallyStep xs weekly) week host =
  bucket weekly week host ++ map snd (filter (inBucket week host) xs).
Proof.
  revert weekly; induction xs as [|[week0 m] xs IH]; intros weekly.
  - simpl. now rewrite app_nil_r.
  - cbn [fold_left filter]. rewrite IH. change (tallyStep weekly (week0, m)) with (tallyOne week0 weekly m).
    rewrite bucket_tallyOne, <- app_assoc. f_equal.
    destruct (inBucket week host (week0, m)); reflexivity.
Qed.

Lemma keys_fold (xs : list (number * Match)) (weekly : Weekly) (week : number) :
  In week (map_keys (fold_left tallyStep xs weekly)) <->
  In week (map_keys weekly) \/ exists m, In (week, m) xs.
Proof.
  revert weekly; induction xs as [|[week0 m] xs IH]; intros weekly.
  - simpl. split; [now left|]. intros [H|[m []]]. exact H.
  - cbn [fold_left]. rewrite IH. change (tallyStep weekly (week0, m)) with (tallyOne week0 weekly m).
    rewrite keys_tallyOne.
    assert (In week (match map_get week0 weekly with
                     | Some _ => map_keys weekly
                     | None => map_keys weekly ++ [week0]
                     end) <-> In week (map_keys weekly) \/ week = week0) as ->.
    { destruct (map_get week0 weekly) eqn:E.
      - split; [now left|]. intros [H| ->]; [exact H|].
        apply (map_get_in same_number_spec). eauto.
      - rewrite in_app_iff. simpl. intuition congruence. }
    split.
    + intros [[H| ->]|[m' H]]; [now left| |].
      * right. exists m. now left.
      * right. exists m'. now right.
    + intros [H|[m' [H|H]]].
      * left. now left.
      * injection H as <- <-. left. now right.
      * right. now exists m'.
Qed.

Lemma keys_fold_nodup (xs : list (number * Match)) (weekly : Weekly) :
  NoDup (map_keys weekly) -> NoDup (map_keys (fold_left tallyStep xs weekly)).
Proof.
  revert weekly; induction xs as [|[week0 m] xs IH]; intros weekly Hnd; [exact Hnd|].
  cbn [fold_left]. apply IH. unfold tallyStep, tallyOne. cbn [fst snd].
  now apply (map_set_nodup same_number_spec).
Qed.

Lemma hosts_fold (xs : list (number * Match)) (weekly : Weekly)
  (week : number) (host : text) :
  In host (map_keys (hostsOf (fold_left tallyStep xs weekly) week)) <->
  In host (map_keys (hostsOf weekly week)) \/
  exists m, In (week, m) xs /\ hostOf m = host.
Proof.
  revert weekly; induction xs as [|[week0 m] xs IH]; intros weekly.
  - simpl. split; [now left|]. intros [H|(m & [] & _)]. exact H.
  - cbn [fold_left]. rewrite IH. change (tallyStep weekly (week0, m)) with (tallyOne week0 weekly m).
    rewrite hostsOf_tallyOne.
    destruct (same week0 week) eqn:E.
    + apply same_number_spec in E. subst week0.
      rewrite (map_keys_set same_text_spec).
      split.
      * intros [H|(m' & H1 & H2)].
        -- destruct (map_get (hostOf m) (hostsOf weekly week)) eqn:Eg.
           ++ now left.
           ++ apply in_app_or in H as [H|[<-|[]]]; [now left|].
              right. exists m. split; [now left|reflexivity].
        -- right. exists m'. split; [now right|assumption].
      * intros [H|(m' & [H1|H1] & H2)].
        -- left. destruct (map_get (hostOf m) (hostsOf weekly week));
             [assumption|apply in_or_app; now left].
        -- injection H1 as <-. subst host. left.
           destruct (map_get (hostOf m) (hostsOf weekly week)) eqn:Eg.
           ++ apply (map_get_in same_text_spec). eauto.
           ++ apply in_or_app. right. now left.
        -- right. now exists m'.
    + split.
      * intros [H|(m' & H1 & H2)]; [now left|].
        right. exists m'. split; [now right|assumption].
      * intros [H|(m' & [H1|H1] & H2)]; [now left| |].
        -- injection H1 as -> _. rewrite (same_refl same_number_spec) in E.
           discriminate.
        -- right. now exists m'.
Qed.

Lemma hosts_fold_nodup (xs : list (number * Match)) (weekly : Weekly) (week : number) :
  NoDup (map_keys (hostsOf weekly week)) ->
  NoDup (map_keys (hostsOf (fold_left tallyStep xs weekly) week)).
Proof.
  revert weekly; induction xs as [|[week0 m] xs IH]; intros weekly Hnd; [exact Hnd|].
  cbn [fold_left]. apply IH. change (tallyStep weekly (week0, m)) with (tallyOne week0 weekly m).
  rewrite hostsOf_tallyOne. destruct (same week0 week); [|assumption].
  now apply (map_set_nodup same_text_spec).
Qed.

(** ** The tally *)

Lemma entriesOf_in (moment : Moment) (cached : list Log) (week : number) (m : Match) :
  In (week, m) (entriesOf moment cached) <->
  exists item, In item cached /\ In m (matchAll MessageRE (message_log item))
               /\ weekOf moment item = week.
Proof.
  unfold entriesOf. rewrite in_flat_map. split.
  - intros (item & Hi & Hm). apply in_map_iff in Hm as (m' & [= <- <-] & Hm).
    now exists item.
  - intros (item & Hi & Hm & <-). exists item. split; [assumption|].
    apply in_map_iff. now exists m.
Qed.

Lemma weekly_hosts (weekly : Weekly) (week : number) :
  In week (map_keys weekly) -> map_get week weekly = Some (hostsOf weekly week).
Proof.
  intros H. apply (map_get_in same_number_spec) in H as [hosts Hh].
  unfold hostsOf. now rewrite Hh.
Qed.

(** [tally], by the number of weeks in the table. *)
Lemma tally_cases (moment : Moment) (cached : list Log) :
  let weekly := tallyWeekly moment cached [] in
  match sort_by descending (map_keys weekly) with
  | this :: last :: _ =>
      tally moment cached =
      inr (tallyLines (U "今") (hostsOf weekly this)
             ++ tallyLines (U "先") (hostsOf weekly last))
  | _ => tally moment cached = inl undefinedSize
  end.
Proof.
  intros weekly. unfold tally. fold weekly.
  pose proof (sort_by_perm descending (map_keys weekly)) as Hp.
  destruct (sort_by descending (map_keys weekly)) as [|this [|last weeks]].
  - reflexivity.
  - cbn [nth_error tallyLoop].
    rewrite (weekly_hosts weekly this).
    + reflexivity.
    + apply (Permutation_in _ (Permutation_sym Hp)). now left.
  - cbn [nth_error tallyLoop].
    rewrite (weekly_hosts weekly this), (weekly_hosts weekly last).
    + reflexivity.
    + apply (Permutation_in _ (Permutation_sym Hp)). right. now left.
    + apply (Permutation_in _ (Permutation_sym Hp)). now left.
Qed.

Lemma tally_weeks_length (moment : Moment) (cached : list Log) :
  length (sort_by descending (map_keys (tallyWeekly moment cached [])))
  = length (tallyWeekly moment cached []).
Proof.
  rewrite <- (Permutation_length (sort_by_perm descending _)).
  apply length_map.
Qed.

(** The weeks of the table are the distinct weeks of the framed messages
    of the cache. *)
Lemma weekly_keys (moment : Moment) (cached : list Log) :
  NoDup (map_keys (tallyWeekly moment cached [])) /\
  (forall week,
     In week (map_keys (tallyWeekly moment cached [])) <->
     exists item m, In item cached /\ In m (matchAll MessageRE (message_log item))
                    /\ weekOf moment item = week).
Proof.
  rewrite tallyWeekly_entries. split.
  - apply keys_fold_nodup. constructor.
  - intros week. rewrite keys_fold. split.
    + intros [[]|[m Hm]]. apply entriesOf_in in Hm as (item & Hi & Hm & Hw).
      now exists item, m.
    + intros (item & m & Hi & Hm & Hw). right. exists m.
      apply entriesOf_in. now exists item.
Qed.

(** C10.  [tally] reads [hosts.size] of [weekly.get(weeks[0])] and of
    [weekly.get(weeks[1])]: it throws the [TypeError] exactly when the
    cached records fall in fewer than two weeks, and returns a report
    exactly when they fall in two or more.  The weeks of the table are the
    distinct weeks of the framed messages in the cache, so an empty cache
    throws, and [tallyAsync] rejects with the same error before it sends
    or publishes anything. *)
Theorem tally_throws_below_two_weeks (moment : Moment) (cached : list Log) :
  let weekly := tallyWeekly moment cached [] in
  (tally moment cached = inl undefinedSize <-> (length weekly < 2)%nat) /\
  ((exists report, tally moment cached = inr report) <-> (2 <= length weekly)%nat) /\
  NoDup (map_keys weekly) /\
  (forall week,
     In week (map_keys weekly) <->
     exists item m, In item cached /\ In m (matchAll MessageRE (message_log item))
                    /\ weekOf moment item = week) /\
  tally moment [] = inl undefinedSize /\
  (forall (C : Collaborators) (matched : Match) (w : World),
     moment = now w -> cached = recent_list (recent w) ->
     (length weekly < 2)%nat ->
     tallyAsync matched w = Thrown undefinedSize w).
Proof.
  intros weekly.
  pose proof (tally_cases moment cached) as Hc. cbv zeta in Hc. fold weekly in Hc.
  pose proof (tally_weeks_length moment cached) as Hl. fold weekly in Hl.
  assert (tally moment cached = inl undefinedSize <-> (length weekly < 2)%nat) as H1.
  { destruct (sort_by descending (map_keys weekly)) as [|this [|last weeks]];
      simpl in Hl; rewrite Hc; split; try lia; try reflexivity; try discriminate. }
  split; [exact H1|]. split; [|split; [|split; [|split]]].
  - destruct (sort_by descending (map_keys weekly)) as [|this [|last weeks]];
      simpl in Hl; rewrite Hc; split; try lia.
    + intros [report Hr]. discriminate.
    + intros [report Hr]. discriminate.
    + intros _. eexists. reflexivity.
  - apply weekly_keys.
  - apply weekly_keys.
  - reflexivity.
  - intros C matched w -> -> Hlt. apply H1 in Hlt.
    unfold tallyAsync, bind, get. rewrite Hlt. reflexivity.
Qed.

Lemma map_get_of_in {V} (k : text) (v : V) (m : JsMap text V) :
  NoDup (map_keys m) -> In (k, v) m -> map_get k m = Some v.
Proof.
  induction m as [|[k' v'] m IH]; simpl; intros Hnd Hin; [destruct Hin|].
  apply NoDup_cons_iff in Hnd as [Hk Hnd].
  destruct Hin as [[= -> ->]|Hin].
  - now rewrite (same_refl same_text_spec).
  - rewrite (same_neq same_text_spec); [now apply IH|].
    intros ->. apply Hk. unfold map_keys. apply in_map_iff. now exists (k', v).
Qed.

(** The lines of a week: its number of hosts, then at most five hosts,
    those with the most messages first, hosts with as many messages in the
    order of the table. *)
Lemma tallyLines_ranking (name : text) (hosts : Hosts) :
  exists ranking,
    Permutation hosts ranking /\
    ranked frequency ranking /\
    (forall k, filter (fun x => (frequency x =? k)%Z) ranking
               = filter (fun x => (frequency x =? k)%Z) hosts) /\
    tallyLines name hosts
    = tallyHeader name (length hosts) :: map tallyLine (firstn 5 ranking).
Proof.
  exists (sort_by descendingByFrequency hosts). split; [|split; [|split]].
  - apply sort_by_perm.
  - apply sort_by_ranked. intros a b _ _. reflexivity.
  - intros k. apply sort_by_stable. intros a b _ _. reflexivity.
  - unfold tallyLines. now rewrite firstn_map.
Qed.

(** The week of a record whose id starts with a timestamp: the days since
    the start of the year rounded down, the weeks rounded up. *)
Lemma weekOf_formula (moment : Moment) (item : Log) (ts : Z) :
  parseInt (before_dash (id item)) = Some ts -> inDateRange ts ->
  exists days week,
    weekOf moment item = Some week /\
    (86400000 * days <= ts - year_start moment < 86400000 * (days + 1))%Z /\
    (7 * (week - 1) < weekday moment + 1 + days <= 7 * week)%Z.
Proof.
  intros Hp Hr. unfold weekOf, timeClip. rewrite Hp.
  apply Z.leb_le in Hr. rewrite Hr.
  change (24 * 60 * 60 * 1000)%Z with 86400000%Z.
  set (days := ((ts - year_start moment) / 86400000)%Z).
  exists days, (ceil_div (weekday moment + 1 + days) 7). split; [reflexivity|].
  split.
  - unfold days.
    pose proof (Z.mul_div_le (ts - year_start moment) 86400000 ltac:(lia)).
    pose proof (Z.mul_succ_div_gt (ts - year_start moment) 86400000 ltac:(lia)).
    lia.
  - unfold ceil_div. generalize (weekday moment + 1 + days)%Z as x. intros x.
    pose proof (Z.mul_div_le (- x) 7 ltac:(lia)).
    pose proof (Z.mul_succ_div_gt (- x) 7 ltac:(lia)).
    lia.
Qed.

Lemma ranked_head_bounds {A} (key : A -> Z) (a b : A) (l : list A) :
  ranked key (a :: b :: l) ->
  (key b <= key a)%Z /\ forall c, In c l -> (key c <= key b)%Z.
Proof.
  intros H. apply StronglySorted_inv in H as [H Ha].
  apply StronglySorted_inv in H as [_ Hb].
  split; [now apply Forall_inv in Ha|].
  intros c Hc. now apply (proj1 (Forall_forall _ _) Hb).
Qed.

(** C8.  With every cached id starting with a timestamp, a report of the
    tally covers the two greatest weeks of the table, [今] first; each
    part is the header with the number of distinct hosts of the week and
    then at most five hosts, ranked by their number of messages; the
    messages of a host in a week are the framed messages of the records of
    that week that name the host, in cache order; and the week of a record
    is the ceiling of a seventh of the weekday of the moment plus one plus
    the whole days from the start of the moment's year to the timestamp
    in front of the dash of the id.  The report is a function of the
    moment and the cached sequence. *)
Theorem tally_reports_the_two_latest_weeks
  (moment : Moment) (cached : list Log) (report : list text) :
  Forall (fun item => weekOf moment item <> None) cached ->
  tally moment cached = inr report ->
  let weekly := tallyWeekly moment cached [] in
  let entries := entriesOf moment cached in
  (exists this last : Z,
     In (Some this) (map_keys weekly) /\ In (Some last) (map_keys weekly) /\
     (last < this)%Z /\
     (forall week, In (Some week) (map_keys weekly) ->
                   week = this \/ (week <= last)%Z) /\
     report = tallyLines (U "今") (hostsOf weekly (Some this))
                ++ tallyLines (U "先") (hostsOf weekly (Some last))) /\
  (forall week,
     NoDup (map_keys (hostsOf weekly week)) /\
     (forall host,
        In host (map_keys (hostsOf weekly week)) <->
        exists m, In (week, m) entries /\ hostOf m = host) /\
     (forall host ms,
        In (host, ms) (hostsOf weekly week) ->
        ms = map snd (filter (inBucket week host) entries))) /\
  (forall name hosts,
     exists ranking,
       Permutation hosts ranking /\ ranked frequency ranking /\
       (forall k, filter (fun x => (frequency x =? k)%Z) ranking
                  = filter (fun x => (frequency x =? k)%Z) hosts) /\
       tallyLines name hosts
       = tallyHeader name (length hosts) :: map tallyLine (firstn 5 ranking)) /\
  (forall item ts,
     In item cached ->
     parseInt (before_dash (id item)) = Some ts -> inDateRange ts ->
     exists days week,
       weekOf moment item = Some week /\
       (86400000 * days <= ts - year_start moment < 86400000 * (days + 1))%Z /\
       (7 * (week - 1) < weekday moment + 1 + days <= 7 * week)%Z).
Proof.
  intros Hids Hreport weekly entries.
  assert (forall week, In week (map_keys weekly) -> week <> None) as Hsome.
  { intros week Hin.
    apply (proj2 (weekly_keys moment cached)) in Hin as (item & m & Hi & _ & <-).
    now apply (proj1 (Forall_forall _ _) Hids). }
  assert (NoDup (map_keys weekly)) as Hnd
    by apply weekly_keys.
  split; [|split; [|split]].
  - pose proof (tally_cases moment cached) as Hc. cbv zeta in Hc. fold weekly in Hc.
    pose proof (sort_by_perm descending (map_keys weekly)) as Hp.
    assert (ranked weekKey (sort_by descending (map_keys weekly))) as Hr.
    { apply sort_by_ranked. intros a b Ha Hb.
      apply Hsome in Ha, Hb. destruct a, b; try congruence. reflexivity. }
    assert (NoDup (sort_by descending (map_keys weekly))) as Hnd'
      by (eapply Permutation_NoDup; eassumption).
    destruct (sort_by descending (map_keys weekly)) as [|k0 [|k1 weeks]];
      try (rewrite Hc in Hreport; discriminate).
    rewrite Hc in Hreport. injection Hreport as <-.
    assert (In k0 (map_keys weekly)) as H0
      by (apply (Permutation_in _ (Permutation_sym Hp)); now left).
    assert (In k1 (map_keys weekly)) as H1
      by (apply (Permutation_in _ (Permutation_sym Hp)); right; now left).
    destruct k0 as [this|]; [|now apply Hsome in H0].
    destruct k1 as [last|]; [|now apply Hsome in H1].
    apply ranked_head_bounds in Hr as [Hle Hrest]. simpl in Hle.
    apply NoDup_cons_iff in Hnd' as [Hnot _].
    exists this, last. repeat split; try assumption.
    + assert (this <> last) by (intros ->; apply Hnot; now left). lia.
    + intros week Hin. apply (Permutation_in _ Hp) in Hin.
      destruct Hin as [[= ->]|[[= ->]|Hin]]; [now left|right; lia|].
      right. apply (Hrest (Some week) Hin).
  - intros week. unfold weekly. rewrite tallyWeekly_entries.
    assert (NoDup (map_keys (hostsOf (fold_left tallyStep entries []) week))) as Hh
      by (apply hosts_fold_nodup; constructor).
    split; [exact Hh|]. split.
    + intros host. fold entries. rewrite hosts_fold. split.
      * intros [[]|H]. exact H.
      * intros H. now right.
    + intros host ms Hin. fold entries in Hin |- *.
      pose proof (bucket_fold entries [] week host) as Hb.
      unfold bucket at 1 in Hb.
      rewrite (map_get_of_in host ms _ Hh Hin) in Hb. exact Hb.
  - apply tallyLines_ranking.
  - intros item ts _. apply weekOf_formula.
Qed.

Lemma tally_reports_the_two_latest_weeks_witness :
  Forall (fun item => weekOf sampleMoment item <> None) sampleCache /\
  tally sampleMoment sampleCache = inr sampleReport /\
  exists this last : Z,
    (last < this)%Z /\
    sampleReport
    = tallyLines (U "今") (hostsOf (tallyWeekly sampleMoment sampleCache []) (Some this))
        ++ tallyLines (U "先") (hostsOf (tallyWeekly sampleMoment sampleCache []) (Some last)).
Proof.
  assert (Forall (fun item => weekOf sampleMoment item <> None) sampleCache) as H1
    by (repeat (constructor; [vm_compute; discriminate|]); constructor).
  assert (tally sampleMoment sampleCache = inr sampleReport) as H2
    by (vm_compute; reflexivity).
  split; [exact H1|split; [exact H2|]].
  destruct (tally_reports_the_two_latest_weeks _ _ _ H1 H2)
    as [(this & last & _ & _ & Hlt & _ & Hr) _].
  exists this, last. split; assumption.
Defined.

Lemma tally_throws_below_two_weeks_witness :
  tally sampleMoment (firstn 11 sampleCache) = inl undefinedSize /\
  exists report, tally sampleMoment sampleCache = inr report.
Proof.
  split.
  - apply (proj1 (tally_throws_below_two_weeks sampleMoment (firstn 11 sampleCache))).
    vm_compute. repeat constructor.
  - apply (proj1 (proj2 (tally_throws_below_two_weeks sampleMoment sampleCache))).
    vm_compute. repeat constructor.
Defined.

(** ** The dispatch of a framed message *)

Lemma acceptMatched_steps (router : text -> Async bool)
  (keywords : Match -> Async unit) (matched : Match) (w : World) :
  acceptMatched router keywords matched w =
  if selfAuthored matched then Returned tt (recorded matched w)
  else match router (show (field "msg" matched)) (recorded matched w) with
       | Returned true w' => Returned tt w'
       | Returned false w' => keywords matched w'
       | Thrown err w' => Thrown err w'
       end.
Proof.
  cbv beta iota zeta delta
    [acceptMatched selfAuthored recorded bind appendLogAsync xAdd
     broadcastAsync modify ret world_of].
  destruct (truthy (field "self" matched)); cbn [negb]; [reflexivity|].
  match goal with
  | |- context [router ?t ?w0] => destruct (router t w0) as [[|] w'|err w']
  end; reflexivity.
Qed.


(** ** The keyword command without arguments *)

Lemma handleCanonicalCommandsAsync_keyword_alone `{Collaborators} (w : World) :
  handleCanonicalCommandsAsync (U "キーワード") w = Returned true w.
Proof.
  unfold handleCanonicalCommandsAsync, route. rewrite routeLoop_spec.
  unfold patterns.
  do 6 (rewrite matchesOf_cons_none by (vm_compute; reflexivity)).
  rewrite (matchesOf_cons_some _ {| m0 := U "キーワード"; index := 0; groups := [] |})
    by (vm_compute; reflexivity).
  replace (lastEntryMatched _ (U "キーワード")) with true by (vm_compute; reflexivity).
  cbn [matchesOf flat_map runHandlers for_of fst snd f].
  unfold handleUserKeywordCommandAsync. cbv zeta.
  replace (determineUserKeywordCommandHandler _) with (@None text)
    by (vm_compute; reflexivity).
  replace (inTemplate None) with false by (vm_compute; reflexivity).
  reflexivity.
Qed.

(** C9.  The body [キーワード] alone matches the keyword pattern with no
    group bound; [determineUserKeywordCommandHandler] answers [null], which
    is no key of the template, so the handler does nothing and the router,
    whose last entry matched, answers [true].  A message of another user
    with that body is recorded and broadcast and nothing else: no text is
    sent, and the keyword engine is not called, whatever keywords are
    registered. *)
Theorem keyword_alone_gets_no_reply (C : Collaborators) (w : World) :
  let body := U "キーワード" in
  let matched := {| m0 := body; index := 0; groups := [] |} in
  re_match UserKeywordRE body = Some matched /\
  field "command" matched = None /\
  field "name" matched = None /\
  determineUserKeywordCommandHandler matched = None /\
  inTemplate (determineUserKeywordCommandHandler matched) = false /\
  handleUserKeywordCommandAsync matched w = Returned tt w /\
  handleCanonicalCommandsAsync body w = Returned true w /\
  (forall line : Match,
     selfAuthored line = false -> field "msg" line = Some body ->
     acceptMatched handleCanonicalCommandsAsync testUserKeywordsAsync line w
     = Returned tt (recorded line w)
     /\ acceptMatched handleCanonicalCommandsAsync noKeywords line w
        = Returned tt (recorded line w)
     /\ sent (recorded line w) = sent w) /\
  (let line := framed "キーワード" "11/15 (水)" "07:13:20" "h*.example.jp" in
   extractRecords 70 (chunkOf keywordAlone) = [line] /\
   selfAuthored line = false /\
   acceptKoukoku 70 (chunkOf keywordAlone) w = Returned tt (recorded line w)).
Proof.
  intros body matched.
  assert (forall line : Match,
     selfAuthored line = false -> field "msg" line = Some body ->
     forall keywords,
     acceptMatched handleCanonicalCommandsAsync keywords line w
     = Returned tt (recorded line w)) as Hline.
  { intros line Hself Hmsg keywords.
    rewrite acceptMatched_steps, Hself, Hmsg. cbn [show].
    unfold body. now rewrite handleCanonicalCommandsAsync_keyword_alone. }
  split; [vm_compute; reflexivity|].
  split; [reflexivity|]. split; [reflexivity|].
  split; [vm_compute; reflexivity|]. split; [vm_compute; reflexivity|].
  split.
  { unfold handleUserKeywordCommandAsync. cbv zeta.
    replace (determineUserKeywordCommandHandler matched) with (@None text)
      by (vm_compute; reflexivity).
    replace (inTemplate None) with false by (vm_compute; reflexivity).
    reflexivity. }
  split; [apply handleCanonicalCommandsAsync_keyword_alone|].
  split.
  - intros line Hself Hmsg. split; [now apply Hline|]. split; [now apply Hline|].
    reflexivity.
  - intros line.
    assert (extractRecords 70 (chunkOf keywordAlone) = [line]) as Hx
      by (vm_compute; reflexivity).
    split; [exact Hx|]. split; [reflexivity|].
    unfold acceptKoukoku. rewrite Hx. cbn [for_of]. unfold bind.
    rewrite Hline; [reflexivity|reflexivity|vm_compute; reflexivity].
Qed.

(** ** Failures inside handlers *)

(** The calculator catches what its validation or its evaluation throws
    and answers with the message. *)
Lemma calculateAsync_always_returns `{Collaborators} (matched : Match) (w : World) :
  exists reply,
    calculateAsync matched w = Returned tt (with_sent (sent w ++ [reply]) w).
Proof.
  unfold calculateAsync, try_catch, throw, sendAsync, modify.
  destruct (validateParentheses _) as [err|[]].
  - eexists. reflexivity.
  - destruct (evaluate _) as [err|value]; eexists; reflexivity.
Qed.

(** The tally has no such guard: what [tally] throws leaves [tallyAsync]
    and the handler of the tally command as it is. *)
Lemma tallyAsync_rethrows `{Collaborators} (matched : Match) (w : World) (err : Error) :
  tally (now w) (recent_list (recent w)) = inl err ->
  tallyAsync matched w = Thrown err w.
Proof.
  intros H0. unfold tallyAsync, bind, get. now rewrite H0.
Qed.

(** A handler that rejects ends the loop of the router: the entries
    behind it are not tried. *)
Lemma routeLoop_rejects (a : Pattern) (table : list Pattern) (t : text)
  (placeholder : bool) (m : Match) (err : Error) (w w' : World) :
  re_match (e a) t = Some m -> f a m w = Thrown err w' ->
  routeLoop (a :: table) t placeholder w = Thrown err w'.
Proof.
  intros Hm Hf. cbn [routeLoop]. rewrite Hm. unfold bind. now rewrite Hf.
Qed.

Lemma routeLoop_skips (a : Pattern) (table : list Pattern) (t : text)
  (placeholder : bool) (w : World) :
  re_match (e a) t = None ->
  routeLoop (a :: table) t placeholder w = routeLoop table t false w.
Proof.
  intros Hm. cbn [routeLoop]. now rewrite Hm.
Qed.

(** C4.  [calculateAsync] wraps its work in [try]/[catch] and turns a
    failure into a reply; [tallyAsync] does not.  On a bot that has just
    started, a chunk with the tally command and then a chat line: the
    command is recorded, its week is the only one, [tally] throws, the
    router rejects without trying the entries behind the tally, nothing
    is sent, and [acceptKoukoku] rejects before the chat line is recorded
    or tested for keywords.  The calculator, given a faulty expression,
    answers with the error and the router returns. *)
Theorem tally_failure_leaves_the_router :
  let C := sampleCollaborators in
  let first := framed "集計" "11/15 (水)" "07:13:20" "h*.example.jp" in
  let second := framed "hello foo" "11/15 (水)" "07:13:21" "g*.example.jp" in
  let seen := recorded first sampleWorld in
  extractRecords 70 (chunkOf tallyThenChat)
  = [first; {| m0 := m0 second; index := length (m0 first); groups := groups second |}] /\
  handleCanonicalCommandsAsync (U "集計") seen = Thrown undefinedSize seen /\
  acceptKoukoku 70 (chunkOf tallyThenChat) sampleWorld = Thrown undefinedSize seen /\
  sent seen = [] /\
  map message_log (recent_list (recent seen)) = [m0 first] /\
  map message_log (stream seen) = [m0 first] /\
  (exists w',
     handleCanonicalCommandsAsync (U "計算 1+2)") sampleWorld = Returned false w' /\
     sent w' = [U "[Bot] 計算エラー, -1個の閉じ括弧が不足しています"]).
Proof.
  intros C first second seen.
  assert (handleCanonicalCommandsAsync (U "集計") seen = Thrown undefinedSize seen) as Hr.
  { unfold handleCanonicalCommandsAsync, route, patterns.
    do 4 (rewrite routeLoop_skips by (vm_compute; reflexivity)).
    rewrite (routeLoop_rejects _ _ _ _ {| m0 := U "集計"; index := 0; groups := [] |}
               undefinedSize seen seen); [reflexivity|vm_compute; reflexivity|].
    cbn [f]. unfold handleTallyCommandAsync.
    replace (field "command" _) with (@None text) by reflexivity.
    apply tallyAsync_rethrows. vm_compute. reflexivity. }
  split; [vm_compute; reflexivity|].
  split; [exact Hr|].
  split.
  { unfold acceptKoukoku.
    replace (extractRecords 70 (chunkOf tallyThenChat))
      with [first; {| m0 := m0 second; index := length (m0 first); groups := groups second |}]
      by (vm_compute; reflexivity).
    cbn [for_of]. unfold bind at 1.
    rewrite acceptMatched_steps.
    replace (selfAuthored first) with false by reflexivity.
    replace (show (field "msg" first)) with (U "集計") by (vm_compute; reflexivity).
    fold seen. fold C. rewrite Hr. reflexivity. }
  split; [vm_compute; reflexivity|].
  split; [vm_compute; reflexivity|].
  split; [vm_compute; reflexivity|].
  eexists. split.
  - unfold handleCanonicalCommandsAsync, route. rewrite routeLoop_spec.
    unfold patterns.
    rewrite (matchesOf_cons_some _
               {| m0 := U "計算 1+2)"; index := 0;
                  groups := [("expr"%string, U "1+2)")] |})
      by (vm_compute; reflexivity).
    do 6 (rewrite matchesOf_cons_none by (vm_compute; reflexivity)).
    replace (lastEntryMatched _ (U "計算 1+2)")) with false
      by (vm_compute; reflexivity).
    cbn [matchesOf flat_map runHandlers for_of fst snd f].
    unfold bind, calculateAsync, try_catch, ret.
    replace (validateParentheses _)
      with (@inl Error unit (newError (U "-1個の閉じ括弧が不足しています")))
      by (vm_compute; reflexivity).
    unfold throw, sendAsync, modify. reflexivity.
  - vm_compute. reflexivity.
Qed.


(** ** The matcher *)

Lemma group_get_app (n : string) (g h : Groups) :
  group_get n (g ++ h) =
  match group_get n g with Some v => Some v | None => group_get n h end.
Proof.
  induction g as [|[n' v] g IH]; simpl; [reflexivity|].
  destruct (String.eqb n n'); [reflexivity|exact IH].
Qed.

Lemma group_get_unset_same (n : string) (g : Groups) :
  group_get n (group_unset n g) = None.
Proof.
  induction g as [|[n' v] g IH]; simpl; [reflexivity|].
  destruct (String.eqb n n') eqn:E; [exact IH|]. simpl. now rewrite E.
Qed.

Lemma group_get_unset_other (n n' : string) (g : Groups) :
  n <> n' -> group_get n (group_unset n' g) = group_get n g.
Proof.
  intros Hne. induction g as [|[n0 v] g IH]; simpl; [reflexivity|].
  destruct (String.eqb n' n0) eqn:E.
  - apply String.eqb_eq in E. subst n0.
    apply String.eqb_neq in Hne. now rewrite Hne.
  - simpl. now rewrite IH.
Qed.

Lemma group_get_set_same (n : string) (v : text) (g : Groups) :
  group_get n (group_set n v g) = Some v.
Proof.
  unfold group_set. rewrite group_get_app, group_get_unset_same. simpl.
  now rewrite String.eqb_refl.
Qed.

Lemma group_get_set_other (n n' : string) (v : text) (g : Groups) :
  n <> n' -> group_get n (group_set n' v g) = group_get n g.
Proof.
  intros Hne. unfold group_set.
  rewrite group_get_app, group_get_unset_other by assumption.
  destruct (group_get n g); [reflexivity|]. simpl.
  apply String.eqb_neq in Hne. now rewrite Hne.
Qed.

Lemma mem_in (n : string) (l : list string) : mem n l = true <-> In n l.
Proof.
  unfold mem. rewrite existsb_exists. split.
  - intros (x & Hx & E). apply String.eqb_eq in E. now subst.
  - intros H. exists n. split; [assumption|apply String.eqb_refl].
Qed.

Lemma bound_clear (n : string) (names : list string) (s : mstate) :
  bound n s -> ~ In n names -> bound n (clear names s).
Proof.
  unfold bound, clear. simpl. intros Hb Hn.
  induction names as [|n' names IH]; simpl; [exact Hb|].
  rewrite group_get_unset_other.
  - apply IH. intros H. apply Hn. now right.
  - intros ->. apply Hn. now left.
Qed.

Lemma reaches_refl (s : mstate) : reaches s s.
Proof.
  exists []. simpl. split; [reflexivity|lia].
Qed.

Lemma reaches_trans (a b c : mstate) : reaches a b -> reaches b c -> reaches a c.
Proof.
  intros (x & H1 & H2) (y & H3 & H4). exists (x ++ y).
  rewrite H1, H3, <- app_assoc, length_app. split; [reflexivity|lia].
Qed.

Lemma must_keeps (r : regex) (B : list string) (n : string) :
  In n B -> ~ In n (names_of r) -> In n (must r B).
Proof.
  revert B; induction r as [| |a IHa b IHb|a IHa b IHb|min max a IHa|[n'|] a IHa| |];
    intros B Hin Hn; simpl in *; try assumption.
  - apply IHb; [apply IHa; [assumption|]|]; intros H; apply Hn, in_or_app; auto.
  - apply filter_In. split.
    + apply IHa; [assumption|]. intros H; apply Hn, in_or_app; auto.
    + apply mem_in. apply IHb; [assumption|]. intros H; apply Hn, in_or_app; auto.
  - apply filter_In. split; [assumption|].
    destruct (mem n (names_of a)) eqn:E; [|reflexivity].
    apply mem_in in E. contradiction.
  - right. apply IHa; [assumption|]. intros H. apply Hn. now right.
  - now apply IHa.
Qed.

Lemma rounds_post (a : regex) (B : list string)
  (IHa : forall s k res B,
      (forall n, In n B -> bound n s) -> run a s k = Some res ->
      exists s', post a B s s' /\ k s' = Some res)
  (fuel min : nat) (max : option nat) (s : mstate)
  (k : mstate -> option mstate) (res : mstate) :
  (forall n, In n B -> bound n s) ->
  rounds (run a) (names_of a) fuel min max s k = Some res ->
  exists s', post (Quant min max a) B s s' /\ k s' = Some res.
Proof.
  set (B' := filter (fun n => negb (mem n (names_of a))) B).
  assert (forall s0, (forall n, In n B -> bound n s0) ->
                     forall n, In n B' -> bound n s0) as Hsub.
  { intros s0 H0 n Hn. apply filter_In in Hn as [Hn _]. now apply H0. }
  assert (forall s0 s1, (forall n, In n B' -> bound n s0) ->
            post a B' (clear (names_of a) s0) s1 ->
            reaches s0 s1 /\ forall n, In n B' -> bound n s1) as Hstep.
  { intros s0 s1 H0 [Hreach Hb]. split; [exact Hreach|].
    intros n Hn. apply Hb. apply must_keeps; [assumption|].
    apply filter_In in Hn as [_ Hn]. intros Hin. apply mem_in in Hin.
    now rewrite Hin in Hn. }
  assert (forall s0, (forall n, In n B' -> bound n s0) ->
            forall n, In n B' -> bound n (clear (names_of a) s0)) as Hclear.
  { intros s0 H0 n Hn. apply bound_clear; [now apply H0|].
    apply filter_In in Hn as [_ Hn]. intros Hin. apply mem_in in Hin.
    now rewrite Hin in Hn. }
  intros HB0. pose proof (Hsub s HB0) as HB. clear Hsub HB0.
  revert min max s HB.
  induction fuel as [|fuel IH]; intros min max s HB Hrun; [discriminate|].
  assert (k s = Some res ->
          exists s', post (Quant min max a) B s s' /\ k s' = Some res) as Hstop.
  { intros Hk. exists s. split; [|exact Hk]. split; [apply reaches_refl|exact HB]. }
  assert (forall x, run a (clear (names_of a) s)
            (fun s' => if (min =? 0)%nat && (pos s' =? pos s)%nat then None
                       else rounds (run a) (names_of a) fuel (Nat.pred min)
                              (pred_max max) s' k) = Some x -> x = res ->
          exists s', post (Quant min max a) B s s' /\ k s' = Some res) as Hmore.
  { intros x Hx ->.
    apply (IHa _ _ _ B') in Hx as (s1 & Hpost & Hk1); [|now apply Hclear].
    destruct (Hstep s s1 HB Hpost) as [Hreach Hb1].
    destruct ((min =? 0)%nat && (pos s1 =? pos s)%nat); [discriminate|].
    apply IH in Hk1 as (s' & [Hreach' Hb'] & Hk'); [|exact Hb1].
    exists s'. split; [|exact Hk']. split; [|exact Hb'].
    eapply reaches_trans; eassumption. }
  cbn [rounds] in Hrun.
  destruct max as [[|max]|].
  - now apply Hstop.
  - destruct min as [|min].
    + destruct (run a (clear (names_of a) s) _) as [x|] eqn:Hx.
      * injection Hrun as ->. now apply (Hmore res).
      * now apply Hstop.
    + now apply (Hmore res).
  - destruct min as [|min].
    + destruct (run a (clear (names_of a) s) _) as [x|] eqn:Hx.
      * injection Hrun as ->. now apply (Hmore res).
      * now apply Hstop.
    + now apply (Hmore res).
Qed.

Lemma run_post (r : regex) :
  forall s k res B,
    (forall n, In n B -> bound n s) -> run r s k = Some res ->
    exists s', post r B s s' /\ k s' = Some res.
Proof.
  induction r as [| cs |a IHa b IHb|a IHa b IHb|min max a IHa|name a IHa| |];
    intros s k res B HB Hrun.
  - exists s. split; [|exact Hrun]. split; [apply reaches_refl|exact HB].
  - simpl in Hrun. destruct (rest s) as [|c t] eqn:Hrest; [discriminate|].
    destruct (cs c); [|discriminate].
    exists (advance s t). split; [|exact Hrun]. split; [|exact HB].
    exists [c]. simpl. split; [exact Hrest|lia].
  - simpl in Hrun.
    apply (IHa _ _ _ B HB) in Hrun as (s1 & [Hr1 Hb1] & Hrun).
    apply (IHb _ _ _ (must a B) Hb1) in Hrun as (s' & [Hr2 Hb2] & Hk).
    exists s'. split; [|exact Hk]. split; [|exact Hb2].
    eapply reaches_trans; eassumption.
  - simpl in Hrun. destruct (run a s k) as [x|] eqn:Ha.
    + injection Hrun as ->.
      apply (IHa _ _ _ B HB) in Ha as (s' & [Hr Hb] & Hk).
      exists s'. split; [|exact Hk]. split; [exact Hr|].
      intros n Hn. simpl in Hn. apply filter_In in Hn as [Hn _]. now apply Hb.
    + apply (IHb _ _ _ B HB) in Hrun as (s' & [Hr Hb] & Hk).
      exists s'. split; [|exact Hk]. split; [exact Hr|].
      intros n Hn. simpl in Hn. apply filter_In in Hn as [_ Hn].
      apply mem_in in Hn. now apply Hb.
  - cbn [run] in Hrun. exact (rounds_post a B IHa _ _ _ _ _ _ HB Hrun).
  - simpl in Hrun.
    apply (IHa _ _ _ B HB) in Hrun as (s1 & [Hr1 Hb1] & Hk).
    destruct name as [n|].
    + eexists. split; [|exact Hk]. split.
      * destruct Hr1 as (x & H1 & H2). exists x. simpl. now split.
      * intros n' Hn'. unfold bound. simpl caps.
        destruct (String.eqb_spec n' n) as [->|Hne].
        -- rewrite group_get_set_same. discriminate.
        -- rewrite group_get_set_other by assumption.
           destruct Hn' as [->|Hn']; [contradiction|]. now apply Hb1.
    + exists s1. split; [|exact Hk]. now split.
  - simpl in Hrun. destruct (pos s =? 0)%nat; [|discriminate].
    exists s. split; [|exact Hrun]. split; [apply reaches_refl|exact HB].
  - simpl in Hrun. destruct (rest s) eqn:Hrest; [|discriminate].
    exists s. split; [|exact Hrun]. split; [apply reaches_refl|exact HB].
Qed.

(** ** [exec] and [matchAll] *)

Lemma run_consumes (r : regex) (s res : mstate) :
  run r s Some = Some res ->
  exists consumed,
    rest s = consumed ++ rest res /\ pos res = (pos s + length consumed)%nat /\
    forall n, In n (must r []) -> bound n res.
Proof.
  intros Hrun.
  apply (run_post r s Some res []) in Hrun as (s' & [Hreach Hb] & [= ->]);
    [|intros n []].
  destruct Hreach as (consumed & H1 & H2). now exists consumed.
Qed.

Lemma occursIn_bounds (r : regex) (t : text) (m : Match) :
  occursIn r t m ->
  (match_end m <= length t)%nat /\
  m0 m = firstn (length (m0 m)) (skipn (index m) t) /\
  matchesAt r t (index m).
Proof.
  intros (Hi & s' & Hrun & Hsplit & _). split; [|split].
  - unfold match_end.
    assert (length (skipn (index m) t) = length (m0 m ++ rest s')) as E
      by now rewrite Hsplit.
    rewrite length_skipn, length_app in E. lia.
  - rewrite Hsplit, firstn_app, Nat.sub_diag, firstn_all. simpl.
    now rewrite app_nil_r.
  - unfold matchesAt. now rewrite Hrun.
Qed.

(** [exec] finds the leftmost index, from the one it starts at, where the
    pattern matches. *)
Lemma exec_spec (r : regex) (t : text) (n i : nat) :
  (i + n = length t)%nat ->
  match exec r i (skipn i t) with
  | Some m =>
      (i <= index m)%nat /\ occursIn r t m /\
      forall j, (i <= j < index m)%nat -> ~ matchesAt r t j
  | None => forall j, (i <= j <= length t)%nat -> ~ matchesAt r t j
  end.
Proof.
  revert i; induction n as [|n IH]; intros i Hlen.
  - assert (skipn i t = []) as E by (apply skipn_all2; lia).
    rewrite E. cbn [exec].
    destruct (run r {| pos := i; rest := []; caps := [] |} Some) as [res|] eqn:Hrun.
    + cbn [index]. split; [lia|]. split; [|intros j Hj; lia].
      split; [cbn [index]; lia|]. exists res. cbn [index m0 groups].
      rewrite E. split; [exact Hrun|]. split; [|reflexivity].
      apply run_consumes in Hrun as (consumed & H1 & H2 & _).
      cbn [pos rest] in *. rewrite H2.
      symmetry in H1. apply app_eq_nil in H1 as [-> Hr].
      now rewrite Hr, firstn_nil.
    + intros j Hj. assert (j = i) as -> by lia.
      unfold matchesAt. rewrite E, Hrun. intros H; now apply H.
  - destruct (skipn i t) as [|c rest0] eqn:E.
    + apply (f_equal (@length char)) in E. rewrite length_skipn in E.
      simpl in E. lia.
    + assert (rest0 = skipn (S i) t) as Erest.
      { replace (S i) with (1 + i)%nat by lia.
        rewrite <- skipn_skipn, E. reflexivity. }
      cbn [exec].
      destruct (run r {| pos := i; rest := c :: rest0; caps := [] |} Some)
        as [res|] eqn:Hrun.
      * cbn [index]. split; [lia|]. split; [|intros j Hj; lia].
        split; [cbn [index]; lia|]. exists res. cbn [index m0 groups].
        rewrite E. split; [exact Hrun|]. split; [|reflexivity].
        apply run_consumes in Hrun as (consumed & H1 & H2 & _).
        cbn [pos rest] in *. rewrite H2.
        replace (i + length consumed - i)%nat with (length consumed) by lia.
        rewrite H1, firstn_app, Nat.sub_diag, firstn_all.
        simpl. now rewrite app_nil_r.
      * rewrite Erest. specialize (IH (S i) ltac:(lia)).
        destruct (exec r (S i) (skipn (S i) t)) as [m|].
        -- destruct IH as (H1 & H2 & H3). split; [lia|]. split; [exact H2|].
           intros j Hj. destruct (Nat.eq_dec j i) as [->|Hne].
           ++ unfold matchesAt. rewrite E, Hrun. intros H; now apply H.
           ++ apply H3. lia.
        -- intros j Hj. destruct (Nat.eq_dec j i) as [->|Hne].
           ++ unfold matchesAt. rewrite E, Hrun. intros H; now apply H.
           ++ apply IH. lia.
Qed.

Lemma covered_cons (m : Match) (ms : list Match) (j : nat) :
  covered ms j -> covered (m :: ms) j.
Proof.
  intros (m' & Hin & H). exists m'. split; [now right|exact H].
Qed.

(** [matchAll] yields occurrences of the pattern, left to right without
    overlap, and leaves no index where the pattern matches uncovered. *)
Lemma matchAll_from_spec (r : regex) (t : text) (fuel i : nat) :
  (i <= length t)%nat -> (length t - i < fuel)%nat ->
  let ms := matchAll_from fuel r i (skipn i t) in
  Forall (fun m => (i <= index m)%nat /\ occursIn r t m) ms /\
  inDocumentOrder ms /\
  (forall j, (i <= j <= length t)%nat -> matchesAt r t j -> covered ms j).
Proof.
  revert i; induction fuel as [|fuel IH]; intros i Hi Hfuel; [lia|].
  cbn [matchAll_from].
  pose proof (exec_spec r t (length t - i) i ltac:(lia)) as Hexec.
  destruct (exec r i (skipn i t)) as [m|].
  - destruct Hexec as (Him & Hocc & Hleft).
    destruct (occursIn_bounds r t m Hocc) as (Hend & _ & _).
    set (next := if (length (m0 m) =? 0)%nat then S (match_end m) else match_end m).
    assert (index m < next /\ match_end m <= next
            /\ (next = match_end m \/ (next = S (match_end m) /\ match_end m = index m)))%nat
      as (Hn1 & Hn2 & Hn3).
    { unfold next, match_end.
      destruct (length (m0 m) =? 0)%nat eqn:E.
      - apply Nat.eqb_eq in E. lia.
      - apply Nat.eqb_neq in E. lia. }
    rewrite length_skipn. replace (i + (length t - i))%nat with (length t) by lia.
    assert (forall tail,
      Forall (fun m' => (next <= index m')%nat /\ occursIn r t m') tail ->
      inDocumentOrder tail ->
      (forall j, (next <= j <= length t)%nat -> matchesAt r t j -> covered tail j) ->
      Forall (fun m' => (i <= index m')%nat /\ occursIn r t m') (m :: tail) /\
      inDocumentOrder (m :: tail) /\
      (forall j, (i <= j <= length t)%nat -> matchesAt r t j -> covered (m :: tail) j))
      as Hcons.
    { intros tail Hall Hord Hcov. split; [|split].
      - constructor; [now split|].
        eapply Forall_impl; [|exact Hall]. simpl. intros m' [H1 H2]. split; [lia|exact H2].
      - constructor; [exact Hord|].
        eapply Forall_impl; [|exact Hall]. simpl. intros m' [H1 _]. lia.
      - intros j Hj Hmatch.
        destruct (Nat.lt_ge_cases j (index m)) as [Hlt|Hge].
        { exfalso. apply (Hleft j); [lia|exact Hmatch]. }
        destruct (Nat.lt_ge_cases j (match_end m)) as [Hin|Hout].
        { exists m. split; [now left|]. split; [exact Hge|now left]. }
        destruct (Nat.eq_dec j (index m)) as [->|Hne].
        { exists m. split; [now left|]. split; [lia|now right]. }
        apply covered_cons. apply Hcov; [lia|exact Hmatch]. }
    destruct (next <=? length t)%nat eqn:Hle.
    + apply Nat.leb_le in Hle.
      rewrite skipn_skipn. replace (next - i + i)%nat with next by lia.
      destruct (IH next Hle ltac:(lia)) as (Hall & Hord & Hcov).
      now apply Hcons.
    + apply Nat.leb_gt in Hle. apply Hcons.
      * constructor.
      * constructor.
      * intros j Hj. lia.
  - split; [constructor|]. split; [constructor|].
    intros j Hj Hmatch. exfalso. now apply (Hexec j).
Qed.

Lemma matchAll_spec (r : regex) (t : text) :
  Forall (occursIn r t) (matchAll r t) /\
  inDocumentOrder (matchAll r t) /\
  (forall j, (j <= length t)%nat -> matchesAt r t j -> covered (matchAll r t) j).
Proof.
  destruct (matchAll_from_spec r t (S (S (length t))) 0 ltac:(lia) ltac:(lia))
    as (Hall & Hord & Hcov).
  cbn [skipn] in *. fold (matchAll r t) in *.
  split; [|split].
  - eapply Forall_impl; [|exact Hall]. now intros m [_ H].
  - exact Hord.
  - intros j Hj. apply Hcov. lia.
Qed.

(** A framed message carries its message, date, time and host. *)
Lemma MessageRE_fields (t : text) (m : Match) :
  occursIn MessageRE t m ->
  field "msg" m <> None /\ field "date" m <> None /\
  field "time" m <> None /\ field "host" m <> None.
Proof.
  intros (_ & s' & Hrun & _ & Hg).
  apply run_consumes in Hrun as (_ & _ & _ & Hb).
  assert (forall n, In n ["msg"; "date"; "time"; "host"]%string ->
                    group_get n (groups m) <> None) as H.
  { intros n Hn. rewrite Hg. apply Hb.
    assert (must MessageRE [] = ["host"; "time"; "date"; "msg"]%string) as ->
      by (vm_compute; reflexivity).
    simpl in *. tauto. }
  unfold field. repeat split; apply H; simpl; tauto.
Qed.

(** ** The fuel of the matcher is enough *)

(** The matcher calls its continuation on later states of the input
    only. *)
Lemma rounds_ext (a : regex)
  (IHa : forall s k k', (forall s', reaches s s' -> k s' = k' s') ->
                        run a s k = run a s k')
  (fuel min : nat) (max : option nat) (s : mstate) (k k' : mstate -> option mstate) :
  (forall s', reaches s s' -> k s' = k' s') ->
  rounds (run a) (names_of a) fuel min max s k
  = rounds (run a) (names_of a) fuel min max s k'.
Proof.
  revert min max s; induction fuel as [|fuel IH]; intros min max s Hk; [reflexivity|].
  cbn [rounds].
  assert (run a (clear (names_of a) s)
            (fun s' => if (min =? 0)%nat && (pos s' =? pos s)%nat then None
                       else rounds (run a) (names_of a) fuel (Nat.pred min)
                              (pred_max max) s' k)
          = run a (clear (names_of a) s)
              (fun s' => if (min =? 0)%nat && (pos s' =? pos s)%nat then None
                         else rounds (run a) (names_of a) fuel (Nat.pred min)
                                (pred_max max) s' k')) as E.
  { apply IHa. intros s1 Hs1.
    destruct ((min =? 0)%nat && (pos s1 =? pos s)%nat); [reflexivity|].
    apply IH. intros s' Hs'. apply Hk.
    eapply reaches_trans; [exact Hs1|exact Hs']. }
  rewrite E, (Hk s (reaches_refl s)). reflexivity.
Qed.

Lemma run_ext (r : regex) :
  forall s k k', (forall s', reaches s s' -> k s' = k' s') -> run r s k = run r s k'.
Proof.
  induction r as [| cs |a IHa b IHb|a IHa b IHb|min max a IHa|name a IHa| |];
    intros s k k' Hk; cbn [run].
  - apply Hk, reaches_refl.
  - destruct (rest s) as [|c t] eqn:Hrest; [reflexivity|].
    destruct (cs c); [|reflexivity]. apply Hk.
    exists [c]. simpl. split; [exact Hrest|lia].
  - apply IHa. intros s1 Hs1. apply IHb. intros s' Hs'. apply Hk.
    eapply reaches_trans; eassumption.
  - now rewrite (IHa s k k' Hk), (IHb s k k' Hk).
  - now apply rounds_ext.
  - apply IHa. intros s1 (x & H1 & H2).
    destruct name as [n|]; apply Hk; exists x; simpl; now split.
  - destruct (pos s =? 0)%nat; [apply Hk, reaches_refl|reflexivity].
  - destruct (rest s); [apply Hk, reaches_refl|reflexivity].
Qed.

(** A quantifier needs no more rounds than [min] plus the input left:
    any fuel beyond that gives the same result. *)
Lemma rounds_fuel (a : regex) (names : list string) (fuel1 : nat) :
  forall fuel2 min max s k,
    (min + length (rest s) < fuel1)%nat -> (min + length (rest s) < fuel2)%nat ->
    rounds (run a) names fuel1 min max s k = rounds (run a) names fuel2 min max s k.
Proof.
  induction fuel1 as [|fuel1 IH]; intros fuel2 min max s k H1 H2; [lia|].
  destruct fuel2 as [|fuel2]; [lia|]. cbn [rounds].
  assert (run a (clear names s)
            (fun s' => if (min =? 0)%nat && (pos s' =? pos s)%nat then None
                       else rounds (run a) names fuel1 (Nat.pred min)
                              (pred_max max) s' k)
          = run a (clear names s)
              (fun s' => if (min =? 0)%nat && (pos s' =? pos s)%nat then None
                         else rounds (run a) names fuel2 (Nat.pred min)
                                (pred_max max) s' k)) as E.
  { apply run_ext. intros s1 (x & Hx1 & Hx2). cbn [clear pos rest] in Hx1, Hx2.
    destruct ((min =? 0)%nat && (pos s1 =? pos s)%nat) eqn:Hc; [reflexivity|].
    assert (length (rest s) = length x + length (rest s1))%nat as Hlen
      by (rewrite Hx1; apply length_app).
    apply andb_false_iff in Hc.
    apply IH.
    - destruct Hc as [Hc|Hc].
      + apply Nat.eqb_neq in Hc. lia.
      + apply Nat.eqb_neq in Hc. lia.
    - destruct Hc as [Hc|Hc].
      + apply Nat.eqb_neq in Hc. lia.
      + apply Nat.eqb_neq in Hc. lia. }
  now rewrite E.
Qed.

Lemma run_Quant_fuel (min : nat) (max : option nat) (a : regex) (s : mstate)
  (k : mstate -> option mstate) (fuel : nat) :
  (min + length (rest s) < fuel)%nat ->
  run (Quant min max a) s k = rounds (run a) (names_of a) fuel min max s k.
Proof.
  intros H. cbn [run]. apply rounds_fuel; lia.
Qed.

(** [matchAll] needs no more searches than the text has indices. *)
Lemma matchAll_from_fuel (r : regex) (t : text) (fuel1 : nat) :
  forall fuel2 i,
    (i <= length t)%nat -> (length t - i < fuel1)%nat -> (length t - i < fuel2)%nat ->
    matchAll_from fuel1 r i (skipn i t) = matchAll_from fuel2 r i (skipn i t).
Proof.
  induction fuel1 as [|fuel1 IH]; intros fuel2 i Hi H1 H2; [lia|].
  destruct fuel2 as [|fuel2]; [lia|]. cbn [matchAll_from].
  pose proof (exec_spec r t (length t - i) i ltac:(lia)) as Hexec.
  destruct (exec r i (skipn i t)) as [m|]; [|reflexivity].
  destruct Hexec as (Him & _ & _). f_equal.
  rewrite length_skipn. replace (i + (length t - i))%nat with (length t) by lia.
  set (next := if (length (m0 m) =? 0)%nat then S (match_end m) else match_end m).
  assert (i < next)%nat as Hnext.
  { unfold next, match_end. destruct (length (m0 m) =? 0)%nat eqn:E.
    - lia.
    - apply Nat.eqb_neq in E. lia. }
  destruct (next <=? length t)%nat eqn:Hle; [|reflexivity].
  apply Nat.leb_le in Hle.
  rewrite skipn_skipn. replace (next - i + i)%nat with next by lia.
  apply IH; lia.
Qed.

(** ** Line breaks *)

Lemma LineBreakRE_consumes (s s' : mstate) :
  run LineBreakRE s Some = Some s' -> (pos s < pos s')%nat.
Proof.
  destruct s as [p r c]. destruct r as [|c1 tl]; cbn; [discriminate|].
  unfold lit.
  destruct (c1 =? 13); [destruct (match p with O => false | S m' => (p =? m')%nat end);
                        [|destruct tl as [|c0 t]; [|destruct (c0 =? 10)]]|];
    destruct (c1 =? 10); intros [= <-]; cbn; lia.
Qed.

Lemma LineBreakRE_at_line_feed (p : nat) (tl : text) :
  run LineBreakRE {| pos := p; rest := 10 :: tl; caps := [] |} Some <> None.
Proof.
  cbn. discriminate.
Qed.

Lemma nth_error_skipn_cons {A} (l : list A) (j : nat) (x : A) :
  nth_error l j = Some x -> skipn j l = x :: skipn (S j) l.
Proof.
  revert j; induction l as [|y l IH]; intros [|j]; simpl; try discriminate.
  - now intros [= ->].
  - apply IH.
Qed.

Lemma in_skipn_nth_error {A} (l : list A) (i : nat) (x : A) :
  In x (skipn i l) -> exists j, (i <= j)%nat /\ nth_error l j = Some x.
Proof.
  intros Hin. apply In_nth_error in Hin as [k Hk].
  exists (i + k)%nat. split; [lia|].
  rewrite <- Hk. clear Hk. revert l; induction i as [|i IH]; intros l; [reflexivity|].
  destruct l as [|y l]; simpl; [now destruct k|]. apply IH.
Qed.

Lemma in_firstn_skipn_nth_error {A} (l : list A) (i n : nat) (x : A) :
  In x (firstn n (skipn i l)) ->
  exists j, (i <= j < i + n)%nat /\ nth_error l j = Some x.
Proof.
  intros Hin. apply In_nth_error in Hin as [k Hk].
  assert (k < n)%nat as Hlt.
  { destruct (Nat.lt_ge_cases k n) as [H|H]; [exact H|].
    assert (nth_error (firstn n (skipn i l)) k = None) as E.
    { apply nth_error_None. rewrite length_firstn. lia. }
    congruence. }
  rewrite nth_error_firstn in Hk.
  destruct (k <? n)%nat eqn:E; [|discriminate].
  destruct (in_skipn_nth_error l i x) as (j & Hj1 & Hj2).
  { eapply nth_error_In; eassumption. }
  exists (i + k)%nat. split; [lia|].
  rewrite <- Hk. clear. revert l; induction i as [|i IH]; intros l; [reflexivity|].
  destruct l as [|y l]; simpl; [now destruct k|]. apply IH.
Qed.

(** What [replaceAll] with an empty replacement keeps: the characters no
    match runs over. *)
Lemma splice_matches_keeps (t : text) (ms : list Match) :
  forall i, (i <= length t)%nat ->
    Forall (fun m => (i <= index m)%nat /\ (match_end m <= length t)%nat) ms ->
    inDocumentOrder ms ->
    forall c, In c (splice_matches ms i (skipn i t) []) ->
    exists j, (i <= j)%nat /\ nth_error t j = Some c /\
              forall m, In m ms -> ~ (index m <= j < match_end m)%nat.
Proof.
  induction ms as [|m ms IH]; intros i Hi Hall Hord c Hin.
  - cbn [splice_matches] in Hin.
    apply in_skipn_nth_error in Hin as (j & Hj1 & Hj2).
    exists j. repeat split; try assumption. intros m [].
  - cbn [splice_matches] in Hin. cbn [app] in Hin.
    apply Forall_cons_iff in Hall as [[Hm1 Hm2] Hall].
    apply StronglySorted_inv in Hord as [Hord Hfirst].
    apply in_app_or in Hin as [Hin|Hin].
    + apply in_firstn_skipn_nth_error in Hin as (j & Hj1 & Hj2).
      exists j. split; [lia|]. split; [exact Hj2|].
      intros m' [<-|Hm']; [lia|].
      pose proof (proj1 (Forall_forall _ _) Hfirst m' Hm') as [_ H]. lia.
    + rewrite skipn_skipn in Hin.
      replace (match_end m - i + i)%nat with (match_end m) in Hin
        by (unfold match_end in *; lia).
      destruct (IH (match_end m) Hm2) with (c := c) as (j & Hj1 & Hj2 & Hj3).
      * apply Forall_forall. intros m' Hm'.
        pose proof (proj1 (Forall_forall _ _) Hfirst m' Hm') as [H _].
        pose proof (proj1 (Forall_forall _ _) Hall m' Hm') as [_ H'].
        split; assumption.
      * exact Hord.
      * exact Hin.
      * exists j. split; [unfold match_end in *; lia|]. split; [exact Hj2|].
        intros m' [<-|Hm']; [lia|]. now apply Hj3.
Qed.

(** No line feed is left in the text the framer searches. *)
Lemma replaceAll_LineBreakRE_strips (t : text) :
  ~ In 10 (replaceAll LineBreakRE [] t).
Proof.
  unfold replaceAll. intros Hin.
  destruct (matchAll_spec LineBreakRE t) as (Hall & Hord & Hcov).
  destruct (splice_matches_keeps t (matchAll LineBreakRE t) 0 ltac:(lia))
    with (c := 10) as (j & _ & Hj & Hout); try assumption.
  - eapply Forall_impl; [|exact Hall]. intros m Hm. split; [lia|].
    now apply occursIn_bounds in Hm.
  - assert (matchesAt LineBreakRE t j) as Hm.
    { unfold matchesAt. rewrite (nth_error_skipn_cons t j 10 Hj).
      apply LineBreakRE_at_line_feed. }
    assert (j <= length t)%nat as Hle.
    { apply Nat.lt_le_incl. apply nth_error_Some. congruence. }
    destruct (Hcov j Hle Hm) as (m & Hin' & Hm1 & Hm2).
    apply (Hout m Hin'). split; [exact Hm1|].
    destruct Hm2 as [H| ->]; [exact H|].
    pose proof (proj1 (Forall_forall _ _) Hall m Hin') as (_ & s' & Hrun & Hsplit & _).
    pose proof (LineBreakRE_consumes _ _ Hrun) as Hpos.
    apply run_consumes in Hrun as (consumed & H1 & H2 & _).
    cbn [pos rest] in *.
    assert (length (m0 m) = length consumed) as E.
    { apply (f_equal (@length char)) in H1, Hsplit.
      rewrite length_app in H1, Hsplit. lia. }
    unfold match_end. lia.
Qed.

(** ** The framer *)

(** C6, as the claim states it, at the threshold: a chunk of seventy
    bytes with the threshold at seventy holds a framed message, and
    [extractRecords] yields nothing, since the guard is
    [threshold < byteLength]. *)
Lemma extractRecords_ignores_a_chunk_at_the_threshold :
  (70 <= byteLength (chunkOf seventyBytes))%nat /\
  matchAll MessageRE (replaceAll LineBreakRE [] (toString (chunkOf seventyBytes)))
  = [framed "hiya" "11/15 (水)" "07:13:20" "h"] /\
  extractRecords 70 (chunkOf seventyBytes) = [] /\
  extractRecords 70 (chunkOf seventyBytes)
  <> matchAll MessageRE (replaceAll LineBreakRE [] (toString (chunkOf seventyBytes))).
Proof.
  split; [vm_compute; repeat constructor|].
  split; [vm_compute; reflexivity|].
  split; [vm_compute; reflexivity|].
  vm_compute. discriminate.
Qed.

(** C6, amended.  A chunk of at most [threshold] bytes yields nothing.  A
    longer chunk yields the matches of [MessageRE] in its text without
    line breaks: the text holds no line feed; each match is an occurrence
    of the pattern at its index and carries message, date, time and host
    (the self mark is bound or not); the matches come left to right and
    do not overlap; and every index of the text where the pattern matches
    is the start of a yielded match or lies inside one. *)
Theorem extractRecords_yields_every_frame (threshold : nat) (data : Buffer) :
  let t := replaceAll LineBreakRE [] (toString data) in
  ((byteLength data <= threshold)%nat -> extractRecords threshold data = []) /\
  ((threshold < byteLength data)%nat ->
     extractRecords threshold data = matchAll MessageRE t) /\
  ~ In 10 t /\
  Forall (fun m => occursIn MessageRE t m /\
                   field "msg" m <> None /\ field "date" m <> None /\
                   field "time" m <> None /\ field "host" m <> None)
         (matchAll MessageRE t) /\
  inDocumentOrder (matchAll MessageRE t) /\
  (forall j, (j <= length t)%nat -> matchesAt MessageRE t j ->
             covered (matchAll MessageRE t) j).
Proof.
  intros t. destruct (matchAll_spec MessageRE t) as (Hall & Hord & Hcov).
  split; [|split; [|split; [|split; [|split]]]].
  - intros Hle. unfold extractRecords.
    apply Nat.ltb_ge in Hle. now rewrite Hle.
  - intros Hlt. unfold extractRecords.
    apply Nat.ltb_lt in Hlt. now rewrite Hlt.
  - apply replaceAll_LineBreakRE_strips.
  - apply Forall_forall. intros m Hm.
    pose proof (proj1 (Forall_forall _ _) Hall m Hm) as Hocc.
    split; [exact Hocc|]. now apply (MessageRE_fields t).
  - exact Hord.
  - exact Hcov.
Qed.

Lemma extractRecords_yields_every_frame_witness :
  (70 < byteLength (chunkOf twoLines))%nat /\
  extractRecords 70 (chunkOf twoLines)
  = [framed "hello" "11/15 (水)" "07:13:20" "h*.example.jp";
     {| m0 := m0 ownLine;
        index := length (U (frame "hello" "11/15 (水)" "07:13:20" "h*.example.jp"));
        groups := groups ownLine |}] /\
  extractRecords 70 (chunkOf twoLines)
  = matchAll MessageRE (replaceAll LineBreakRE [] (toString (chunkOf twoLines))) /\
  extractRecords 69 (chunkOf seventyBytes) = [framed "hiya" "11/15 (水)" "07:13:20" "h"] /\
  extractRecords 70 (chunkOf seventyBytes) = [].
Proof.
  assert (70 < byteLength (chunkOf twoLines))%nat as H1
    by (vm_compute; repeat constructor).
  split; [exact H1|]. split; [vm_compute; reflexivity|]. split.
  - exact (proj1 (proj2 (extractRecords_yields_every_frame 70 (chunkOf twoLines))) H1).
  - split; [vm_compute; reflexivity|].
    apply (proj1 (extractRecords_yields_every_frame 70 (chunkOf seventyBytes))).
    vm_compute. repeat constructor.
Defined.

(** ** The texts of the cache *)

Lemma set_has_in (x : text) (s : JsSet) : set_has x s = true <-> In x s.
Proof.
  unfold set_has. rewrite existsb_exists. split.
  - intros [y [Hy He]]. apply text_eqb_eq in He. now subst.
  - intros Hx. exists x. split; [assumption | apply text_eqb_refl].
Qed.

Lemma set_has_add (x y : text) (s : JsSet) :
  set_has x (set_add y s) = true <-> x = y \/ set_has x s = true.
Proof.
  unfold set_add. destruct (set_has y s) eqn:Hy.
  - split; [now right | intros [-> | H]; assumption].
  - cbn iota. rewrite !set_has_in, in_app_iff. cbn. intuition.
Qed.

Lemma splice_parts {A} (start : Z) (l : list A) :
  fst (splice start l) ++ snd (splice start l) = l.
Proof. unfold splice. cbn. apply firstn_skipn. Qed.

Lemma updateRecent_list (r : Recent) (log : Log) :
  set_has (message_log log) (recent_set r) = false ->
  exists kept rhs,
    recent_list r = kept ++ rhs /\
    recent_list (updateRecent r log) = kept ++ log :: rhs /\
    recent_set (updateRecent r log) = set_add (message_log log) (recent_set r).
Proof.
  intros Hs. unfold updateRecent. rewrite Hs. cbn [negb].
  pose proof (splice_parts
                (findIndex (fun value => text_ltb (id value) (id log)) (recent_list r))
                (recent_list r)) as Hp.
  destruct (splice _ (recent_list r)) as [kept rhs]. cbn [fst snd] in Hp.
  exists kept, rhs. cbn. split; [now symmetry|]. split; [|reflexivity].
  destruct rhs; cbn.
  - reflexivity.
  - now rewrite <- app_assoc.
Qed.

Lemma NoDup_insert {A} (x : A) (kept rhs : list A) :
  NoDup (kept ++ rhs) -> ~ In x (kept ++ rhs) -> NoDup (kept ++ x :: rhs).
Proof.
  intros Hn Hx. apply NoDup_Add with (a := x) (l := kept ++ rhs).
  - apply Add_app.
  - split; assumption.
Qed.

Lemma updateRecent_texts (r : Recent) (log : Log) :
  textsIndexed r ->
  textsIndexed (updateRecent r log) /\
  (forall t, In t (map message_log (recent_list (updateRecent r log))) <->
             t = message_log log \/ In t (map message_log (recent_list r))) /\
  (forall x, In x (recent_list (updateRecent r log)) ->
             x = log \/ In x (recent_list r)).
Proof.
  intros [Hn Hs]. destruct (set_has (message_log log) (recent_set r)) eqn:Hseen.
  - rewrite (updateRecent_seen r log Hseen). split; [now split|]. split.
    + intros t. split; [now right | intros [-> | H]; [now apply Hs | assumption]].
    + intros x Hx. now right.
  - destruct (updateRecent_list r log Hseen) as [kept [rhs [Hl [Hl' Hs']]]].
    assert (Hnew : ~ In (message_log log) (map message_log (kept ++ rhs))).
    { rewrite <- Hl. intros Hin. apply Hs in Hin. congruence. }
    assert (Hin : forall t, In t (map message_log (kept ++ log :: rhs)) <->
                            t = message_log log \/ In t (map message_log (kept ++ rhs))).
    { intros t. rewrite !map_app, !in_app_iff. cbn. intuition. }
    split; [split|split].
    + rewrite Hl', map_app. cbn [map]. apply NoDup_insert.
      * rewrite <- map_app, <- Hl. assumption.
      * now rewrite <- map_app.
    + intros t. rewrite Hs', Hl', Hin, set_has_add, Hs, Hl. reflexivity.
    + intros t. rewrite Hl', Hl. apply Hin.
    + intros x. rewrite Hl', Hl, !in_app_iff. cbn. intuition.
Qed.

Lemma fold_updateRecent_texts (logs : list Log) :
  forall r,
    textsIndexed r ->
    textsIndexed (fold_left updateRecent logs r) /\
    (forall t, In t (map message_log (recent_list (fold_left updateRecent logs r))) <->
               In t (map message_log (recent_list r)) \/ In t (map message_log logs)) /\
    (forall x, In x (recent_list (fold_left updateRecent logs r)) ->
               In x (recent_list r) \/ In x logs).
Proof.
  induction logs as [|log logs IH]; intros r Hr; cbn [fold_left].
  - split; [assumption|]. split; [intros t; cbn; intuition | intros x Hx; now left].
  - destruct (updateRecent_texts r log Hr) as [Hr' [Ht Hx]].
    destruct (IH _ Hr') as [Hr'' [Ht' Hx']].
    split; [assumption|]. split.
    + intros t. rewrite Ht', Ht. cbn. intuition.
    + intros x Hin. apply Hx' in Hin. destruct Hin as [Hin | Hin].
      * apply Hx in Hin. destruct Hin as [-> | Hin]; [right; now left | now left].
      * right. now right.
Qed.

Lemma NoDup_map_injective {A B} (f : A -> B) (l : list A) (x y : A) :
  NoDup (map f l) -> In x l -> In y l -> f x = f y -> x = y.
Proof.
  induction l as [|a l IH]; intros Hn Hx Hy He; [contradiction|].
  cbn in Hn. inversion Hn as [|? ? Ha Hn']; subst.
  destruct Hx as [-> | Hx], Hy as [-> | Hy].
  - reflexivity.
  - exfalso. apply Ha. rewrite He. now apply in_map.
  - exfalso. apply Ha. rewrite <- He. now apply in_map.
  - now apply IH.
Qed.

Lemma NoDup_of_map {A B} (f : A -> B) (l : list A) : NoDup (map f l) -> NoDup l.
Proof.
  induction l as [|a l IH]; intros Hn; [constructor|].
  cbn in Hn. inversion Hn as [|? ? Ha Hn']; subst. constructor.
  - intros Hin. apply Ha. now apply in_map.
  - now apply IH.
Qed.

Lemma NoDup_map_within {A B} (f : A -> B) (l within : list A) :
  NoDup l -> incl l within -> NoDup (map f within) -> NoDup (map f l).
Proof.
  intros Hl Hin Hw. induction l as [|a l IH]; [constructor|].
  inversion Hl as [|? ? Ha Hl']; subst. cbn. constructor.
  - intros Hfa. apply in_map_iff in Hfa. destruct Hfa as [b [Hb Hbl]].
    assert (b = a).
    { apply (NoDup_map_injective f within); auto.
      - apply Hin. now right.
      - apply Hin. now left. }
    subst. contradiction.
  - apply IH; [assumption|]. intros x Hx. apply Hin. now right.
Qed.

(** X1.  The merge operation keeps invariant I2: from a cache whose
    records have distinct raw texts, all of them in the set, [updateRecent]
    leads to such a cache again; a record whose raw text is in the set
    changes nothing, any other record is added to the sequence, once, and
    nothing leaves it. *)
Theorem updateRecent_keeps_texts_distinct (r : Recent) (log : Log) :
  textsIndexed r ->
  textsIndexed (updateRecent r log) /\
  In (message_log log) (map message_log (recent_list (updateRecent r log))) /\
  (set_has (message_log log) (recent_set r) = true -> updateRecent r log = r) /\
  (set_has (message_log log) (recent_set r) = false ->
     Permutation (log :: recent_list r) (recent_list (updateRecent r log))).
Proof.
  intros Hr. destruct (updateRecent_texts r log Hr) as [Hr' [Ht _]].
  split; [assumption|]. split; [apply Ht; now left|]. split.
  - apply updateRecent_seen.
  - intros Hseen. destruct (updateRecent_list r log Hseen) as [kept [rhs [Hl [Hl' _]]]].
    rewrite Hl, Hl'. apply Permutation_middle.
Qed.

Lemma updateRecent_keeps_texts_distinct_witness :
  let cache := cacheOf [entry "1700000002000-0" "b"; entry "1700000001000-0" "a"] in
  let log := entry "1700000003000-0" "c" in
  textsIndexed cache /\
  textsIndexed (updateRecent cache log) /\
  Permutation (log :: recent_list cache) (recent_list (updateRecent cache log)).
Proof.
  cbv zeta.
  assert (H : textsIndexed
                (cacheOf [entry "1700000002000-0" "b"; entry "1700000001000-0" "a"])).
  { split.
    - repeat constructor; cbn; intuition discriminate.
    - intros t. rewrite set_has_in. reflexivity. }
  split; [exact H|].
  destruct (updateRecent_keeps_texts_distinct _ (entry "1700000003000-0" "c") H)
    as [H1 [_ [_ H4]]].
  split; [exact H1 | apply H4; reflexivity].
Defined.

(** X2.  When the merge operation keeps invariant I1: for a cache sorted
    strictly descending by id and a record of a new raw text and a new id,
    the sequence is sorted again after [updateRecent] exactly when the
    cache was empty or holds a record older than the merged one. *)
Theorem updateRecent_keeps_order_unless_oldest (r : Recent) (log : Log) :
  descendingById (recent_list r) ->
  set_has (message_log log) (recent_set r) = false ->
  (forall v, In v (recent_list r) -> id v <> id log) ->
  (descendingById (recent_list (updateRecent r log)) <->
   recent_list r = [] \/
   exists v, In v (recent_list r) /\ text_ltb (id v) (id log) = true).
Proof.
  intros Hd Hs Hfresh. split.
  - intros Hd'. destruct (recent_list r) as [|x l] eqn:Hl; [now left|]. right.
    destruct (existsb (fun v => text_ltb (id v) (id log)) (x :: l)) eqn:He.
    + apply existsb_exists in He. exact He.
    + exfalso.
      assert (Hall : Forall (fun v => text_ltb (id log) (id v) = true) (x :: l)).
      { apply Forall_forall. intros v Hv.
        apply text_ltb_total.
        - intros Heq. apply (Hfresh v); [exact Hv | now symmetry].
        - destruct (text_ltb (id v) (id log)) eqn:Hlt; [|reflexivity].
          assert (existsb (fun v => text_ltb (id v) (id log)) (x :: l) = true)
            by (apply existsb_exists; now exists v).
          congruence. }
      destruct (exists_last (l := x :: l)) as [init [last Hil]]; [discriminate|].
      rewrite Hil in Hl, Hall.
      destruct (updateRecent_older_than_all r log last init Hs Hl Hall) as [_ Hno].
      contradiction.
  - intros [Hl | Hex].
    + rewrite (updateRecent_empty r log Hs Hl). repeat constructor.
    + destruct (updateRecent_keeps_order r log Hd Hs Hfresh Hex)
        as [before [x [after [_ [_ [_ [_ Hd']]]]]]].
      exact Hd'.
Qed.

Lemma updateRecent_keeps_order_unless_oldest_witness :
  let cache := cacheOf [entry "1700000003000-0" "c"; entry "1700000001000-0" "a"] in
  let log := entry "1700000002000-0" "b" in
  descendingById (recent_list cache) /\
  map id (recent_list (updateRecent cache log))
  = [U "1700000003000-0"; U "1700000002000-0"; U "1700000001000-0"] /\
  descendingById (recent_list (updateRecent cache log)).
Proof.
  cbv zeta.
  assert (Hd : descendingById
                 (recent_list
                    (cacheOf [entry "1700000003000-0" "c"; entry "1700000001000-0" "a"])))
    by (apply descendingByIdb_spec; reflexivity).
  split; [exact Hd|]. split; [reflexivity|].
  apply (updateRecent_keeps_order_unless_oldest _ (entry "1700000002000-0" "b") Hd).
  - reflexivity.
  - intros v [<- | [<- | []]]; discriminate.
  - right. exists (entry "1700000001000-0" "a"). split; [right; now left | reflexivity].
Defined.

(** ** Loading the stream *)

Lemma queryLogAsync_frame (w : World) :
  exists w',
    queryLogAsync w = Returned tt w' /\
    stream w' = stream w /\ sent w' = sent w /\ broadcast w' = broadcast w /\
    userKeywords w' = userKeywords w /\ keywordHash w' = keywordHash w /\
    recent_set (recent w') = recent_set (fold_left updateRecent (stream w) (recent w)).
Proof.
  eexists. unfold queryLogAsync, bind, get, modify. rewrite rev_involutive.
  split; [reflexivity|]. cbn. repeat split.
Qed.

(** X3.  What [queryLogAsync] leaves in the cache of a bot that starts:
    when the entries of the stream have distinct ids, the sequence is
    sorted strictly descending by id, its records are entries of the
    stream, no two of them share a raw text, and every raw text of the
    stream is the text of one of them; the stream itself and what was
    sent stay as they were. *)
Theorem queryLogAsync_loads_the_stream (w : World) :
  recent w = emptyRecent ->
  NoDup (map id (stream w)) ->
  exists w',
    queryLogAsync w = Returned tt w' /\
    descendingById (recent_list (recent w')) /\
    incl (recent_list (recent w')) (stream w) /\
    NoDup (map message_log (recent_list (recent w'))) /\
    (forall t, In t (map message_log (recent_list (recent w'))) <->
               In t (map message_log (stream w))) /\
    stream w' = stream w /\ sent w' = sent w.
Proof.
  intros He Hn.
  destruct (queryLogAsync_sorts w) as [w' [Hq [Hp [_ Hd]]]].
  destruct (queryLogAsync_frame w) as [w2 [Hq2 [Hst [Hse _]]]].
  assert (w2 = w') by congruence. subst w2.
  assert (H0 : textsIndexed (recent w)).
  { rewrite He. split; [constructor | intros t; cbn; split; [discriminate | tauto]]. }
  destruct (fold_updateRecent_texts (stream w) (recent w) H0) as [[Hnd _] [Ht Hx]].
  assert (Hincl : incl (recent_list (recent w')) (stream w)).
  { intros x Hin. apply (Permutation_in _ (Permutation_sym Hp)) in Hin.
    apply Hx in Hin. rewrite He in Hin. destruct Hin as [[] | Hin]. exact Hin. }
  assert (Hnt : NoDup (map message_log (recent_list (recent w')))).
  { apply (Permutation_NoDup (Permutation_map message_log Hp)). exact Hnd. }
  exists w'. split; [exact Hq|]. split; [|split; [exact Hincl|split; [exact Hnt|split]]].
  - apply Hd. apply (NoDup_map_within id _ (stream w)); auto.
    apply (NoDup_of_map message_log). exact Hnt.
  - intros t. split.
    + intros Hin.
      apply (Permutation_in _ (Permutation_sym (Permutation_map message_log Hp))) in Hin.
      apply Ht in Hin. rewrite He in Hin. destruct Hin as [[] | Hin]. exact Hin.
    + intros Hin. apply (Permutation_in _ (Permutation_map message_log Hp)).
      apply Ht. now right.
  - split; assumption.
Qed.

Lemma queryLogAsync_loads_the_stream_witness :
  let w := with_stream [entry "1700000000000-0" "a"; entry "1700000001000-0" "b";
                        entry "1700000002000-0" "a"] sampleWorld in
  recent w = emptyRecent /\
  NoDup (map id (stream w)) /\
  exists w',
    queryLogAsync w = Returned tt w' /\
    descendingById (recent_list (recent w')) /\
    NoDup (map message_log (recent_list (recent w'))).
Proof.
  cbv zeta.
  assert (Hn : NoDup (map id (stream (with_stream
                 [entry "1700000000000-0" "a"; entry "1700000001000-0" "b";
                  entry "1700000002000-0" "a"] sampleWorld)))).
  { repeat constructor; cbn; intuition discriminate. }
  split; [reflexivity|]. split; [exact Hn|].
  destruct (queryLogAsync_loads_the_stream
              (with_stream [entry "1700000000000-0" "a"; entry "1700000001000-0" "b";
                            entry "1700000002000-0" "a"] sampleWorld) eq_refl Hn)
    as [w' [Hq [Hd [_ [Ht _]]]]].
  exists w'. split; [exact Hq|]. split; [exact Hd | exact Ht].
Defined.

(** ** What the handlers leave alone *)

Lemma sameLog_refl (w : World) : sameLog w w.
Proof. repeat split. Qed.

Lemma sameLog_trans (a b c : World) : sameLog a b -> sameLog b c -> sameLog a c.
Proof.
  unfold sameLog. intros [H1 [H2 [H3 H4]]] [H5 [H6 [H7 H8]]].
  repeat split; congruence.
Qed.

Lemma keeps_ret {A} (a : A) : keeps (ret a).
Proof. intros w. apply sameLog_refl. Qed.

Lemma keeps_throw {A} (err : Error) : keeps (@throw A err).
Proof. intros w. apply sameLog_refl. Qed.

Lemma keeps_get : keeps get.
Proof. intros w. apply sameLog_refl. Qed.

Lemma keeps_bind {A B} (m : Async A) (k : A -> Async B) :
  keeps m -> (forall a, keeps (k a)) -> keeps (bind m k).
Proof.
  intros Hm Hk w. unfold bind. specialize (Hm w).
  destruct (m w) as [a w1 | err w1]; cbn in Hm.
  - apply (sameLog_trans _ w1); [assumption | apply Hk].
  - exact Hm.
Qed.

Lemma keeps_try_catch {A} (m : Async A) (h : Error -> Async A) :
  keeps m -> (forall err, keeps (h err)) -> keeps (try_catch m h).
Proof.
  intros Hm Hh w. unfold try_catch. specialize (Hm w).
  destruct (m w) as [a w1 | err w1]; cbn in Hm.
  - exact Hm.
  - apply (sameLog_trans _ w1); [assumption | apply Hh].
Qed.

Lemma keeps_modify (g : World -> World) :
  (forall w, sameLog w (g w)) -> keeps (modify g).
Proof. intros Hg w. apply Hg. Qed.

Lemma keeps_for_of {A} (xs : list A) (g : A -> Async unit) :
  (forall x, keeps (g x)) -> keeps (for_of xs g).
Proof.
  intros Hg. induction xs as [|x xs IH]; cbn [for_of].
  - apply keeps_ret.
  - apply keeps_bind; [apply Hg | intros _; exact IH].
Qed.

Lemma keeps_sendAsync (t : text) : keeps (sendAsync t).
Proof. apply keeps_modify. intros w. repeat split. Qed.

Ltac keeps_step :=
  lazymatch goal with
  | |- keeps (ret _) => apply keeps_ret
  | |- keeps (throw _) => apply keeps_throw
  | |- keeps get => apply keeps_get
  | |- keeps (sendAsync _) => apply keeps_sendAsync
  | |- keeps (bind _ _) => apply keeps_bind; [|intros ?]
  | |- keeps (try_catch _ _) => apply keeps_try_catch; [|intros ?]
  | |- keeps (for_of _ _) => apply keeps_for_of; intros ?
  | |- keeps (modify _) => apply keeps_modify; intros ?; repeat split
  end.

Lemma keeps_createSpeechAsync `{Collaborators} (t : text) (remark : bool) :
  keeps (createSpeechAsync t remark).
Proof.
  unfold createSpeechAsync. keeps_step; [keeps_step|].
  destruct (uploadToGistAsync t) as [[gist rawUrl]|]; repeat keeps_step.
  destruct remark; keeps_step.
Qed.

Lemma keeps_createSpeechFromFileAsync `{Collaborators} (path : text) :
  keeps (createSpeechFromFileAsync path).
Proof.
  unfold createSpeechFromFileAsync. destruct (readFile path); repeat keeps_step.
  apply keeps_createSpeechAsync.
Qed.

Lemma keeps_calculateAsync `{Collaborators} (m : Match) : keeps (calculateAsync m).
Proof.
  unfold calculateAsync. keeps_step; [|keeps_step].
  destruct (validateParentheses _); [keeps_step|].
  destruct (evaluate _); keeps_step.
Qed.

Lemma keeps_locateLogsAsync `{Collaborators} (m : Match) : keeps (locateLogsAsync m).
Proof.
  unfold locateLogsAsync, describeLogAsync.
  destruct (truthy (field "command" m)).
  - apply keeps_createSpeechFromFileAsync.
  - repeat keeps_step. apply keeps_createSpeechAsync.
Qed.

Lemma keeps_handleTallyCommandAsync `{Collaborators} (m : Match) :
  keeps (handleTallyCommandAsync m).
Proof.
  assert (Ht : keeps (tallyAsync m)).
  { unfold tallyAsync. keeps_step; [keeps_step|].
    destruct (tally _ _); repeat keeps_step. apply keeps_createSpeechAsync. }
  unfold handleTallyCommandAsync, describeTallyHelp.
  destruct (field "command" m) as [c|]; [|exact Ht].
  destruct (text_eqb c (U "--help")); [apply keeps_createSpeechFromFileAsync | exact Ht].
Qed.

Lemma keeps_hSetNX (k v : text) : keeps (hSetNX k v).
Proof.
  intros w. unfold hSetNX. destruct (map_get k (keywordHash w)); repeat split.
Qed.

Lemma keeps_hDel (k : text) : keeps (hDel k).
Proof.
  intros w. unfold hDel. destruct (map_get k (keywordHash w)); repeat split.
Qed.

Lemma keeps_handleUserKeywordCommandAsync `{Collaborators} (m : Match) :
  keeps (handleUserKeywordCommandAsync m).
Proof.
  unfold handleUserKeywordCommandAsync.
  destruct (inTemplate _); [|keeps_step].
  destruct (template _) as [[| | | |]|]; try keeps_step.
  - apply keeps_createSpeechFromFileAsync.
  - unfold listUserKeywordsAsync.
    destruct (_ || _); [keeps_step|]. keeps_step; [keeps_step|].
    destruct (_ =? _)%nat; [keeps_step|].
    unfold createUserKeywordsSpeechAsync. keeps_step; [keeps_step|].
    destruct (_ <=? _)%nat.
    + keeps_step; [apply keeps_createSpeechAsync | keeps_step].
    + keeps_step; [apply keeps_createSpeechAsync|].
      match goal with |- keeps (match ?s with _ => _ end) => destruct s end; keeps_step.
  - unfold registerUserKeywordAsync. keeps_step.
    + destruct (_ && _); repeat keeps_step. apply keeps_hSetNX.
    + keeps_step; [|keeps_step]. destruct (endsWith _ _); keeps_step.
  - unfold unregisterUserKeywordAsync. keeps_step.
    + destruct (_ && _); repeat keeps_step. apply keeps_hDel.
    + keeps_step; [|keeps_step]. destruct (endsWith _ _); keeps_step.
Qed.

Lemma keeps_testUserKeywordsAsync `{Collaborators} (m : Match) :
  keeps (testUserKeywordsAsync m).
Proof.
  unfold testUserKeywordsAsync. destruct (negb _); repeat keeps_step.
Qed.

Lemma keeps_routeLoop (table : list Pattern) (t : text) :
  Forall (fun a => forall m, keeps (f a m)) table ->
  forall placeholder, keeps (routeLoop table t placeholder).
Proof.
  induction 1 as [|a table Ha _ IH]; intros placeholder; cbn [routeLoop].
  - keeps_step.
  - keeps_step; [|apply IH]. destruct (re_match (e a) t); [apply Ha | keeps_step].
Qed.

Lemma keeps_handleCanonicalCommandsAsync (C : Collaborators) (t : text) :
  quiet C -> keeps (handleCanonicalCommandsAsync t).
Proof.
  intros [Hd Ht]. apply keeps_routeLoop. unfold patterns.
  repeat apply Forall_cons; try apply Forall_nil; cbn [f]; intros m.
  - apply keeps_calculateAsync.
  - exact (Hd m).
  - apply keeps_createSpeechFromFileAsync.
  - apply keeps_locateLogsAsync.
  - apply keeps_handleTallyCommandAsync.
  - apply keeps_modify. exact (Ht m).
  - apply keeps_handleUserKeywordCommandAsync.
Qed.

(** X4.  No command touches the log: whatever the text of a message, and
    whether the handlers return or reject, [handleCanonicalCommandsAsync]
    and [testUserKeywordsAsync] leave the cache, the stream and what went
    to the web clients as they were, provided the two handlers that only
    call other services do. *)
Theorem commands_leave_the_log_alone (C : Collaborators) (t : text)
  (matched : Match) (w : World) :
  quiet C ->
  sameLog w (world_of (handleCanonicalCommandsAsync t w)) /\
  sameLog w (world_of (testUserKeywordsAsync matched w)).
Proof.
  intros Hq. split.
  - now apply keeps_handleCanonicalCommandsAsync.
  - apply keeps_testUserKeywordsAsync.
Qed.

Lemma quiet_sampleCollaborators : quiet sampleCollaborators.
Proof. split; intros m w; repeat split. Qed.

Lemma commands_leave_the_log_alone_witness :
  quiet sampleCollaborators /\
  sameLog sampleWorld
    (world_of (@handleCanonicalCommandsAsync sampleCollaborators (U "計算 1+2") sampleWorld)).
Proof.
  split; [exact quiet_sampleCollaborators|].
  exact (proj1 (commands_leave_the_log_alone sampleCollaborators (U "計算 1+2") ownLine
                  sampleWorld quiet_sampleCollaborators)).
Defined.

(** ** What a chunk leaves in the log *)

Lemma recorded_log (matched : Match) (w : World) :
  let log := {| id := stream_ids w (length (stream w)); message_log := m0 matched |} in
  stream (recorded matched w) = stream w ++ [log] /\
  stream_ids (recorded matched w) = stream_ids w /\
  broadcast (recorded matched w) = broadcast w ++ [log] /\
  recent_list (recent (recorded matched w)) = log :: recent_list (recent w).
Proof. repeat split. Qed.

Lemma acceptMatched_log (router : text -> Async bool) (keywords : Match -> Async unit)
  (matched : Match) (w : World) :
  (forall t, keeps (router t)) -> (forall m, keeps (keywords m)) ->
  sameLog (recorded matched w) (world_of (acceptMatched router keywords matched w)).
Proof.
  intros Hr Hk. rewrite acceptMatched_steps.
  destruct (selfAuthored matched); [apply sameLog_refl|].
  specialize (Hr (show (field "msg" matched)) (recorded matched w)).
  destruct (router _ _) as [[|] w1 | err w1]; cbn [world_of] in *; try exact Hr.
  apply (sameLog_trans _ w1); [exact Hr | apply Hk].
Qed.

Lemma for_of_acceptMatched_log (router : text -> Async bool)
  (keywords : Match -> Async unit) (records : list Match) :
  (forall t, keeps (router t)) -> (forall m, keeps (keywords m)) ->
  forall w,
  exists n,
    (n <= length records)%nat /\
    let logs := assign (stream_ids w) (length (stream w)) (map m0 (firstn n records)) in
    let w' := world_of (for_of records (acceptMatched router keywords) w) in
    stream w' = stream w ++ logs /\
    stream_ids w' = stream_ids w /\
    broadcast w' = broadcast w ++ logs /\
    recent_list (recent w') = rev logs ++ recent_list (recent w) /\
    ((exists w'', for_of records (acceptMatched router keywords) w = Returned tt w'') ->
     n = length records).
Proof.
  intros Hr Hk. induction records as [|m records IH]; intros w.
  - exists 0%nat. cbn. rewrite !app_nil_r. repeat split. lia.
  - cbn [for_of]. unfold bind.
    pose proof (acceptMatched_log router keywords m w Hr Hk) as [H1 [H2 [H3 H4]]].
    destruct (recorded_log m w) as [R1 [R2 [R3 R4]]].
    destruct (acceptMatched router keywords m w) as [[] w1 | err w1];
      cbn [world_of] in H1, H2, H3, H4.
    + destruct (IH w1) as [n [Hn [S1 [S2 [S3 [S4 S5]]]]]].
      exists (S n). split; [cbn; lia|]. cbn beta iota zeta in *.
      rewrite S1, S2, S3, S4, H1, H2, H3, H4, R1, R2, R3, R4.
      cbn [firstn map assign rev]. rewrite !length_app. cbn [length].
      replace (length (stream w) + 1)%nat with (S (length (stream w))) by lia.
      rewrite <- !app_assoc. cbn [app].
      repeat split. intros Hex. f_equal. now apply S5.
    + exists 1%nat. split; [cbn; lia|]. cbn [world_of firstn map assign rev app].
      rewrite H1, H2, H3, H4, R1, R2, R3, R4. repeat split.
      intros [w'' Hw]. discriminate.
Qed.

(** X5.  What a chunk leaves in the log: [acceptKoukoku] appends the
    records of the chunk to the stream in document order, each under the
    next id of the stream, hands the same logs to the web clients in that
    order and puts them in front of the cache, newest first; it does so
    for all the records when it returns, and up to the record whose
    handler rejected when it rejects. *)
Theorem acceptKoukoku_records_in_order (C : Collaborators) (threshold : nat)
  (data : Buffer) (w : World) :
  quiet C ->
  let records := extractRecords threshold data in
  let w' := world_of (acceptKoukoku threshold data w) in
  exists n,
    (n <= length records)%nat /\
    let logs := assign (stream_ids w) (length (stream w)) (map m0 (firstn n records)) in
    stream w' = stream w ++ logs /\
    broadcast w' = broadcast w ++ logs /\
    recent_list (recent w') = rev logs ++ recent_list (recent w) /\
    ((exists w'', acceptKoukoku threshold data w = Returned tt w'') ->
     n = length records).
Proof.
  intros Hq records w'.
  destruct (for_of_acceptMatched_log handleCanonicalCommandsAsync testUserKeywordsAsync
              records
              (fun t => keeps_handleCanonicalCommandsAsync C t Hq)
              keeps_testUserKeywordsAsync w)
    as [n [Hn [S1 [_ [S3 [S4 S5]]]]]].
  exists n. split; [exact Hn|]. repeat split; assumption.
Qed.

Lemma acceptKoukoku_records_in_order_witness :
  quiet sampleCollaborators /\
  exists n,
    (n <= 2)%nat /\
    map message_log
      (stream (world_of (@acceptKoukoku sampleCollaborators 70 (chunkOf twoLines) sampleWorld)))
    = map m0 (firstn n (extractRecords 70 (chunkOf twoLines))).
Proof.
  split; [exact quiet_sampleCollaborators|].
  destruct (acceptKoukoku_records_in_order sampleCollaborators 70 (chunkOf twoLines)
              sampleWorld quiet_sampleCollaborators) as [n [Hn [Hs _]]].
  exists n. split.
  - replace 2%nat with (length (extractRecords 70 (chunkOf twoLines)))
      by (vm_compute; reflexivity).
    exact Hn.
  - rewrite Hs. cbn [sampleWorld stream app length].
    generalize (firstn n (extractRecords 70 (chunkOf twoLines))) as l.
    generalize 0%nat as k.
    intros k l. revert k. induction l as [|x l IH]; intros k; [reflexivity|].
    cbn. f_equal. apply IH.
Defined.

(** ** The scan of an expression *)

Lemma valueForParenthesis_keys :
  valueForParenthesis =
  [(32, 0%Z); (37, 0%Z); (40, 1%Z); (41, (-1)%Z); (42, 0%Z); (43, 0%Z);
   (45, 0%Z); (46, 0%Z); (47, 0%Z); (48, 0%Z); (49, 0%Z); (50, 0%Z);
   (51, 0%Z); (52, 0%Z); (53, 0%Z); (54, 0%Z); (55, 0%Z); (56, 0%Z);
   (57, 0%Z)].
Proof. vm_compute. reflexivity. Qed.

Lemma addendum_spec (c : char) (a : Z) :
  lookup_char c valueForParenthesis = Some a ->
  a = ((if (c =? 40)%N then 1 else 0) - (if (c =? 41)%N then 1 else 0))%Z.
Proof.
  rewrite valueForParenthesis_keys. cbn [lookup_char].
  repeat match goal with
         | |- context [c =? ?k] =>
             destruct (N.eqb_spec c k) as [-> | ?];
             [intros [= <-]; reflexivity|]
         end.
  discriminate.
Qed.

Lemma letter_no_parenthesis (c : char) :
  symbol c = false -> (c =? 40) = false /\ (c =? 41) = false.
Proof.
  unfold symbol. intros Hs.
  split; apply N.eqb_neq; intros ->; vm_compute in Hs; discriminate.
Qed.

Lemma opens_cons (c : char) (cs : text) :
  opens (c :: cs) = ((if (c =? 40)%N then 1 else 0) + opens cs)%Z.
Proof.
  unfold opens. cbn [filter]. rewrite (N.eqb_sym 40 c).
  destruct (c =? 40); cbn [length]; lia.
Qed.

Lemma closes_cons (c : char) (cs : text) :
  closes (c :: cs) = ((if (c =? 41)%N then 1 else 0) + closes cs)%Z.
Proof.
  unfold closes. cbn [filter]. rewrite (N.eqb_sym 41 c).
  destruct (c =? 41); cbn [length]; lia.
Qed.

Lemma reduce_chars_counts (cs : text) :
  forall ctx ctx',
    reduce_chars cs ctx = inr ctx' ->
    opened ctx' = (opened ctx + opens cs - closes cs)%Z.
Proof.
  induction cs as [|c cs IH]; intros ctx ctx' Hr.
  - cbn in Hr. injection Hr as <-. unfold opens, closes. cbn. lia.
  - cbn [reduce_chars] in Hr. unfold updateParenthesisContext in Hr.
    rewrite opens_cons, closes_cons.
    destruct (lookup_char c valueForParenthesis) as [a|] eqn:Hc.
    + destruct (validateQualifier ctx); [discriminate|].
      apply IH in Hr. cbn [opened] in Hr. apply addendum_spec in Hc. lia.
    + apply IH in Hr. cbn [opened] in Hr.
      destruct (letter_no_parenthesis c) as [H40 H41];
        [unfold symbol; now rewrite Hc|].
      rewrite H40, H41. lia.
Qed.

Lemma reduce_chars_app (a b : text) (ctx : Parenthesis) :
  reduce_chars (a ++ b) ctx =
  match reduce_chars a ctx with
  | inl err => inl err
  | inr ctx' => reduce_chars b ctx'
  end.
Proof.
  revert ctx. induction a as [|c a IH]; intros ctx; [reflexivity|].
  cbn [app reduce_chars]. destruct (updateParenthesisContext ctx c); [reflexivity|].
  apply IH.
Qed.

Lemma reduce_chars_symbols (cs : text) :
  forallb symbol cs = true ->
  forall n, exists n',
    reduce_chars cs {| opened := n; qualifier := [] |}
    = inr {| opened := n'; qualifier := [] |}.
Proof.
  induction cs as [|c cs IH]; intros Hs n.
  - exists n. reflexivity.
  - cbn [forallb] in Hs. apply andb_prop in Hs. destruct Hs as [Hc Hs].
    cbn [reduce_chars]. unfold updateParenthesisContext, symbol in *.
    destruct (lookup_char c valueForParenthesis) as [a|]; [|discriminate].
    cbn. apply (IH Hs).
Qed.

Lemma reduce_chars_letters (q : text) :
  letters q = true ->
  forall ctx,
    reduce_chars q ctx = inr {| opened := opened ctx; qualifier := qualifier ctx ++ q |}.
Proof.
  induction q as [|c q IH]; intros Hq ctx.
  - cbn. rewrite app_nil_r. now destruct ctx.
  - cbn [letters forallb] in Hq. apply andb_prop in Hq. destruct Hq as [Hc Hq].
    cbn [reduce_chars]. unfold updateParenthesisContext, symbol in *.
    destruct (lookup_char c valueForParenthesis); [discriminate|].
    rewrite (IH Hq). cbn [opened qualifier]. now rewrite <- app_assoc.
Qed.

Lemma validateParentheses_of_context (expr : text) (ctx ctx' : Parenthesis) :
  reduce_chars expr initialContext = inr ctx ->
  opened ctx' = opened ctx ->
  validateParentheses expr =
  match nth ((if isNaN (opened ctx') then 1 else 0) * 2
             + (if (opened ctx' =? 0)%Z then 1 else 0))%nat
            [Some (text_of_Z (opened ctx') ++ U "個の閉じ括弧が不足しています");
             None; Some (U "不正な閉じ括弧があります")] None with
  | Some msg => inl (newError msg)
  | None => inr tt
  end.
Proof.
  intros Hr Ho. unfold validateParentheses. unfold initialContext in Hr.
  rewrite Hr, Ho. reflexivity.
Qed.

(** X6.  The validator counts parentheses and does not pair them: an
    expression that passes has as many opening as closing parentheses, and
    an expression made of the characters of [valueForParenthesis] passes
    as soon as the two numbers agree, also when a parenthesis is closed
    before it is opened. *)
Theorem validateParentheses_only_counts (expr : text) :
  (validateParentheses expr = inr tt -> opens expr = closes expr) /\
  (forallb symbol expr = true -> opens expr = closes expr ->
   validateParentheses expr = inr tt).
Proof.
  split.
  - intros Hv. unfold validateParentheses in Hv.
    destruct (reduce_chars expr _) as [err | ctx] eqn:Hr; [discriminate|].
    apply reduce_chars_counts in Hr. cbn [opened] in Hr.
    unfold isNaN in Hv. cbn [Nat.mul Nat.add] in Hv.
    destruct (opened ctx =? 0)%Z eqn:Hz; [|discriminate].
    apply Z.eqb_eq in Hz. lia.
  - intros Hs He. destruct (reduce_chars_symbols expr Hs 0%Z) as [n' Hr].
    pose proof (reduce_chars_counts _ _ _ Hr) as Hn. cbn [opened] in Hn.
    rewrite (validateParentheses_by_count expr _ Hr). cbn [opened].
    replace n' with 0%Z by lia. reflexivity.
Qed.

Lemma validateParentheses_only_counts_witness :
  forallb symbol (U ")1+2(") = true /\
  opens (U ")1+2(") = closes (U ")1+2(") /\
  validateParentheses (U ")1+2(") = inr tt.
Proof.
  assert (Hs : forallb symbol (U ")1+2(") = true) by (vm_compute; reflexivity).
  assert (He : opens (U ")1+2(") = closes (U ")1+2(")) by (vm_compute; reflexivity).
  split; [exact Hs|]. split; [exact He|].
  exact (proj2 (validateParentheses_only_counts (U ")1+2(")) Hs He).
Defined.

(** X7.  A name is checked when a character of [valueForParenthesis]
    follows it, an operator as well as a parenthesis: behind a scanned
    part that ends outside a name, a run of other characters that is not
    one of the five function names, white space around it apart, makes
    the validator throw the complaint that names it, whatever comes
    after; so [PI*2] is refused.  A run that is one of the five names is
    passed over. *)
Theorem validateParentheses_checks_a_name_before_a_symbol
  (pre q rest : text) (c : char) (ctx : Parenthesis) :
  reduce_chars pre initialContext = inr ctx -> qualifier ctx = [] ->
  q <> [] -> letters q = true -> symbol c = true ->
  (existsb (text_eqb (trim q)) functionNames = false ->
   validateParentheses (pre ++ q ++ c :: rest)
   = inl (newError (q ++ U "は関数ではありません"))) /\
  (existsb (text_eqb (trim q)) functionNames = true ->
   exists n,
     reduce_chars (pre ++ q ++ [c]) initialContext
     = inr {| opened := n; qualifier := [] |}).
Proof.
  intros Hpre Hq0 Hne Hq Hc.
  assert (Hscan : reduce_chars (pre ++ q) initialContext
                  = inr {| opened := opened ctx; qualifier := q |}).
  { rewrite reduce_chars_app, Hpre, (reduce_chars_letters q Hq), Hq0. reflexivity. }
  assert (Hlen : (0 <? length q)%nat = true).
  { destruct q; [congruence | reflexivity]. }
  unfold symbol in Hc.
  destruct (lookup_char c valueForParenthesis) as [a|] eqn:Ha; [|discriminate].
  split; intros Hf.
  - unfold validateParentheses. fold initialContext.
    rewrite app_assoc, reduce_chars_app, Hscan. cbn [reduce_chars].
    unfold updateParenthesisContext, validateQualifier. cbn [qualifier].
    rewrite Ha, Hlen, Hf. reflexivity.
  - exists (opened ctx + a)%Z.
    rewrite app_assoc, reduce_chars_app, Hscan. cbn [reduce_chars].
    unfold updateParenthesisContext, validateQualifier. cbn [qualifier opened].
    rewrite Ha, Hlen, Hf. reflexivity.
Qed.

Lemma validateParentheses_checks_a_name_before_a_symbol_witness :
  validateParentheses (U "2+" ++ U "PI" ++ ch "*" :: U "2")
  = inl (newError (U "PI" ++ U "は関数ではありません")) /\
  exists n, reduce_chars (U "2+" ++ U "cos" ++ [ch "("]) initialContext
            = inr {| opened := n; qualifier := [] |}.
Proof.
  assert (Hpre : reduce_chars (U "2+") initialContext
                 = inr {| opened := 0; qualifier := [] |})
    by (vm_compute; reflexivity).
  assert (H1 : U "PI" <> []) by (vm_compute; discriminate).
  assert (H2 : letters (U "PI") = true) by (vm_compute; reflexivity).
  assert (H3 : symbol (ch "*") = true) by (vm_compute; reflexivity).
  assert (H4 : U "cos" <> []) by (vm_compute; discriminate).
  assert (H5 : letters (U "cos") = true) by (vm_compute; reflexivity).
  assert (H6 : symbol (ch "(") = true) by (vm_compute; reflexivity).
  split.
  - apply (proj1 (validateParentheses_checks_a_name_before_a_symbol
                    (U "2+") (U "PI") (U "2") (ch "*") _ Hpre eq_refl H1 H2 H3)).
    vm_compute. reflexivity.
  - apply (proj2 (validateParentheses_checks_a_name_before_a_symbol
                    (U "2+") (U "cos") [] (ch "(") _ Hpre eq_refl H4 H5 H6)).
    vm_compute. reflexivity.
Defined.

(** X8.  The name an expression ends with is never checked: characters
    outside [valueForParenthesis] at the end of an expression do not
    change what the validator answers, so [2*PI] passes as [2*] does. *)
Theorem validateParentheses_skips_the_last_name (expr q : text) :
  letters q = true ->
  validateParentheses (expr ++ q) = validateParentheses expr.
Proof.
  intros Hq. unfold validateParentheses at 1. fold initialContext.
  rewrite reduce_chars_app.
  destruct (reduce_chars expr initialContext) as [err | ctx] eqn:Hr.
  - unfold validateParentheses. fold initialContext. now rewrite Hr.
  - rewrite (reduce_chars_letters q Hq). cbn [opened].
    symmetry. apply (validateParentheses_of_context expr ctx ctx Hr eq_refl).
Qed.

Lemma validateParentheses_skips_the_last_name_witness :
  letters (U "PI") = true /\
  validateParentheses (U "2*" ++ U "PI") = inr tt /\
  validateParentheses (U "(1+2)*" ++ U "exit") = inr tt.
Proof.
  assert (H1 : letters (U "PI") = true) by (vm_compute; reflexivity).
  assert (H2 : letters (U "exit") = true) by (vm_compute; reflexivity).
  split; [exact H1|]. split.
  - rewrite (validateParentheses_skips_the_last_name (U "2*") (U "PI") H1).
    vm_compute. reflexivity.
  - rewrite (validateParentheses_skips_the_last_name (U "(1+2)*") (U "exit") H2).
    vm_compute. reflexivity.
Defined.

(** ** The ways the router rejects *)

Lemma rejectsOnly_ret {A} (P : Error -> Prop) (a : A) : rejectsOnly P (ret a).
Proof. intros w err w' H. discriminate. Qed.

Lemma rejectsOnly_get (P : Error -> Prop) : rejectsOnly P get.
Proof. intros w err w' H. discriminate. Qed.

Lemma rejectsOnly_modify (P : Error -> Prop) (g : World -> World) :
  rejectsOnly P (modify g).
Proof. intros w err w' H. discriminate. Qed.

Lemma rejectsOnly_throw {A} (P : Error -> Prop) (err : Error) :
  P err -> rejectsOnly P (@throw A err).
Proof. intros Hp w err' w' [= <- _]. exact Hp. Qed.

Lemma rejectsOnly_bind {A B} (P : Error -> Prop) (m : Async A) (k : A -> Async B) :
  rejectsOnly P m -> (forall a, rejectsOnly P (k a)) -> rejectsOnly P (bind m k).
Proof.
  intros Hm Hk w err w' H. unfold bind in H.
  destruct (m w) as [a w1 | err1 w1] eqn:Em.
  - exact (Hk a w1 err w' H).
  - injection H as <- _. exact (Hm w err1 w1 Em).
Qed.

Lemma rejectsOnly_try_catch {A} (P : Error -> Prop) (m : Async A) (h : Error -> Async A) :
  (forall err, rejectsOnly P (h err)) -> rejectsOnly P (try_catch m h).
Proof.
  intros Hh w err w' H. unfold try_catch in H.
  destruct (m w) as [a w1 | err1 w1]; [discriminate|].
  exact (Hh err1 w1 err w' H).
Qed.

Lemma rejectsOnly_for_of {A} (P : Error -> Prop) (xs : list A) (g : A -> Async unit) :
  (forall x, rejectsOnly P (g x)) -> rejectsOnly P (for_of xs g).
Proof.
  intros Hg. induction xs as [|x xs IH]; cbn [for_of].
  - apply rejectsOnly_ret.
  - apply rejectsOnly_bind; [apply Hg | intros _; exact IH].
Qed.

Lemma rejectsOnly_sendAsync (P : Error -> Prop) (t : text) : rejectsOnly P (sendAsync t).
Proof. apply rejectsOnly_modify. Qed.

Ltac rejects_step :=
  lazymatch goal with
  | |- rejectsOnly _ (ret _) => apply rejectsOnly_ret
  | |- rejectsOnly _ get => apply rejectsOnly_get
  | |- rejectsOnly _ (sendAsync _) => apply rejectsOnly_sendAsync
  | |- rejectsOnly _ (modify _) => apply rejectsOnly_modify
  | |- rejectsOnly _ (bind _ _) => apply rejectsOnly_bind; [|intros ?]
  | |- rejectsOnly _ (try_catch _ _) => apply rejectsOnly_try_catch; intros ?
  | |- rejectsOnly _ (for_of _ _) => apply rejectsOnly_for_of; intros ?
  end.

Lemma rejectsOnly_createSpeechAsync `{Collaborators} (P : Error -> Prop) (t : text)
  (remark : bool) : rejectsOnly P (createSpeechAsync t remark).
Proof.
  unfold createSpeechAsync. rejects_step; [rejects_step|].
  destruct (uploadToGistAsync t) as [[gist rawUrl]|]; repeat rejects_step.
  destruct remark; rejects_step.
Qed.

Lemma rejectsOnly_createSpeechFromFileAsync `{Collaborators} (P : Error -> Prop)
  (path : text) : rejectsOnly P (createSpeechFromFileAsync path).
Proof.
  unfold createSpeechFromFileAsync. destruct (readFile path); repeat rejects_step.
  apply rejectsOnly_createSpeechAsync.
Qed.

Lemma rejectsOnly_calculateAsync `{Collaborators} (P : Error -> Prop) (m : Match) :
  rejectsOnly P (calculateAsync m).
Proof. unfold calculateAsync. repeat rejects_step. Qed.

Lemma rejectsOnly_locateLogsAsync `{Collaborators} (P : Error -> Prop) (m : Match) :
  rejectsOnly P (locateLogsAsync m).
Proof.
  unfold locateLogsAsync, describeLogAsync. destruct (truthy _).
  - apply rejectsOnly_createSpeechFromFileAsync.
  - repeat rejects_step. apply rejectsOnly_createSpeechAsync.
Qed.

Lemma rejectsOnly_handleTallyCommandAsync `{Collaborators} (m : Match) :
  rejectsOnly (fun err => err = undefinedSize) (handleTallyCommandAsync m).
Proof.
  assert (Ht : rejectsOnly (fun err => err = undefinedSize) (tallyAsync m)).
  { intros w err w' Hw. unfold tallyAsync in Hw. unfold bind at 1 in Hw. cbn [get] in Hw.
    pose proof (tally_cases (now w) (recent_list (recent w))) as Hc. cbv zeta in Hc.
    destruct (sort_by descending _) as [|this [|last rest]].
    - rewrite Hc in Hw. now injection Hw as <- _.
    - rewrite Hc in Hw. now injection Hw as <- _.
    - rewrite Hc in Hw.
      exact (rejectsOnly_bind (fun err => err = undefinedSize) _ _
               (rejectsOnly_createSpeechAsync _ _ _)
               (fun a => rejectsOnly_ret _ _) _ _ _ Hw). }
  unfold handleTallyCommandAsync, describeTallyHelp.
  destruct (field "command" m) as [c|]; [|exact Ht].
  destruct (text_eqb c (U "--help")); [apply rejectsOnly_createSpeechFromFileAsync | exact Ht].
Qed.

Lemma rejectsOnly_hSetNX (P : Error -> Prop) (k v : text) : rejectsOnly P (hSetNX k v).
Proof.
  intros w err w' Hw. unfold hSetNX in Hw.
  destruct (map_get k (keywordHash w)); discriminate.
Qed.

Lemma rejectsOnly_hDel (P : Error -> Prop) (k : text) : rejectsOnly P (hDel k).
Proof.
  intros w err w' Hw. unfold hDel in Hw.
  destruct (map_get k (keywordHash w)); discriminate.
Qed.

Lemma rejectsOnly_handleUserKeywordCommandAsync `{Collaborators} (m : Match) :
  rejectsOnly (fun err => err = notASpeech) (handleUserKeywordCommandAsync m).
Proof.
  unfold handleUserKeywordCommandAsync.
  destruct (inTemplate _); [|rejects_step].
  destruct (template _) as [[| | | |]|]; try rejects_step.
  - apply rejectsOnly_createSpeechFromFileAsync.
  - unfold listUserKeywordsAsync.
    destruct (_ || _); [rejects_step|]. rejects_step; [rejects_step|].
    destruct (_ =? _)%nat; [rejects_step|].
    unfold createUserKeywordsSpeechAsync. rejects_step; [rejects_step|].
    destruct (_ <=? _)%nat.
    + rejects_step; [apply rejectsOnly_createSpeechAsync | rejects_step].
    + rejects_step; [apply rejectsOnly_createSpeechAsync|].
      match goal with |- rejectsOnly _ (match ?s with _ => _ end) => destruct s end;
        [rejects_step | now apply rejectsOnly_throw].
  - unfold registerUserKeywordAsync. rejects_step.
    + destruct (_ && _); repeat rejects_step. apply rejectsOnly_hSetNX.
    + rejects_step; [|rejects_step]. destruct (endsWith _ _); rejects_step.
  - unfold unregisterUserKeywordAsync. rejects_step.
    + destruct (_ && _); repeat rejects_step. apply rejectsOnly_hDel.
    + rejects_step; [|rejects_step]. destruct (endsWith _ _); rejects_step.
Qed.

Lemma routeLoop_thrown (a : Pattern) (table : list Pattern) (t : text)
  (placeholder : bool) (w : World) (err : Error) (w' : World) :
  routeLoop (a :: table) t placeholder w = Thrown err w' ->
  (exists m, re_match (e a) t = Some m /\ f a m w = Thrown err w') \/
  (exists placeholder' w1, routeLoop table t placeholder' w1 = Thrown err w').
Proof.
  cbn [routeLoop]. unfold bind. destruct (re_match (e a) t) as [m|].
  - destruct (f a m w) as [[] w1 | err1 w1] eqn:Ef.
    + intros Hr. right. eexists. eexists. exact Hr.
    + intros [= <- <-]. left. exists m. now split.
  - cbn [ret]. intros Hr. right. eexists. eexists. exact Hr.
Qed.

(** X9.  The ways the router rejects: when
    [handleCanonicalCommandsAsync] rejects, either the message is a tally
    command and the error is the [TypeError] of [tally], or the message
    is a keyword command and the error is the [TypeError] of the keyword
    list, or the message is a dialogue and the dialogue handler
    rejected; the calculator, the help, the log listing and the
    translation never make it reject. *)
Theorem handleCanonicalCommandsAsync_rejects_in_three_ways
  (C : Collaborators) (t : text) (w : World) (err : Error) (w' : World) :
  handleCanonicalCommandsAsync t w = Thrown err w' ->
  (err = undefinedSize /\ re_match TallyRE t <> None) \/
  (err = notASpeech /\ re_match UserKeywordRE t <> None) \/
  (exists m w0, re_match DialogueRE t = Some m /\ dialogueAsync m w0 = Thrown err w').
Proof.
  unfold handleCanonicalCommandsAsync, route, patterns. intros Hr.
  apply routeLoop_thrown in Hr. cbn [e f] in Hr.
  destruct Hr as [[m [_ Hm]] | [p1 [w1 Hr]]].
  { exfalso. exact (rejectsOnly_calculateAsync (fun _ => False) m _ _ _ Hm). }
  apply routeLoop_thrown in Hr. cbn [e f] in Hr.
  destruct Hr as [[m [Hre Hm]] | [p2 [w2 Hr]]].
  { right. right. exists m, w1. now split. }
  apply routeLoop_thrown in Hr. cbn [e f] in Hr.
  destruct Hr as [[m [_ Hm]] | [p3 [w3 Hr]]].
  { exfalso.
    exact (rejectsOnly_createSpeechFromFileAsync (fun _ => False) _ _ _ _ Hm). }
  apply routeLoop_thrown in Hr. cbn [e f] in Hr.
  destruct Hr as [[m [_ Hm]] | [p4 [w4 Hr]]].
  { exfalso. exact (rejectsOnly_locateLogsAsync (fun _ => False) m _ _ _ Hm). }
  apply routeLoop_thrown in Hr. cbn [e f] in Hr.
  destruct Hr as [[m [Hre Hm]] | [p5 [w5 Hr]]].
  { left. split; [exact (rejectsOnly_handleTallyCommandAsync m _ _ _ Hm) | congruence]. }
  apply routeLoop_thrown in Hr. cbn [e f] in Hr.
  destruct Hr as [[m [_ Hm]] | [p6 [w6 Hr]]].
  { discriminate. }
  apply routeLoop_thrown in Hr. cbn [e f] in Hr.
  destruct Hr as [[m [Hre Hm]] | [p7 [w7 Hr]]].
  { right. left.
    split; [exact (rejectsOnly_handleUserKeywordCommandAsync m _ _ _ Hm) | congruence]. }
  discriminate.
Qed.

Lemma tally_command_rejects_at_start :
  @handleCanonicalCommandsAsync sampleCollaborators (U "集計") sampleWorld
  = Thrown undefinedSize sampleWorld.
Proof.
  unfold handleCanonicalCommandsAsync, route, patterns.
  do 4 (rewrite routeLoop_skips by (vm_compute; reflexivity)).
  rewrite (routeLoop_rejects _ _ _ _ {| m0 := U "集計"; index := 0; groups := [] |}
             undefinedSize sampleWorld sampleWorld);
    [reflexivity | vm_compute; reflexivity |].
  cbn [f]. unfold handleTallyCommandAsync.
  replace (field "command" _) with (@None text) by reflexivity.
  apply tallyAsync_rethrows. vm_compute. reflexivity.
Qed.

Lemma handleCanonicalCommandsAsync_rejects_in_three_ways_witness :
  @handleCanonicalCommandsAsync sampleCollaborators (U "集計") sampleWorld
  = Thrown undefinedSize sampleWorld /\
  re_match TallyRE (U "集計") <> None.
Proof.
  split; [exact tally_command_rejects_at_start|].
  destruct (handleCanonicalCommandsAsync_rejects_in_three_ways sampleCollaborators _ _ _ _
              tally_command_rejects_at_start)
    as [[_ Ht] | [[He _] | [m [w0 [_ Hd]]]]].
  - exact Ht.
  - vm_compute in He. discriminate.
  - discriminate.
Defined.

(** ** The keywords *)

Lemma startsWith_app (x y p : text) :
  (length p <= length x)%nat -> startsWith (x ++ y) p = startsWith x p.
Proof.
  revert x. induction p as [|c p IH]; intros x Hl.
  - destruct x, y; reflexivity.
  - destruct x as [|a x]; [cbn in Hl; lia|].
    cbn [app startsWith]. rewrite IH; [reflexivity | cbn in Hl; lia].
Qed.

Lemma endsWith_app (a b s : text) :
  (length s <= length b)%nat -> endsWith (a ++ b) s = endsWith b s.
Proof.
  intros Hl. unfold endsWith. rewrite rev_app_distr.
  apply startsWith_app. now rewrite !length_rev.
Qed.

Lemma endsWith_done (prefix : text) :
  endsWith (U "[Bot] キーワード" ++ prefix ++ U "を登録しました") (U "を登録しました") = true /\
  endsWith (U "[Bot] キーワード" ++ prefix ++ U "は既に登録されています") (U "を登録しました") = false /\
  endsWith (U "[Bot] キーワード" ++ prefix ++ U "の構文が正しくありません") (U "を登録しました") = false /\
  endsWith (U "[Bot] キーワード" ++ prefix ++ U "を登録解除しました") (U "を登録解除しました") = true /\
  endsWith (U "[Bot] キーワード" ++ prefix ++ U "は未登録です") (U "を登録解除しました") = false /\
  endsWith (U "[Bot] キーワード" ++ prefix ++ U "の構文が正しくありません") (U "を登録解除しました") = false.
Proof.
  rewrite !(app_assoc (U "[Bot] キーワード") prefix).
  repeat split.
  1-4, 6: rewrite endsWith_app; vm_compute; (reflexivity || lia).
  generalize (U "[Bot] キーワード" ++ prefix) as a. intros a.
  unfold endsWith. rewrite rev_app_distr.
  replace (rev (U "は未登録です")) with [12377; 12391; 37682; 30331; 26410; 12399]
    by (vm_compute; reflexivity).
  replace (rev (U "を登録解除しました")) with
    [12383; 12375; 12414; 12375; 38500; 35299; 37682; 30331; 12434]
    by (vm_compute; reflexivity).
  reflexivity.
Qed.

Lemma registerUserKeywordAsync_cases (m : Match) (w : World) :
  registerUserKeywordAsync m w =
  if truthy (field "name" m) && truthy (field "value" m) then
    match map_get (show (field "name" m)) (keywordHash w) with
    | Some _ =>
        Returned tt
          (with_sent (sent w ++ [keywordReply (show (field "name" m))
                                   (U "は既に登録されています")]) w)
    | None =>
        Returned tt
          (with_sent (sent w ++ [keywordReply (show (field "name" m))
                                   (U "を登録しました")])
             (with_userKeywords (set_add (show (field "name" m)) (userKeywords w))
                (with_keywordHash
                   (map_set (show (field "name" m)) (show (field "value" m))
                            (keywordHash w)) w)))
    end
  else Returned tt (with_sent (sent w ++ [syntaxComplaint (field "command" m)]) w).
Proof.
  unfold registerUserKeywordAsync, keywordReply, syntaxComplaint.
  destruct (truthy (field "name" m) && truthy (field "value" m)).
  - unfold bind at 1. unfold bind at 1. unfold hSetNX.
    destruct (map_get (show (field "name" m)) (keywordHash w)).
    + cbn [ret]. unfold bind at 1.
      destruct (endsWith_done ([32; quote] ++ show (field "name" m) ++ [quote; 32]))
        as [_ [He _]].
      rewrite <- !app_assoc in He. cbn [app] in *. rewrite He.
      reflexivity.
    + cbn [ret]. unfold bind at 1.
      destruct (endsWith_done ([32; quote] ++ show (field "name" m) ++ [quote; 32]))
        as [He _].
      rewrite <- !app_assoc in He. cbn [app] in *. rewrite He.
      reflexivity.
  - unfold bind at 1. cbn [ret]. unfold bind at 1.
    destruct (endsWith_done (show (field "command" m))) as [_ [_ [He _]]].
    rewrite He. reflexivity.
Qed.

Lemma unregisterUserKeywordAsync_cases (m : Match) (w : World) :
  unregisterUserKeywordAsync m w =
  if truthy (field "name" m) && negb (truthy (field "value" m)) then
    match map_get (show (field "name" m)) (keywordHash w) with
    | Some _ =>
        Returned tt
          (with_sent (sent w ++ [keywordReply (show (field "name" m))
                                   (U "を登録解除しました")])
             (with_userKeywords (set_delete (show (field "name" m)) (userKeywords w))
                (with_keywordHash
                   (map_delete (show (field "name" m)) (keywordHash w)) w)))
    | None =>
        Returned tt
          (with_sent (sent w ++ [keywordReply (show (field "name" m))
                                   (U "は未登録です")]) w)
    end
  else Returned tt (with_sent (sent w ++ [syntaxComplaint (field "command" m)]) w).
Proof.
  unfold unregisterUserKeywordAsync, keywordReply, syntaxComplaint.
  destruct (truthy (field "name" m) && negb (truthy (field "value" m))).
  - unfold bind at 1. unfold bind at 1. unfold hDel.
    destruct (map_get (show (field "name" m)) (keywordHash w)).
    + cbn [ret]. unfold bind at 1.
      destruct (endsWith_done ([32; quote] ++ show (field "name" m) ++ [quote; 32]))
        as [_ [_ [_ [He _]]]].
      rewrite <- !app_assoc in He. cbn [app] in *. rewrite He.
      reflexivity.
    + cbn [ret]. unfold bind at 1.
      destruct (endsWith_done ([32; quote] ++ show (field "name" m) ++ [quote; 32]))
        as [_ [_ [_ [_ [He _]]]]].
      rewrite <- !app_assoc in He. cbn [app] in *. rewrite He.
      reflexivity.
  - unfold bind at 1. cbn [ret]. unfold bind at 1.
    destruct (endsWith_done (show (field "command" m))) as [_ [_ [_ [_ [_ He]]]]].
    rewrite He. reflexivity.
Qed.

Section MapDeleteFacts.
Context {K V : Type} `{SameValueZero K}.
Hypothesis same_spec : forall a b : K, same a b = true <-> a = b.

Lemma map_keys_delete (k k' : K) (m : JsMap K V) :
  NoDup (map_keys m) ->
  (In k' (map_keys (map_delete k m)) <-> k' <> k /\ In k' (map_keys m)).
Proof.
  induction m as [|[k0 v0] m IH]; intros Hn; cbn.
  - tauto.
  - cbn in Hn. inversion Hn as [|? ? Hk0 Hn']; subst.
    destruct (same k k0) eqn:E.
    + apply same_spec in E. subst k0. split.
      * intros Hin. split; [|now right]. intros ->. contradiction.
      * intros [Hne [-> | Hin]]; [contradiction | assumption].
    + cbn. rewrite (IH Hn'). split.
      * intros [-> | [Hne Hin]].
        -- split; [|now left]. intros ->. rewrite (same_refl same_spec) in E.
           discriminate.
        -- split; [assumption | now right].
      * intros [Hne [-> | Hin]]; [now left | right; now split].
Qed.

Lemma map_delete_nodup (k : K) (m : JsMap K V) :
  NoDup (map_keys m) -> NoDup (map_keys (map_delete k m)).
Proof.
  induction m as [|[k0 v0] m IH]; intros Hn; cbn; [constructor|].
  cbn in Hn. inversion Hn as [|? ? Hk0 Hn']; subst.
  destruct (same k k0); [assumption|]. cbn. constructor; [|now apply IH].
  intros Hin. apply (map_keys_delete k k0 m Hn') in Hin. tauto.
Qed.

Lemma map_get_delete_other (k k' : K) (m : JsMap K V) :
  k <> k' -> map_get k' (map_delete k m) = map_get k' m.
Proof.
  intros Hne. induction m as [|[k0 v0] m IH]; cbn; [reflexivity|].
  destruct (same k k0) eqn:E.
  - apply same_spec in E. subst k0.
    rewrite (same_neq same_spec k' k); [reflexivity | congruence].
  - cbn. now rewrite IH.
Qed.

Lemma map_delete_set_fresh (k : K) (v : V) (m : JsMap K V) :
  map_get k m = None -> map_delete k (map_set k v m) = m.
Proof.
  induction m as [|[k0 v0] m IH]; cbn.
  - intros _. now rewrite (same_refl same_spec).
  - destruct (same k k0) eqn:E; [discriminate|]. intros Hg. cbn. rewrite E.
    now rewrite IH.
Qed.

End MapDeleteFacts.

Lemma set_delete_in (x y : text) (s : JsSet) :
  In y (set_delete x s) <-> y <> x /\ In y s.
Proof.
  unfold set_delete. rewrite filter_In. split.
  - intros [Hin Hne]. split; [|assumption]. intros ->.
    rewrite text_eqb_refl in Hne. discriminate.
  - intros [Hne Hin]. split; [assumption|].
    destruct (text_eqb x y) eqn:E; [|reflexivity].
    apply text_eqb_eq in E. congruence.
Qed.

Lemma set_add_in (x y : text) (s : JsSet) : In y (set_add x s) <-> y = x \/ In y s.
Proof.
  rewrite <- !set_has_in. apply set_has_add.
Qed.

Lemma set_add_nodup (x : text) (s : JsSet) : NoDup s -> NoDup (set_add x s).
Proof.
  intros Hn. unfold set_add. destruct (set_has x s) eqn:E; [assumption|].
  rewrite <- (app_nil_r (s ++ [x])), <- app_assoc. apply NoDup_insert.
  - now rewrite app_nil_r.
  - rewrite app_nil_r. intros Hin. apply set_has_in in Hin. congruence.
Qed.

Lemma set_delete_add_fresh (x : text) (s : JsSet) :
  ~ In x s -> set_delete x (set_add x s) = s.
Proof.
  intros Hx. unfold set_add.
  destruct (set_has x s) eqn:E; [apply set_has_in in E; contradiction|].
  unfold set_delete. rewrite filter_app. cbn. rewrite text_eqb_refl. cbn.
  rewrite app_nil_r. apply forallb_filter_id. apply forallb_forall.
  intros y Hy. destruct (text_eqb x y) eqn:Ey; [|reflexivity].
  apply text_eqb_eq in Ey. congruence.
Qed.

Lemma for_of_add_keys (keys : list text) :
  forall w,
    for_of keys
      (fun keyword =>
         modify (fun w => with_userKeywords (set_add keyword (userKeywords w)) w)) w
    = Returned tt
        (with_userKeywords (fold_left (fun s k => set_add k s) keys (userKeywords w)) w).
Proof.
  induction keys as [|k keys IH]; intros w; cbn [for_of fold_left].
  - now destruct w.
  - unfold bind, modify. rewrite IH. reflexivity.
Qed.

Lemma fold_set_add_fresh (keys : list text) :
  forall s, NoDup (s ++ keys) -> fold_left (fun s k => set_add k s) keys s = s ++ keys.
Proof.
  induction keys as [|k keys IH]; intros s Hn; cbn [fold_left].
  - now rewrite app_nil_r.
  - assert (Hk : set_has k s = false).
    { destruct (set_has k s) eqn:E; [|reflexivity]. apply set_has_in in E.
      apply NoDup_remove_2 in Hn. exfalso. apply Hn. apply in_or_app. now left. }
    unfold set_add at 2. rewrite Hk.
    rewrite IH; rewrite <- app_assoc; [reflexivity | exact Hn].
Qed.

(** X10.  What [queryUserKeywordsAsync] leaves: the set of keywords
    holds the fields of the hash, in the order of the hash and each once,
    whatever it held before; the hash is not changed. *)
Theorem queryUserKeywordsAsync_reads_the_hash (w : World) :
  NoDup (map_keys (keywordHash w)) ->
  exists w',
    queryUserKeywordsAsync w = Returned tt w' /\
    userKeywords w' = map_keys (keywordHash w) /\
    keywordHash w' = keywordHash w /\
    inStep w'.
Proof.
  intros Hn. unfold queryUserKeywordsAsync, hKeys.
  unfold bind at 1. unfold modify at 1. unfold bind at 1. unfold bind at 1.
  cbn [get ret keywordHash with_userKeywords]. rewrite for_of_add_keys.
  cbn [userKeywords with_userKeywords].
  rewrite (fold_set_add_fresh _ [] Hn). cbn [app].
  eexists. split; [reflexivity|]. cbn. repeat split; auto.
Qed.

Lemma queryUserKeywordsAsync_reads_the_hash_witness :
  let w := with_userKeywords [U "stale"]
             (with_keywordHash [(U "foo", U "bar"); (U "baz", U "qux")] sampleWorld) in
  NoDup (map_keys (keywordHash w)) /\
  exists w', queryUserKeywordsAsync w = Returned tt w' /\
             userKeywords w' = [U "foo"; U "baz"].
Proof.
  cbv zeta.
  assert (Hn : NoDup (map_keys (keywordHash
                 (with_userKeywords [U "stale"]
                    (with_keywordHash [(U "foo", U "bar"); (U "baz", U "qux")]
                       sampleWorld))))).
  { repeat constructor; cbn; intuition discriminate. }
  split; [exact Hn|].
  destruct (queryUserKeywordsAsync_reads_the_hash _ Hn) as [w' [Hq [Hk _]]].
  exists w'. split; [exact Hq | exact Hk].
Defined.

Lemma inStep_frame (w w' : World) :
  keywordHash w' = keywordHash w -> userKeywords w' = userKeywords w ->
  inStep w -> inStep w'.
Proof. unfold inStep. intros -> ->. trivial. Qed.

Lemma registerUserKeywordAsync_inStep (m : Match) (w : World) :
  inStep w -> inStep (world_of (registerUserKeywordAsync m w)).
Proof.
  intros Hw. rewrite registerUserKeywordAsync_cases.
  destruct (_ && _); [|exact Hw].
  destruct (map_get _ _) eqn:Hg; [exact Hw|].
  destruct Hw as [Hh [Hu Hin]]. unfold inStep.
  cbn [world_of with_sent with_userKeywords with_keywordHash keywordHash userKeywords].
  split; [apply (map_set_nodup same_text_spec); assumption|].
  split; [now apply set_add_nodup|].
  intros k. rewrite set_add_in, (map_keys_set same_text_spec), Hg, in_app_iff, Hin.
  cbn. intuition.
Qed.

Lemma unregisterUserKeywordAsync_inStep (m : Match) (w : World) :
  inStep w -> inStep (world_of (unregisterUserKeywordAsync m w)).
Proof.
  intros Hw. rewrite unregisterUserKeywordAsync_cases.
  destruct (_ && _); [|exact Hw].
  destruct (map_get _ _) eqn:Hg; [|exact Hw].
  destruct Hw as [Hh [Hu Hin]]. unfold inStep.
  cbn [world_of with_sent with_userKeywords with_keywordHash keywordHash userKeywords].
  split; [apply (map_delete_nodup same_text_spec); assumption|].
  split; [unfold set_delete; now apply NoDup_filter|].
  intros k. rewrite set_delete_in, (map_keys_delete same_text_spec) by assumption.
  now rewrite Hin.
Qed.

Lemma createSpeechAsync_keywords `{Collaborators} (t : text) (remark : bool) (w : World) :
  keywordHash (world_of (createSpeechAsync t remark w)) = keywordHash w /\
  userKeywords (world_of (createSpeechAsync t remark w)) = userKeywords w.
Proof.
  unfold createSpeechAsync, bind, get.
  destruct (uploadToGistAsync t) as [[gist rawUrl]|]; [destruct remark|]; split; reflexivity.
Qed.

Lemma createSpeechFromFileAsync_keywords `{Collaborators} (path : text) (w : World) :
  keywordHash (world_of (createSpeechFromFileAsync path w)) = keywordHash w /\
  userKeywords (world_of (createSpeechFromFileAsync path w)) = userKeywords w.
Proof.
  unfold createSpeechFromFileAsync, createSpeechAsync, bind, get.
  destruct (readFile path) as [t|]; [|now split].
  destruct (uploadToGistAsync _) as [[gist rawUrl]|]; split; reflexivity.
Qed.

Lemma listUserKeywordsAsync_keywords `{Collaborators} (m : Match) (w : World) :
  keywordHash (world_of (listUserKeywordsAsync m w)) = keywordHash w /\
  userKeywords (world_of (listUserKeywordsAsync m w)) = userKeywords w.
Proof.
  unfold listUserKeywordsAsync, createUserKeywordsSpeechAsync, createSpeechAsync,
    bind, get.
  destruct (_ || _); [now split|].
  destruct (_ =? _)%nat; [now split|].
  destruct (_ <=? _)%nat;
    destruct (uploadToGistAsync _) as [[gist rawUrl]|]; split; reflexivity.
Qed.

(** X11.  The keyword command keeps the set of keywords in step with the
    hash: whatever the command binds, after
    [handleUserKeywordCommandAsync] the set holds the fields of the hash,
    each once, if it did before. *)
Theorem handleUserKeywordCommandAsync_keeps_in_step
  (C : Collaborators) (m : Match) (w : World) :
  inStep w -> inStep (world_of (handleUserKeywordCommandAsync m w)).
Proof.
  intros Hw. unfold handleUserKeywordCommandAsync.
  destruct (inTemplate _); [|exact Hw].
  destruct (template _) as [[| | | |]|]; try exact Hw.
  - unfold describeUserKeywordAsync.
    destruct (createSpeechFromFileAsync_keywords (U "templates/keyword/help.txt") w).
    now apply (inStep_frame w).
  - destruct (listUserKeywordsAsync_keywords m w). now apply (inStep_frame w).
  - now apply registerUserKeywordAsync_inStep.
  - now apply unregisterUserKeywordAsync_inStep.
Qed.

Lemma inStep_sampleWorld : inStep sampleWorld.
Proof.
  repeat split; try (repeat constructor; cbn; intuition discriminate); trivial.
Qed.

Lemma handleUserKeywordCommandAsync_keeps_in_step_witness :
  let m := keywordCommand (Some (U "登録")) (Some (U "baz")) (Some (U "qux")) in
  inStep sampleWorld /\
  inStep (world_of (@handleUserKeywordCommandAsync sampleCollaborators m sampleWorld)) /\
  userKeywords (world_of (@handleUserKeywordCommandAsync sampleCollaborators m sampleWorld))
  = [U "foo"; U "baz"].
Proof.
  cbv zeta. split; [exact inStep_sampleWorld|]. split.
  - exact (handleUserKeywordCommandAsync_keeps_in_step sampleCollaborators _ sampleWorld
             inStep_sampleWorld).
  - vm_compute. reflexivity.
Defined.

Lemma for_of_replies (keywords : list text) :
  forall w,
    for_of keywords
      (fun keyword =>
         w <- get ;; sendAsync (U "[Bot] " ++ show (map_get keyword (keywordHash w)))) w
    = Returned tt (with_sent (sent w ++ map (replyOf w) keywords) w).
Proof.
  induction keywords as [|k keywords IH]; intros w; cbn [for_of map].
  - rewrite app_nil_r. now destruct w.
  - unfold bind at 1. unfold bind at 1. cbn [get]. unfold sendAsync at 1, modify at 1.
    rewrite IH. unfold replyOf.
    cbn [sent keywordHash with_sent]. rewrite <- app_assoc. reflexivity.
Qed.

Lemma testUserKeywordsAsync_cases `{Collaborators} (matched : Match) (w : World) :
  testUserKeywordsAsync matched w =
  Returned tt
    (if shouldBeIgnored matched then w
     else with_sent
            (sent w ++ map (replyOf w)
                           (filter (includes (show (field "msg" matched)))
                                   (userKeywords w))) w).
Proof.
  unfold testUserKeywordsAsync. destruct (shouldBeIgnored matched); [reflexivity|].
  cbn [negb]. unfold bind at 1. cbn [get]. apply for_of_replies.
Qed.


Lemma includes_refl_app (a n b : text) : includes (a ++ n ++ b) n = true.
Proof.
  induction a as [|c a IH]; cbn [app].
  - assert (Hs : forall (n b : text), startsWith (n ++ b) n = true).
    { clear. induction n as [|c n IH]; intros b; [now destruct b|].
      cbn. now rewrite N.eqb_refl, IH. }
    destruct (n ++ b) eqn:E; cbn [includes]; rewrite <- E, Hs; reflexivity.
  - cbn [includes]. rewrite IH. apply orb_true_r.
Qed.

(** X13.  A keyword that is registered is answered: when the command
    binds a name the hash does not hold and a value,
    [registerUserKeywordAsync] stores the value under the name, leaves the
    other fields alone and confirms; afterwards a message that includes
    the name, and is not ignored, gets the value as a reply. *)
Theorem registered_keyword_is_answered (C : Collaborators) (m matched : Match)
  (name value : text) (w : World) :
  field "name" m = Some name -> field "value" m = Some value ->
  name <> [] -> value <> [] ->
  map_get name (keywordHash w) = None ->
  includes (show (field "msg" matched)) name = true ->
  shouldBeIgnored matched = false ->
  exists w' w'',
    registerUserKeywordAsync m w = Returned tt w' /\
    map_get name (keywordHash w') = Some value /\
    (forall k, k <> name -> map_get k (keywordHash w') = map_get k (keywordHash w)) /\
    In name (userKeywords w') /\
    sent w' = sent w ++ [keywordReply name (U "を登録しました")] /\
    testUserKeywordsAsync matched w' = Returned tt w'' /\
    In (U "[Bot] " ++ value) (sent w'').
Proof.
  intros Hn Hv Hn0 Hv0 Hg Hi Hs.
  rewrite registerUserKeywordAsync_cases, Hn, Hv. cbn [show].
  assert (Ht : truthy (Some name) && truthy (Some value) = true).
  { destruct name, value; try congruence. reflexivity. }
  rewrite Ht, Hg. eexists. eexists. split; [reflexivity|].
  cbn [keywordHash userKeywords sent with_sent with_userKeywords with_keywordHash].
  split; [apply (map_get_set_same same_text_spec)|].
  split; [intros k Hk; apply (map_get_set_other same_text_spec); congruence|].
  split; [apply set_add_in; now left|].
  split; [reflexivity|].
  rewrite testUserKeywordsAsync_cases, Hs. split; [reflexivity|].
  cbn [sent with_sent userKeywords with_userKeywords]. apply in_or_app. right.
  apply in_map_iff. exists name. split.
  - unfold replyOf. cbn [keywordHash with_sent with_userKeywords with_keywordHash].
    now rewrite (map_get_set_same same_text_spec).
  - apply filter_In. split; [apply set_add_in; now left | exact Hi].
Qed.

Lemma registered_keyword_is_answered_witness :
  let m := keywordCommand (Some (U "登録")) (Some (U "hello")) (Some (U "hi there")) in
  let matched := framed "hello foo" "11/15 (水)" "07:13:21" "g*.example.jp" in
  exists w' w'',
    registerUserKeywordAsync m sampleWorld = Returned tt w' /\
    @testUserKeywordsAsync sampleCollaborators matched w' = Returned tt w'' /\
    In (U "[Bot] " ++ U "hi there") (sent w'').
Proof.
  cbv zeta.
  destruct (registered_keyword_is_answered sampleCollaborators
              (keywordCommand (Some (U "登録")) (Some (U "hello")) (Some (U "hi there")))
              (framed "hello foo" "11/15 (水)" "07:13:21" "g*.example.jp")
              (U "hello") (U "hi there") sampleWorld)
    as [w' [w'' [H1 [_ [_ [_ [_ [H2 H3]]]]]]]];
    try (vm_compute; reflexivity); try (vm_compute; discriminate).
  exists w', w''. repeat split; assumption.
Defined.

(** X14.  A registration does not overwrite and a removal needs its
    keyword: registering a name the hash holds changes neither the hash
    nor the set and answers that it is registered already; removing a
    name the hash does not hold changes nothing either and answers that
    it is not registered. *)
Theorem keyword_commands_refuse_without_change (m : Match) (name : text) (w : World) :
  field "name" m = Some name -> name <> [] ->
  (forall value old,
     field "value" m = Some value -> value <> [] ->
     map_get name (keywordHash w) = Some old ->
     registerUserKeywordAsync m w
     = Returned tt
         (with_sent (sent w ++ [keywordReply name (U "は既に登録されています")]) w)) /\
  (field "value" m = None ->
   map_get name (keywordHash w) = None ->
   unregisterUserKeywordAsync m w
   = Returned tt (with_sent (sent w ++ [keywordReply name (U "は未登録です")]) w)).
Proof.
  intros Hn Hn0. split.
  - intros value old Hv Hv0 Hg.
    rewrite registerUserKeywordAsync_cases, Hn, Hv. cbn [show]. rewrite Hg.
    destruct name, value; try congruence. reflexivity.
  - intros Hv Hg.
    rewrite unregisterUserKeywordAsync_cases, Hn, Hv. cbn [show]. rewrite Hg.
    destruct name; try congruence. reflexivity.
Qed.

Lemma keyword_commands_refuse_without_change_witness :
  registerUserKeywordAsync
    (keywordCommand (Some (U "登録")) (Some (U "foo")) (Some (U "other"))) sampleWorld
  = Returned tt
      (with_sent (sent sampleWorld ++ [keywordReply (U "foo") (U "は既に登録されています")])
                 sampleWorld) /\
  unregisterUserKeywordAsync
    (keywordCommand (Some (U "解除")) (Some (U "baz")) None) sampleWorld
  = Returned tt
      (with_sent (sent sampleWorld ++ [keywordReply (U "baz") (U "は未登録です")])
                 sampleWorld).
Proof.
  split.
  - apply (proj1 (keyword_commands_refuse_without_change
                    (keywordCommand (Some (U "登録")) (Some (U "foo")) (Some (U "other")))
                    (U "foo") sampleWorld ltac:(vm_compute; reflexivity)
                    ltac:(vm_compute; discriminate))
             (U "other") (U "bar"));
      try (vm_compute; reflexivity); vm_compute; discriminate.
  - apply (proj2 (keyword_commands_refuse_without_change
                    (keywordCommand (Some (U "解除")) (Some (U "baz")) None)
                    (U "baz") sampleWorld ltac:(vm_compute; reflexivity)
                    ltac:(vm_compute; discriminate)));
      vm_compute; reflexivity.
Defined.

(** X15.  Registering a keyword and removing it again brings the
    keywords back: for a name the hash does not hold, and a set in step
    with the hash, [registerUserKeywordAsync] followed by
    [unregisterUserKeywordAsync] of the same name leaves the hash and the
    set as they were, and sends the two confirmations. *)
Theorem register_then_unregister_restores (m m' : Match) (name value : text)
  (w : World) :
  inStep w ->
  field "name" m = Some name -> field "value" m = Some value ->
  field "name" m' = Some name -> field "value" m' = None ->
  name <> [] -> value <> [] ->
  map_get name (keywordHash w) = None ->
  exists w',
    (registerUserKeywordAsync m ;; unregisterUserKeywordAsync m') w = Returned tt w' /\
    keywordHash w' = keywordHash w /\
    userKeywords w' = userKeywords w /\
    sent w' = sent w ++ [keywordReply name (U "を登録しました");
                         keywordReply name (U "を登録解除しました")].
Proof.
  intros [Hh [Hu Hin]] Hn Hv Hn' Hv' Hn0 Hv0 Hg.
  unfold bind. rewrite registerUserKeywordAsync_cases, Hn, Hv. cbn [show].
  assert (Ht : truthy (Some name) && truthy (Some value) = true).
  { destruct name, value; try congruence. reflexivity. }
  rewrite Ht, Hg. rewrite unregisterUserKeywordAsync_cases, Hn', Hv'. cbn [show].
  assert (Ht' : truthy (Some name) && negb (truthy None) = true).
  { destruct name; try congruence. reflexivity. }
  rewrite Ht'.
  cbn [keywordHash userKeywords sent with_sent with_userKeywords with_keywordHash].
  rewrite (map_get_set_same same_text_spec).
  eexists. split; [reflexivity|].
  cbn [keywordHash userKeywords sent with_sent with_userKeywords with_keywordHash].
  split; [apply (map_delete_set_fresh same_text_spec); exact Hg|].
  split.
  - apply set_delete_add_fresh. intros Hx. apply Hin in Hx.
    apply (map_get_none same_text_spec) in Hg. contradiction.
  - now rewrite <- app_assoc.
Qed.

Lemma register_then_unregister_restores_witness :
  let m := keywordCommand (Some (U "登録")) (Some (U "baz")) (Some (U "qux")) in
  let m' := keywordCommand (Some (U "解除")) (Some (U "baz")) None in
  inStep sampleWorld /\
  exists w',
    (registerUserKeywordAsync m ;; unregisterUserKeywordAsync m') sampleWorld
    = Returned tt w' /\
    keywordHash w' = keywordHash sampleWorld /\
    userKeywords w' = userKeywords sampleWorld.
Proof.
  cbv zeta. split; [exact inStep_sampleWorld|].
  destruct (register_then_unregister_restores
              (keywordCommand (Some (U "登録")) (Some (U "baz")) (Some (U "qux")))
              (keywordCommand (Some (U "解除")) (Some (U "baz")) None)
              (U "baz") (U "qux") sampleWorld inStep_sampleWorld)
    as [w' [H1 [H2 [H3 _]]]];
    try (vm_compute; reflexivity); try (vm_compute; discriminate).
  exists w'. repeat split; assumption.
Defined.

Lemma createUserKeywordsSpeechAsync_lines `{Collaborators} (command : option text)
  (keywords : JsMap text text) (w : World) :
  createUserKeywordsSpeechAsync command keywords w =
  (if (length (keywordLines (now w) keywords) <=? 30)%nat
   then createSpeechAsync (join [10] (keywordLines (now w) keywords)) true ;; ret tt
   else
     speech <- createSpeechAsync (join [10] (keywordLines (now w) keywords)) false ;;
     match speech with
     | Some sp =>
         sendAsync (U "[Bot] キーワード" ++ show command ++ U "を" ++ url sp
                      ++ U "に置きました,期限" ++ toLocaleString (expiresAt sp))
     | None => throw notASpeech
     end) w.
Proof. reflexivity. Qed.

(** X16.  The list of keywords rejects in one case only:
    [createUserKeywordsSpeechAsync] throws, a [TypeError], exactly when
    there are more than 28 keywords and the gist is not created; the
    notice of the failure has been sent by then.  With 28 keywords or
    fewer it returns whether the gist is created or not. *)
Theorem createUserKeywordsSpeechAsync_rejects_only_a_long_list
  (C : Collaborators) (command : option text) (keywords : JsMap text text) (w : World) :
  let listing := join [10] (keywordLines (now w) keywords) in
  ((exists err w', createUserKeywordsSpeechAsync command keywords w = Thrown err w') <->
   (28 < length keywords)%nat /\ uploadToGistAsync listing = None) /\
  ((28 < length keywords)%nat -> uploadToGistAsync listing = None ->
   createUserKeywordsSpeechAsync command keywords w
   = Thrown notASpeech (with_sent (sent w ++ [U "[Bot] 大演説の生成に失敗しました"]) w)).
Proof.
  intros listing. rewrite createUserKeywordsSpeechAsync_lines. fold listing.
  assert (Hlen : length (keywordLines (now w) keywords) = (2 + length keywords)%nat).
  { unfold keywordLines. cbn [app length]. now rewrite length_map. }
  rewrite Hlen. unfold createSpeechAsync, bind, get.
  destruct (2 + length keywords <=? 30)%nat eqn:Hle.
  - apply Nat.leb_le in Hle. split.
    + split; [|lia]. intros [err [w' Ht]].
      destruct (uploadToGistAsync listing) as [[gist rawUrl]|]; discriminate.
    + lia.
  - apply Nat.leb_gt in Hle. split.
    + split.
      * intros [err [w' Ht]]. split; [lia|].
        destruct (uploadToGistAsync listing) as [[gist rawUrl]|]; [discriminate|reflexivity].
      * intros [_ Hu]. rewrite Hu. eexists. eexists. reflexivity.
    + intros _ Hu. rewrite Hu. reflexivity.
Qed.

(** ** What a pattern consumes *)

Lemma rounds_derives (a : regex)
  (IHa : forall s k res,
      run a s k = Some res ->
      exists x s', rest s = x ++ rest s' /\ pos s' = (pos s + length x)%nat /\
                   derives a (pos s) x (rest s') /\
                   (names_of a = [] -> caps s' = caps s) /\ k s' = Some res)
  (fuel : nat) :
  forall min max s k res,
    rounds (run a) (names_of a) fuel min max s k = Some res ->
    exists pieces s',
      rest s = concat pieces ++ rest s' /\
      pos s' = (pos s + length (concat pieces))%nat /\
      (lower min max <= length pieces)%nat /\ within (length pieces) max /\
      pieces_ok (derives a) (pos s) pieces (rest s') /\
      (names_of a = [] -> caps s' = caps s) /\ k s' = Some res.
Proof.
  induction fuel as [|fuel IH]; intros min max s k res Hrun; [discriminate|].
  assert (Hstop : (lower min max = 0)%nat -> k s = Some res ->
                  exists pieces s',
                    rest s = concat pieces ++ rest s' /\
                    pos s' = (pos s + length (concat pieces))%nat /\
                    (lower min max <= length pieces)%nat /\
                    within (length pieces) max /\
                    pieces_ok (derives a) (pos s) pieces (rest s') /\
                    (names_of a = [] -> caps s' = caps s) /\
                    k s' = Some res).
  { intros Hl Hk. exists [], s. cbn. rewrite Hl.
    repeat split; try lia; try assumption. destruct max; cbn; lia. }
  assert (Hmore : max <> Some 0%nat ->
            forall y,
            run a (clear (names_of a) s)
              (fun s' => if (min =? 0)%nat && (pos s' =? pos s)%nat then None
                         else rounds (run a) (names_of a) fuel (Nat.pred min)
                                (pred_max max) s' k) = Some y -> y = res ->
            exists pieces s',
              rest s = concat pieces ++ rest s' /\
              pos s' = (pos s + length (concat pieces))%nat /\
              (lower min max <= length pieces)%nat /\
              within (length pieces) max /\
              pieces_ok (derives a) (pos s) pieces (rest s') /\
              (names_of a = [] -> caps s' = caps s) /\
              k s' = Some res).
  { intros Hmax y Hx ->. apply IHa in Hx.
    destruct Hx as [x [s1 [Hr [Hp [Hd [Hc Hk]]]]]].
    cbn [clear rest pos] in Hr, Hp, Hd.
    destruct ((min =? 0)%nat && (pos s1 =? pos s)%nat); [discriminate|].
    apply IH in Hk.
    destruct Hk as [pieces [s' [Hr' [Hp' [Hlo [Hwi [Hok [Hc' Hk]]]]]]]].
    exists (x :: pieces), s'. cbn [concat length pieces_ok].
    split; [rewrite <- app_assoc; now rewrite <- Hr'|].
    split; [rewrite length_app; lia|].
    split; [|split; [|split; [|split; [|exact Hk]]]].
    - destruct max as [[|m]|]; cbn in *; try congruence; lia.
    - destruct max as [[|m]|]; cbn in *; try congruence; lia.
    - split; [now rewrite <- Hr' | now rewrite <- Hp].
    - intros Hnames. rewrite (Hc' Hnames), (Hc Hnames), Hnames. reflexivity. }
  cbn [rounds] in Hrun.
  destruct max as [[|m]|].
  - apply Hstop; [cbn; lia | exact Hrun].
  - destruct min as [|min].
    + destruct (run a (clear (names_of a) s) _) as [y|] eqn:Hy.
      * injection Hrun as ->. apply (Hmore ltac:(discriminate) res); reflexivity.
      * apply Hstop; [reflexivity | exact Hrun].
    + apply (Hmore ltac:(discriminate) res); [exact Hrun | reflexivity].
  - destruct min as [|min].
    + destruct (run a (clear (names_of a) s) _) as [y|] eqn:Hy.
      * injection Hrun as ->. apply (Hmore ltac:(discriminate) res); reflexivity.
      * apply Hstop; [reflexivity | exact Hrun].
    + apply (Hmore ltac:(discriminate) res); [exact Hrun | reflexivity].
Qed.

(** The matcher is sound for [derives]: what it hands to its
    continuation lies behind a text the pattern can consume, with the
    captures untouched when the pattern names no group. *)
Lemma run_derives (r : regex) :
  forall s k res,
    run r s k = Some res ->
    exists x s', rest s = x ++ rest s' /\ pos s' = (pos s + length x)%nat /\
                 derives r (pos s) x (rest s') /\
                 (names_of r = [] -> caps s' = caps s) /\ k s' = Some res.
Proof.
  induction r as [| cs |a IHa b IHb|a IHa b IHb|min max a IHa|name a IHa| |];
    intros s k res Hrun.
  - exists [], s. cbn. repeat split; try lia. exact Hrun.
  - cbn in Hrun. destruct (rest s) as [|c t] eqn:Hrest; [discriminate|].
    destruct (cs c) eqn:Hc; [|discriminate].
    exists [c], (advance s t). cbn. repeat split; try lia; try assumption.
    exists c. now split.
  - cbn [run] in Hrun. apply IHa in Hrun.
    destruct Hrun as [y [s1 [Hr1 [Hp1 [Hd1 [Hc1 Hrun]]]]]].
    apply IHb in Hrun. destruct Hrun as [z [s2 [Hr2 [Hp2 [Hd2 [Hc2 Hk]]]]]].
    exists (y ++ z), s2. rewrite length_app, <- app_assoc, <- Hr2.
    split; [exact Hr1|]. split; [lia|]. split; [|split; [|exact Hk]].
    + exists y, z. split; [reflexivity|].
      split; [now rewrite <- Hr2 | now rewrite <- Hp1].
    + cbn [names_of]. intros Hn. apply app_eq_nil in Hn. destruct Hn as [Ha Hb].
      now rewrite (Hc2 Hb), (Hc1 Ha).
  - cbn [run] in Hrun. cbn [names_of]. destruct (run a s k) as [y|] eqn:Ha.
    + injection Hrun as ->. apply IHa in Ha.
      destruct Ha as [x [s' [H1 [H2 [H3 [H4 H5]]]]]]. exists x, s'.
      repeat split; try assumption; [now left|].
      intros Hn. apply app_eq_nil in Hn. now apply H4.
    + apply IHb in Hrun. destruct Hrun as [x [s' [H1 [H2 [H3 [H4 H5]]]]]]. exists x, s'.
      repeat split; try assumption; [now right|].
      intros Hn. apply app_eq_nil in Hn. now apply H4.
  - cbn [run] in Hrun. apply (rounds_derives a IHa) in Hrun.
    destruct Hrun as [pieces [s' [H1 [H2 [H3 [H4 [H5 [H6 H7]]]]]]]].
    exists (concat pieces), s'. repeat split; try assumption.
    exists pieces. repeat split; assumption.
  - cbn [run] in Hrun. apply IHa in Hrun.
    destruct Hrun as [x [s' [H1 [H2 [H3 [H4 H5]]]]]].
    destruct name as [n|].
    + exists x, {| pos := pos s'; rest := rest s';
                   caps := group_set n (firstn (pos s' - pos s) (rest s)) (caps s') |}.
      cbn [pos rest]. split; [exact H1|]. split; [exact H2|]. split; [exact H3|].
      split; [discriminate | exact H5].
    + exists x, s'. repeat split; assumption.
  - cbn in Hrun. destruct (pos s =? 0)%nat eqn:Hp; [|discriminate].
    apply Nat.eqb_eq in Hp. exists [], s. cbn. repeat split; try lia. exact Hrun.
  - cbn in Hrun. destruct (rest s) eqn:Hrest; [|discriminate].
    exists [], s. cbn. repeat split; try lia; try reflexivity; try assumption.
    now symmetry.
Qed.





Lemma run_Cat (a b : regex) (s : mstate) (k : mstate -> option mstate) :
  run (Cat a b) s k = run a s (fun s' => run b s' k).
Proof. reflexivity. Qed.








(** ** The texts the command patterns match *)

Lemma derives_chars (cs : cset) (min : nat) (max : option nat) (p : nat)
  (x left : text) :
  derives (Quant min max (Char cs)) p x left ->
  Forall (fun c => cs c = true) x /\ (lower min max <= length x)%nat /\
  within (length x) max.
Proof.
  cbn [derives]. intros [pieces [-> [Hlo [Hwi Hok]]]].
  assert (H : Forall (fun c => cs c = true) (concat pieces) /\
              length (concat pieces) = length pieces).
  { clear Hlo Hwi. revert p Hok. induction pieces as [|y ys IH]; intros p Hok.
    - split; [constructor | reflexivity].
    - cbn [pieces_ok] in Hok. destruct Hok as [[c [-> Hc]] Hok].
      destruct (IH _ Hok) as [Hall Hlen]. cbn. split; [now constructor | now rewrite Hlen]. }
  destruct H as [Hall Hlen]. rewrite Hlen. repeat split; assumption.
Qed.

Lemma run_Char_cons (cs : cset) (p : nat) (c : char) (x : text) (cp : Groups)
  (k : mstate -> option mstate) :
  run (Char cs) {| pos := p; rest := c :: x; caps := cp |} k =
  if cs c then k {| pos := S p; rest := x; caps := cp |} else None.
Proof. reflexivity. Qed.

Lemma rounds_chars (cs : cset) (k : mstate -> option mstate) (res : mstate) (x : text) :
  forall fuel min s,
    rest s = x -> Forall (fun c => cs c = true) x ->
    (min <= length x)%nat -> (length x < fuel)%nat ->
    k {| pos := pos s + length x; rest := []; caps := caps s |} = Some res ->
    rounds (run (Char cs)) [] fuel min None s k = Some res.
Proof.
  induction x as [|c x IH]; intros fuel min s Hr Hall Hmin Hfuel Hk.
  - destruct fuel as [|fuel]; [cbn in Hfuel; lia|].
    destruct min as [|min]; [|cbn in Hmin; lia].
    destruct s as [p r cp]. cbn in Hr. subst r. cbn in Hk. rewrite Nat.add_0_r in Hk.
    cbn. exact Hk.
  - destruct fuel as [|fuel]; [cbn in Hfuel; lia|].
    inversion Hall as [|? ? Hc Hall']; subst.
    destruct s as [p r cp]. cbn in Hr. subst r.
    assert (Hnext : rounds (run (Char cs)) [] fuel (Nat.pred min) None
                      {| pos := S p; rest := x; caps := cp |} k = Some res).
    { apply IH; cbn; try reflexivity; try assumption.
      - cbn in Hmin. lia.
      - cbn in Hfuel. lia.
      - cbn in Hk. rewrite <- Hk. f_equal. f_equal. lia. }
    assert (Hp : (S p =? p)%nat = false) by (apply Nat.eqb_neq; lia).
    cbn [rounds]. unfold clear, pred_max. cbn [rest fold_right caps pos option_map].
    rewrite !run_Char_cons, Hc.
    cbn [pos]. rewrite Hp, andb_false_r, Hnext. now destruct min.
Qed.

Lemma run_plus_chars (cs : cset) (s : mstate) (k : mstate -> option mstate)
  (res : mstate) :
  rest s <> [] -> Forall (fun c => cs c = true) (rest s) ->
  k {| pos := pos s + length (rest s); rest := []; caps := caps s |} = Some res ->
  run (plus (Char cs)) s k = Some res.
Proof.
  intros Hne Hall Hk. unfold plus. cbn [run names_of].
  apply (rounds_chars cs k res (rest s)); try assumption; try reflexivity.
  - destruct (rest s); [congruence | cbn; lia].
  - lia.
Qed.

Lemma exec_found (r : regex) (i : nat) (input : text) (s' : mstate) :
  run r {| pos := i; rest := input; caps := [] |} Some = Some s' ->
  exec r i input
  = Some {| m0 := firstn (pos s' - i) input; index := i; groups := caps s' |}.
Proof.
  intros Hrun. destruct input; cbn [exec]; now rewrite Hrun.
Qed.

Lemma derives_literal (word : text) :
  forall p x left,
    derives (literal word) p x left -> x = word.
Proof.
  unfold literal. induction word as [|c word IH]; intros p x left Hd.
  - exact Hd.
  - cbn [map cats fold_right derives] in Hd.
    destruct Hd as [y [z [-> [[c' [-> Hc]] Hz]]]].
    unfold lit in Hc. apply N.eqb_eq in Hc. subst c'.
    cbn. f_equal. exact (IH _ _ _ Hz).
Qed.

Lemma names_of_literal (word : text) : names_of (literal word) = [].
Proof.
  unfold literal. induction word as [|c word IH]; [reflexivity|].
  cbn [map cats fold_right names_of app]. exact IH.
Qed.

Lemma run_literal (word : text) (k : mstate -> option mstate) :
  forall p r cp,
    run (literal word) {| pos := p; rest := word ++ r; caps := cp |} k
    = k {| pos := p + length word; rest := r; caps := cp |}.
Proof.
  unfold literal. induction word as [|c word IH]; intros p r cp.
  - cbn. now rewrite Nat.add_0_r.
  - cbn [map cats fold_right app]. rewrite run_Cat, run_Char_cons.
    unfold lit at 1. rewrite N.eqb_refl. fold (cats (map (fun c => Char (lit c)) word)).
    rewrite IH. cbn [length]. f_equal. f_equal. lia.
Qed.

(** A command word, one white space character and an argument that runs
    to the end of the message. *)
Lemma wordWithArgument_matches (word : text) (name : string) (cs : cset)
  (t : text) (m : Match) :
  re_match (wordWithArgument word name cs) t = Some m <->
  exists sp arg,
    t = word ++ sp :: arg /\ space sp = true /\ arg <> [] /\
    Forall (fun c => cs c = true) arg /\
    m = wholeMatch t name arg.
Proof.
  unfold re_match. split.
  - intros Hm.
    pose proof (exec_spec (wordWithArgument word name cs) t (length t) 0 eq_refl) as Hx.
    cbn [skipn] in Hx.
    rewrite Hm in Hx. destruct Hx as [_ [[_ [s' [Hrun [Hsplit Hg]]]] _]].
    destruct m as [m0' i' g']. cbn [m0 index groups] in Hrun, Hsplit, Hg.
    unfold wordWithArgument, cats in Hrun. cbn [fold_right] in Hrun.
    rewrite run_Cat in Hrun. apply run_derives in Hrun.
    destruct Hrun as [x0 [s0 [Hr0 [Hp0 [[-> Hi] [Hc0 Hrun]]]]]].
    cbn [pos rest caps app length] in *. subst i'. cbn [skipn] in *.
    rewrite run_Cat in Hrun. apply run_derives in Hrun.
    destruct Hrun as [x1 [s1 [Hr1 [Hp1 [Hd1 [Hc1 Hrun]]]]]].
    apply derives_literal in Hd1. subst x1.
    rewrite run_Cat in Hrun. apply run_derives in Hrun.
    destruct Hrun as [x2 [s2 [Hr2 [Hp2 [[sp [-> Hsp]] [Hc2 Hrun]]]]]].
    rewrite run_Cat in Hrun. unfold named in Hrun. cbn [run] in Hrun.
    apply run_derives in Hrun.
    destruct Hrun as [x3 [s3 [Hr3 [Hp3 [Hd3 [Hc3 Hrun]]]]]].
    apply derives_chars in Hd3. destruct Hd3 as [Hall [Hlo _]]. cbn [lower] in Hlo.
    cbn [rest pos caps] in Hrun. destruct (rest s3) eqn:Hrest3; [|discriminate].
    injection Hrun as <-. cbn [rest caps] in Hsplit, Hg.
    rewrite app_nil_r in Hsplit, Hr3.
    rewrite Hr3, Hp3 in Hg.
    replace (pos s2 + length x3 - pos s2)%nat with (length x3) in Hg by lia.
    rewrite firstn_all in Hg.
    rewrite (Hc3 eq_refl), (Hc2 eq_refl), (Hc1 (names_of_literal word)) in Hg.
    rewrite (Hc0 eq_refl) in Hg. cbn in Hg.
    exists sp, x3.
    assert (Ht : t = word ++ sp :: x3).
    { rewrite Hr0, Hr1. f_equal. rewrite Hr2. cbn. now rewrite Hr3. }
    split; [exact Ht|]. split; [exact Hsp|].
    split; [destruct x3; [cbn in Hlo; lia | discriminate]|].
    split; [exact Hall|].
    unfold wholeMatch. congruence.
  - intros [sp [arg [-> [Hsp [Hne [Hall ->]]]]]].
    assert (Hrun : run (wordWithArgument word name cs)
                     {| pos := 0; rest := word ++ sp :: arg; caps := [] |} Some
                   = Some {| pos := length word + 1 + length arg; rest := [];
                             caps := [(name, arg)] |}).
    { unfold wordWithArgument, cats. cbn [fold_right]. rewrite run_Cat.
      change (run AssertStart ?s ?k) with (k s). cbv beta.
      rewrite run_Cat, run_literal, run_Cat, run_Char_cons, Hsp, run_Cat.
      unfold named.
      change (run (Group (Some name) ?a) ?s ?k)
        with (run a s (fun s' =>
                k {| pos := pos s'; rest := rest s';
                     caps := group_set name (firstn (pos s' - pos s) (rest s)) (caps s') |})).
      apply run_plus_chars; cbn [rest pos caps]; try assumption.
      cbn [run rest pos caps Nat.add].
      replace (S (length word + length arg) - S (length word))%nat
        with (length arg) by lia.
      rewrite firstn_all. cbn. do 2 f_equal. lia. }
    pose proof (exec_found _ _ _ _ Hrun) as Hex. etransitivity; [exact Hex|].
    unfold wholeMatch. cbn [pos caps]. f_equal. f_equal.
    rewrite Nat.sub_0_r.
    replace (length word + 1 + length arg)%nat with (length (word ++ sp :: arg))
      by (rewrite length_app; cbn; lia).
    now rewrite firstn_all.
Qed.

(** X18.  The texts [CalcRE] and [DialogueRE] match and what they bind: a
    message is a calculation exactly when it is [計算], one white space
    character and a non-empty expression of the characters the pattern
    lists, and a dialogue exactly when it is [対話], one white space
    character and a non-empty body without line terminators; the match is
    then the whole message, with the expression bound to [expr] and the
    body to [body]. *)
Theorem CalcRE_and_DialogueRE_match_exactly (t : text) (m : Match) :
  (re_match CalcRE t = Some m <->
   exists sp expr,
     t = U "計算" ++ sp :: expr /\ space sp = true /\ expr <> [] /\
     Forall (fun c => calcChar c = true) expr /\
     m = wholeMatch t "expr" expr) /\
  (re_match DialogueRE t = Some m <->
   exists sp body,
     t = U "対話" ++ sp :: body /\ space sp = true /\ body <> [] /\
     Forall (fun c => dot c = true) body /\
     m = wholeMatch t "body" body).
Proof.
  split.
  - change CalcRE with (wordWithArgument (U "計算") "expr" calcChar).
    apply wordWithArgument_matches.
  - change DialogueRE with (wordWithArgument (U "対話") "body" dot).
    apply wordWithArgument_matches.
Qed.

Lemma re_match_unique (r : regex) (t : text) (m m' : Match) :
  re_match r t = Some m -> re_match r t = Some m' -> m = m'.
Proof. congruence. Qed.

Lemma TallyRE_alone :
  re_match TallyRE (U "集計") = Some {| m0 := U "集計"; index := 0; groups := [] |}.
Proof. vm_compute. reflexivity. Qed.

Lemma TallyRE_help (sp : char) :
  space sp = true ->
  re_match TallyRE (U "集計" ++ sp :: U "--help")
  = Some (wholeMatch (U "集計" ++ sp :: U "--help") "command" (U "--help")).
Proof.
  intros Hsp.
  replace (U "集計") with [38598; 35336] by (vm_compute; reflexivity).
  replace (U "--help") with [45; 45; 104; 101; 108; 112] by (vm_compute; reflexivity).
  unfold re_match, TallyRE, str.
  replace (U "集計") with [38598; 35336] by (vm_compute; reflexivity).
  replace (U "--help") with [45; 45; 104; 101; 108; 112] by (vm_compute; reflexivity).
  cbn -[space]. rewrite Hsp. cbn -[space]. reflexivity.
Qed.

Lemma whole_text_derived (r : regex) (t : text) (m : Match) :
  re_match r t = Some m ->
  exists x left,
    skipn (index m) t = x ++ left /\ derives r (index m) x left.
Proof.
  unfold re_match. intros Hm.
  pose proof (exec_spec r t (length t) 0 eq_refl) as Hx. cbn [skipn] in Hx.
  rewrite Hm in Hx. destruct Hx as [_ [[_ [s' [Hrun _]]] _]].
  apply run_derives in Hrun. destruct Hrun as [x [s1 [Hr [_ [Hd _]]]]].
  cbn [rest pos] in Hr, Hd. now exists x, (rest s1).
Qed.

Lemma TallyRE_matches (t : text) (m : Match) :
  re_match TallyRE t = Some m <->
  (t = U "集計" /\ m = {| m0 := t; index := 0; groups := [] |}) \/
  (exists sp, space sp = true /\ t = U "集計" ++ sp :: U "--help" /\
              m = wholeMatch t "command" (U "--help")).
Proof.
  split.
  - intros Hm. destruct (whole_text_derived _ _ _ Hm) as [x [left [Ht Hd]]].
    unfold TallyRE, cats, opt, group, named in Hd.
    cbn [fold_right derives] in Hd.
    change (str ?s) with (literal (U s)) in Hd.
    destruct Hd as [y0 [z0 [-> [[-> Hi] [y1 [z1 [-> [Hw [y2 [z2 [-> [Hq Hend]]]]]]]]]]]].
    destruct Hend as [y3 [z3 [-> [[-> Hleft] ->]]]].
    cbn [app] in Hleft. subst left. rewrite Hi in Ht. cbn [skipn app] in Ht.
    apply derives_literal in Hw. subst y1.
    destruct Hq as [pieces [-> [_ [Hmax Hok]]]]. cbn [within] in Hmax.
    rewrite !app_nil_r in Ht.
    destruct pieces as [|piece [|more pieces]]; [| |cbn in Hmax; lia].
    + cbn [concat] in Ht. rewrite app_nil_r in Ht. subst t. left.
      split; [reflexivity|]. exact (re_match_unique _ _ _ _ Hm TallyRE_alone).
    + cbn [pieces_ok concat derives] in Hok, Ht. rewrite app_nil_r in Ht.
      destruct Hok as [[ya [za [-> [[sp [-> Hsp]] [yb [zb [-> [Hh ->]]]]]]]] _].
      apply derives_literal in Hh. subst yb. rewrite app_nil_r in Ht. cbn [app] in Ht.
      subst t. right. exists sp. split; [exact Hsp|]. split; [reflexivity|].
      exact (re_match_unique _ _ _ _ Hm (TallyRE_help sp Hsp)).
  - intros [[-> ->] | [sp [Hsp [-> ->]]]]; [exact TallyRE_alone | now apply TallyRE_help].
Qed.

Lemma HelpRE_matches (t : text) (m : Match) :
  re_match HelpRE t = Some m <->
  (t = U "コマンド" \/ t = U "コマンドリスト" \/ t = U "ヘルプ") /\
  m = wholeMatch t "command" t.
Proof.
  split.
  - intros Hm. destruct (whole_text_derived _ _ _ Hm) as [x [left [Ht Hd]]].
    unfold HelpRE, cats, opt, group, named in Hd.
    cbn [fold_right derives] in Hd.
    change (str ?s) with (literal (U s)) in Hd.
    destruct Hd as [y0 [z0 [-> [[-> Hi] [y1 [z1 [-> [Hw [y3 [z3 [-> [[-> Hleft] ->]]]]]]]]]]]].
    cbn [app] in Hleft. subst left. rewrite Hi in Ht. cbn [skipn app] in Ht.
    rewrite !app_nil_r in Ht. subst t.
    assert (Hy : y1 = U "コマンド" \/ y1 = U "コマンドリスト" \/ y1 = U "ヘルプ").
    { destruct Hw as [[ya [za [-> [Ha [yb [zb [-> [Hb ->]]]]]]]] | Hw].
      - apply derives_literal in Ha. subst ya.
        destruct Hb as [pieces [-> [_ [Hmax Hok]]]]. cbn [within] in Hmax.
        destruct pieces as [|piece [|more pieces]]; [| |cbn in Hmax; lia].
        + left. cbn [concat]. now rewrite ?app_nil_r.
        + cbn [pieces_ok] in Hok. destruct Hok as [Hp _].
          apply derives_literal in Hp. subst piece. right. left.
          vm_compute. reflexivity.
      - apply derives_literal in Hw. now right; right. }
    split; [exact Hy|].
    destruct Hy as [-> | [-> | ->]];
      apply (re_match_unique _ _ _ _ Hm); vm_compute; reflexivity.
  - intros [[-> | [-> | ->]] ->]; vm_compute; reflexivity.
Qed.

(** X19.  The texts [TallyRE] and [HelpRE] match: a message asks for the
    tally exactly when it is [集計], alone, with nothing bound, or
    followed by one white space character and [--help], which is then
    bound to [command]; it asks for the general help exactly when it is
    one of [コマンド], [コマンドリスト] and [ヘルプ], which is bound to
    [command].  [handleTallyCommandAsync] runs the tally for the first
    form of the tally command and describes it for the second. *)
Theorem TallyRE_and_HelpRE_match_exactly (t : text) (m : Match) :
  (re_match TallyRE t = Some m <->
   (t = U "集計" /\ m = {| m0 := t; index := 0; groups := [] |}) \/
   (exists sp, space sp = true /\ t = U "集計" ++ sp :: U "--help" /\
               m = wholeMatch t "command" (U "--help"))) /\
  (re_match HelpRE t = Some m <->
   (t = U "コマンド" \/ t = U "コマンドリスト" \/ t = U "ヘルプ") /\
   m = wholeMatch t "command" t) /\
  (forall C : Collaborators,
     re_match TallyRE t = Some m ->
     handleTallyCommandAsync m
     = if text_eqb t (U "集計") then tallyAsync m else describeTallyHelp m).
Proof.
  split; [apply TallyRE_matches|]. split; [apply HelpRE_matches|].
  intros C Hm. apply TallyRE_matches in Hm.
  destruct Hm as [[-> ->] | [sp [Hsp [-> ->]]]].
  - reflexivity.
  - unfold handleTallyCommandAsync, wholeMatch, field. cbn [groups group_get].
    replace (String.eqb "command" "command") with true by reflexivity.
    rewrite text_eqb_refl.
    replace (text_eqb (U "集計" ++ sp :: U "--help") (U "集計")) with false;
      [reflexivity|].
    symmetry. apply text_eqb_neq. intros He.
    apply (f_equal (@length char)) in He. vm_compute in He. discriminate.
Qed.

(** ** The count of the tally *)

Section MapSum.
Context {K V : Type} `{SameValueZero K}.
Variable g : V -> nat.

Lemma sum_map_set (k : K) (v : V) (m : JsMap K V) :
  (list_sum (map (fun e => g (snd e)) (map_set k v m))
   + match map_get k m with Some v' => g v' | None => 0 end
   = list_sum (map (fun e => g (snd e)) m) + g v)%nat.
Proof.
  unfold list_sum.
  induction m as [|[k' v'] m IH]; cbn [map fold_right map_set map_get snd].
  - lia.
  - destruct (same k k'); cbn [map fold_right snd]; lia.
Qed.

End MapSum.

Lemma counted_tallyOne (week : number) (weekly : Weekly) (m : Match) :
  counted (tallyOne week weekly m) = S (counted weekly).
Proof.
  unfold tallyOne.
  set (hosts := match map_get week weekly with Some h => h | None => [] end).
  set (entries := match map_get (show (field "host" m)) hosts with
                  | Some l => l | None => [] end).
  pose proof (sum_map_set sizeOf week
                (map_set (show (field "host" m)) (entries ++ [m]) hosts) weekly) as Hw.
  pose proof (sum_map_set (@length Match) (show (field "host" m)) (entries ++ [m])
                hosts) as Hh.
  assert (H1 : match map_get week weekly with Some v => sizeOf v | None => 0%nat end
               = sizeOf hosts).
  { unfold hosts. now destruct (map_get week weekly). }
  assert (H2 : match map_get (show (field "host" m)) hosts with
               | Some l => length l | None => 0%nat end = length entries).
  { unfold entries. now destruct (map_get (show (field "host" m)) hosts). }
  rewrite H1 in Hw. rewrite H2, length_app in Hh. cbn [length] in Hh.
  unfold counted.
  change (list_sum
            (map (fun e : text * list Match => length (snd e))
                 (map_set (show (field "host" m)) (entries ++ [m]) hosts)))
    with (sizeOf (map_set (show (field "host" m)) (entries ++ [m]) hosts)) in Hh.
  change (list_sum (map (fun e : text * list Match => length (snd e)) hosts))
    with (sizeOf hosts) in Hh.
  clear H1 H2. unfold Hosts, Weekly, JsMap in *. lia.
Qed.

Lemma counted_fold (xs : list (number * Match)) :
  forall weekly,
    counted (fold_left tallyStep xs weekly) = (counted weekly + length xs)%nat.
Proof.
  induction xs as [|x xs IH]; intros weekly; cbn [fold_left length]; [lia|].
  rewrite IH. unfold tallyStep. rewrite counted_tallyOne. lia.
Qed.

Lemma length_flat_map {A B} (f : A -> list B) (l : list A) :
  length (flat_map f l) = list_sum (map (fun x => length (f x)) l).
Proof.
  induction l as [|x l IH]; [reflexivity|].
  cbn. now rewrite length_app, IH.
Qed.

(** X20.  The tally counts every message once: the messages the weekly
    table of [tallyWeekly] holds, over all weeks and hosts, are as many
    as the framed messages in the raw texts of the cached records. *)
Theorem tallyWeekly_counts_every_message (moment : Moment) (cached : list Log) :
  counted (tallyWeekly moment cached [])
  = list_sum (map (fun item => length (matchAll MessageRE (message_log item))) cached).
Proof.
  rewrite tallyWeekly_entries, counted_fold.
  change (counted []) with 0%nat. cbn [Nat.add].
  unfold entriesOf. rewrite length_flat_map. f_equal.
  apply map_ext. intros item. apply length_map.
Qed.

(** ** The chunks that wait for the start *)

Lemma postponeKoukoku_fold (threshold : nat) (chunks : list Buffer) :
  forall pending,
    fold_left (postponeKoukoku threshold) chunks pending
    = pending ++ filter (fun data => (threshold <? byteLength data)%nat) chunks.
Proof.
  induction chunks as [|data chunks IH]; intros pending; cbn [fold_left filter].
  - now rewrite app_nil_r.
  - rewrite IH. unfold postponeKoukoku.
    destruct (threshold <? byteLength data)%nat; [|reflexivity].
    now rewrite <- app_assoc.
Qed.

(** X21.  Postponing loses no record: the chunks [postponeKoukoku] keeps
    while the bot starts are the chunks longer than the threshold, in the
    order they came, and the records [acceptKoukoku] extracts from them
    are the records it would have extracted from all the chunks. *)
Theorem postponeKoukoku_keeps_every_record (threshold : nat) (chunks : list Buffer) :
  let pending := fold_left (postponeKoukoku threshold) chunks [] in
  pending = filter (fun data => (threshold <? byteLength data)%nat) chunks /\
  flat_map (extractRecords threshold) pending
  = flat_map (extractRecords threshold) chunks.
Proof.
  cbv zeta. rewrite postponeKoukoku_fold. cbn [app]. split; [reflexivity|].
  induction chunks as [|data chunks IH]; [reflexivity|].
  cbn [filter flat_map].
  destruct (threshold <? byteLength data)%nat eqn:Hlen.
  - cbn [flat_map]. now rewrite IH.
  - assert (He : extractRecords threshold data = [])
      by (unfold extractRecords; now rewrite Hlen).
    rewrite He. exact IH.
Qed.

(** ** The log listing *)

Lemma composeLog_after (prev : option Match) (m : Match) :
  let last := match prev with
              | Some p => (Some (hostShown p), Some (messageShown p))
              | None => (None, None)
              end in
  composeLog last m = (lineAfter prev m, (Some (hostShown m), Some (messageShown m))).
Proof.
  cbv zeta. unfold composeLog, lineAfter. fold (hostShown m). fold (messageShown m).
  destruct prev as [p|]; cbn [fst snd]; [|reflexivity].
  destruct (text_eqb (hostShown m) (hostShown p)) eqn:Eh;
    destruct (text_eqb (messageShown m) (messageShown p)) eqn:Em;
    try apply text_eqb_eq in Eh; try apply text_eqb_eq in Em;
    try rewrite Eh; try rewrite Em; reflexivity.
Qed.

Lemma composeLog_fold (ms : list Match) :
  forall acc prev,
    fst (fold_left (fun '(acc, last) m =>
                      let '(line, last') := composeLog last m in
                      (acc ++ [line], last'))
                   ms
                   (acc, match prev with
                         | Some p => (Some (hostShown p), Some (messageShown p))
                         | None => (None, None)
                         end))
    = acc ++ linesAfter prev ms.
Proof.
  induction ms as [|m ms IH]; intros acc prev; cbn [fold_left linesAfter].
  - now rewrite app_nil_r.
  - rewrite (composeLog_after prev m). rewrite (IH _ (Some m)).
    now rewrite <- app_assoc.
Qed.

(** X22.  What the log command lists: without [--help],
    [locateLogsAsync] makes a speech of the first lines of the listing, as
    many as the count asks for, ten when there is none, and never more
    than thirty; the lines are those of the cached messages that are
    neither the bot's nor time signals, newest record first, and a line
    shows the ditto mark for the message or the host of the line before
    it when it repeats it. *)
Theorem locateLogsAsync_lists (C : Collaborators) (matched : Match) (w : World) :
  truthy (field "command" matched) = false ->
  (0 <= parseIntOr (field "count" matched) 10)%Z ->
  let n := Z.to_nat (Z.min (parseIntOr (field "count" matched) 10) 30) in
  locateLogsAsync matched w
  = (createSpeechAsync (join [10] (firstn n (linesAfter None (listed w)))) true ;;
     ret tt) w /\
  (n <= 30)%nat /\
  (field "count" matched = None -> n = 10%nat) /\
  Forall (fun m => isNotBot m = true /\ isNotTimeSignal m = true) (listed w).
Proof.
  intros Hc Hn n. split; [|split; [|split]].
  - unfold locateLogsAsync. rewrite Hc. unfold bind at 1. cbn [get].
    fold (listed w). rewrite (composeLog_fold (listed w) [] None). reflexivity.
  - unfold n. lia.
  - intros Hnone. unfold n. rewrite Hnone. reflexivity.
  - unfold listed. apply Forall_forall. intros m Hm.
    apply in_flat_map in Hm. destruct Hm as [line [_ Hm]].
    apply filter_In in Hm. destruct Hm as [Hm Ht].
    apply filter_In in Hm. destruct Hm as [_ Hb]. now split.
Qed.

Lemma locateLogsAsync_lists_witness :
  let matched := {| m0 := U "ログ 2"; index := 0; groups := [("count"%string, U "2")] |} in
  let w := with_recent (cacheOf [said "1700000002000-0" "a*.example.jp";
                                 said "1700000001000-0" "a*.example.jp";
                                 said "1700000000000-0" "b.example.jp"]) sampleWorld in
  linesAfter None (@listed sampleCollaborators w)
  = [U "11/15 (水) 07:13:20 hi aexample.jp"; U "11/15 (水) 07:13:20 〃 〃";
     U "11/15 (水) 07:13:20 〃 b.example.jp"] /\
  @locateLogsAsync sampleCollaborators matched w
  = (@createSpeechAsync sampleCollaborators
       (join [10] [U "11/15 (水) 07:13:20 hi aexample.jp"; U "11/15 (水) 07:13:20 〃 〃"])
       true ;; ret tt) w.
Proof.
  cbv zeta.
  assert (Hl : linesAfter None
                 (@listed sampleCollaborators
                    (with_recent (cacheOf [said "1700000002000-0" "a*.example.jp";
                                           said "1700000001000-0" "a*.example.jp";
                                           said "1700000000000-0" "b.example.jp"])
                                 sampleWorld))
               = [U "11/15 (水) 07:13:20 hi aexample.jp"; U "11/15 (水) 07:13:20 〃 〃";
                  U "11/15 (水) 07:13:20 〃 b.example.jp"])
    by (vm_compute; reflexivity).
  split; [exact Hl|].
  destruct (locateLogsAsync_lists sampleCollaborators
              {| m0 := U "ログ 2"; index := 0; groups := [("count"%string, U "2")] |}
              (with_recent (cacheOf [said "1700000002000-0" "a*.example.jp";
                                     said "1700000001000-0" "a*.example.jp";
                                     said "1700000000000-0" "b.example.jp"])
                           sampleWorld))
    as [He _]; [vm_compute; reflexivity | vm_compute; discriminate |].
  rewrite He, Hl. reflexivity.
Defined.

(** ** The timestamp of an id *)

Lemma digit_of (d : N) : d < 10 -> digit (48 + d) = true /\ 48 + d - 48 = d.
Proof.
  intros Hd. unfold digit, range. split; [|lia].
  apply andb_true_intro. split; apply N.leb_le; lia.
Qed.

Lemma read_digits_digits_of (fuel : nat) :
  forall n acc a,
    (0 < fuel)%nat -> n < 2 ^ N.of_nat fuel ->
    exists v,
      read_digits (digits_of fuel n acc) (Some a) = read_digits acc (Some v) /\
      (a = 0 -> v = n) /\
      exists c rest, digits_of fuel n acc = c :: rest /\ digit c = true.
Proof.
  induction fuel as [|fuel IH]; intros n acc a Hf Hn; [lia|].
  cbn [digits_of].
  assert (Hmod : n mod 10 < 10) by (apply N.mod_lt; lia).
  destruct (digit_of (n mod 10) Hmod) as [Hd Hv].
  destruct (n <? 10) eqn:Hlt.
  - apply N.ltb_lt in Hlt. rewrite N.mod_small in * by assumption.
    exists (10 * a + n). cbn [read_digits]. rewrite Hd, Hv.
    split; [reflexivity|]. split; [lia|]. eexists. eexists. now split.
  - apply N.ltb_ge in Hlt.
    assert (Hq : n / 10 < 2 ^ N.of_nat fuel).
    { apply N.Div0.div_lt_upper_bound.
      rewrite Nat2N.inj_succ, N.pow_succ_r' in Hn. lia. }
    assert (Hf' : (0 < fuel)%nat).
    { destruct fuel; [|lia]. cbn in Hq.
      assert (1 <= n / 10) by (apply N.div_le_lower_bound; lia). lia. }
    destruct (IH (n / 10) ((48 + n mod 10) :: acc) a Hf' Hq) as [v [Hr [Hz Hhead]]].
    exists (10 * v + n mod 10). rewrite Hr. cbn [read_digits]. rewrite Hd, Hv.
    split; [reflexivity|]. split; [|exact Hhead].
    intros Ha. rewrite (Hz Ha). symmetry. apply N.Div0.div_mod.
Qed.

Lemma digits_of_all_digits (fuel : nat) :
  forall n acc,
    Forall (fun c => digit c = true) acc ->
    Forall (fun c => digit c = true) (digits_of fuel n acc).
Proof.
  induction fuel as [|fuel IH]; intros n acc Hacc; [exact Hacc|].
  cbn [digits_of].
  assert (Hmod : n mod 10 < 10) by (apply N.mod_lt; lia).
  destruct (digit_of (n mod 10) Hmod) as [Hd _].
  destruct (n <? 10); [now constructor | apply IH; now constructor].
Qed.

Lemma text_of_N_reads (n : N) :
  read_digits (text_of_N n) None = Some n /\
  Forall (fun c => digit c = true) (text_of_N n) /\
  exists c rest, text_of_N n = c :: rest /\ digit c = true.
Proof.
  unfold text_of_N.
  assert (Hn : n < 2 ^ N.of_nat (S (N.to_nat (N.log2 n)))).
  { rewrite Nat2N.inj_succ, N2Nat.id. destruct n as [|p]; [reflexivity|].
    apply N.log2_spec. lia. }
  destruct (read_digits_digits_of (S (N.to_nat (N.log2 n))) n [] 0
              (Nat.lt_0_succ _) Hn) as [v [Hr [Hz Hhead]]].
  split; [|split; [apply digits_of_all_digits; constructor | exact Hhead]].
  destruct Hhead as [c [rest [Hc Hd]]]. rewrite Hc in *. cbn [read_digits] in *.
  rewrite Hd in *. rewrite Hr. now rewrite (Hz eq_refl).
Qed.

Lemma digit_cases (c : char) :
  digit c = true ->
  c = 48 \/ c = 49 \/ c = 50 \/ c = 51 \/ c = 52 \/ c = 53 \/ c = 54 \/ c = 55 \/
  c = 56 \/ c = 57.
Proof.
  unfold digit, range. intros Hd. apply andb_prop in Hd. destruct Hd as [H1 H2].
  apply N.leb_le in H1, H2. lia.
Qed.

Lemma parseInt_digits (c : char) (rest : text) :
  Forall (fun x => digit x = true) (c :: rest) ->
  parseInt (c :: rest) = option_map Z.of_N (read_digits (c :: rest) None).
Proof.
  intros Hall. inversion Hall as [|? ? Hc Hrest]; subst.
  assert (Hx : forall x t', rest = x :: t' -> (x =? 120) || (x =? 88) = false).
  { intros x t' ->. inversion Hrest as [|? ? Hx _]; subst.
    apply digit_cases in Hx.
    repeat (destruct Hx as [-> | Hx]; [reflexivity|]). subst. reflexivity. }
  apply digit_cases in Hc.
  repeat (destruct Hc as [-> | Hc];
          [first [ reflexivity
                 | destruct rest as [|x t']; [reflexivity|];
                   unfold parseInt; cbn [skip_space];
                   replace (space 48) with false by reflexivity;
                   cbn [read_number]; now rewrite (Hx x t' eq_refl) ]|]).
  subst. reflexivity.
Qed.

Lemma before_dash_app (d seq : text) :
  Forall (fun c => digit c = true) d -> before_dash (d ++ 45 :: seq) = d.
Proof.
  induction d as [|c d IH]; intros Hall; [reflexivity|].
  inversion Hall as [|? ? Hc Hd]; subst. cbn [app before_dash].
  rewrite (IH Hd). apply digit_cases in Hc.
  repeat (destruct Hc as [-> | Hc]; [reflexivity|]). subst. reflexivity.
Qed.

(** X23.  The week of a record comes from the milliseconds of its id:
    for an id that Redis made of a time within the range of dates,
    [timestamp-sequence], [parseInt] of the part before the dash is that
    time, and [tallyWeekly] puts the record in the week
    [ceil((weekday + 1 + floor((timestamp - start of year) / day)) / 7)]
    of the moment of the tally. *)
Theorem weekOf_reads_the_timestamp (moment : Moment) (ts : Z) (seq raw : text) :
  (0 <= ts <= 8640000000000000)%Z ->
  let item := {| id := text_of_Z ts ++ 45 :: seq; message_log := raw |} in
  parseInt (before_dash (id item)) = Some ts /\
  weekOf moment item
  = Some (ceil_div (weekday moment + 1 + (ts - year_start moment) / 86400000) 7).
Proof.
  intros Hts item.
  assert (Hp : parseInt (before_dash (id item)) = Some ts).
  { unfold item. cbn [id]. unfold text_of_Z.
    replace (ts <? 0)%Z with false by (symmetry; apply Z.ltb_ge; lia).
    destruct (text_of_N_reads (Z.abs_N ts)) as [Hr [Hall [c [rest [Hc _]]]]].
    rewrite (before_dash_app _ seq Hall). rewrite Hc in *.
    rewrite (parseInt_digits c rest Hall), Hr. cbn [option_map]. f_equal.
    rewrite N2Z.inj_abs_N. lia. }
  split; [exact Hp|].
  unfold weekOf. rewrite Hp. unfold timeClip.
  replace (Z.abs ts <=? 8640000000000000)%Z with true
    by (symmetry; apply Z.leb_le; lia).
  reflexivity.
Qed.

Lemma weekOf_reads_the_timestamp_witness :
  (0 <= 1700000000000 <= 8640000000000000)%Z /\
  weekOf sampleMoment (said "1700000000000-0" "alpha.example.jp") = Some 46%Z.
Proof.
  split; [lia|].
  destruct (weekOf_reads_the_timestamp sampleMoment 1700000000000 (U "0")
              (U (frame "hi" "11/15 (水)" "07:13:20" "alpha.example.jp")))
    as [_ Hw]; [lia|].
  cbv zeta in Hw.
  replace (said "1700000000000-0" "alpha.example.jp")
    with {| id := text_of_Z 1700000000000 ++ 45 :: U "0";
            message_log := U (frame "hi" "11/15 (水)" "07:13:20" "alpha.example.jp") |}
    by (vm_compute; reflexivity).
  rewrite Hw. vm_compute. reflexivity.
Defined.

(** ** [BotService] *)

Lemma findService_first (services : list CommandService) (body : option text) :
  findService services body None =
  match find (answers body) services with
  | Some s => (Some s, service_match s body)
  | None => (None, None)
  end.
Proof.
  induction services as [|s services IH]; [reflexivity|].
  cbn [findService find]. unfold answers at 1.
  destruct (service_match s body) as [m|] eqn:E; [now rewrite E | exact IH].
Qed.

(** X24.  [BotService] runs one handler for a message: the first command
    service, in the order of the resolver, whose [match] answers the
    body, with that answer; the services behind it are not executed, and
    the keyword test runs exactly when no service answers. *)
Theorem findHandler_runs_the_first_service (services : list CommandService)
  (test : Match -> Async unit) (matched : Match) :
  let body := field "body" matched in
  (forall before s after m,
     services = before ++ s :: after ->
     Forall (fun s' => service_match s' body = None) before ->
     service_match s body = Some m ->
     findHandler services test matched = execute s (Some m) (m0 matched)) /\
  (Forall (fun s' => service_match s' body = None) services ->
   findHandler services test matched = test matched).
Proof.
  intros body. unfold findHandler. fold body. rewrite findService_first. split.
  - intros before s after m -> Hb Hs.
    assert (Hf : find (answers body) (before ++ s :: after) = Some s).
    { induction Hb as [|s' before Hs' _ IH]; cbn [app find]; unfold answers at 1.
      - now rewrite Hs.
      - rewrite Hs'. exact IH. }
    rewrite Hf, Hs. reflexivity.
  - intros Hall.
    assert (Hf : find (answers body) services = None).
    { induction Hall as [|s' l Hs' _ IH]; cbn [find]; [reflexivity|].
      unfold answers at 1. rewrite Hs'. exact IH. }
    now rewrite Hf.
Qed.

Lemma createUserKeywordsSpeechAsync_rejects_only_a_long_list_witness :
  (28 < length manyKeywords)%nat /\
  @createUserKeywordsSpeechAsync noGist (Some (U "一覧")) manyKeywords sampleWorld
  = Thrown notASpeech
      (with_sent (sent sampleWorld ++ [U "[Bot] 大演説の生成に失敗しました"]) sampleWorld).
Proof.
  assert (Hl : (28 < length manyKeywords)%nat) by (vm_compute; repeat constructor).
  split; [exact Hl|].
  exact (proj2 (createUserKeywordsSpeechAsync_rejects_only_a_long_list noGist
                  (Some (U "一覧")) manyKeywords sampleWorld) Hl eq_refl).
Defined.


Lemma CalcRE_and_DialogueRE_match_exactly_witness :
  re_match CalcRE (U "計算" ++ 32 :: U "1+2")
  = Some (wholeMatch (U "計算" ++ 32 :: U "1+2") "expr" (U "1+2")).
Proof.
  apply (proj2 (proj1 (CalcRE_and_DialogueRE_match_exactly
                         (U "計算" ++ 32 :: U "1+2")
                         (wholeMatch (U "計算" ++ 32 :: U "1+2") "expr" (U "1+2"))))).
  exists 32, (U "1+2"). split; [reflexivity|]. split; [reflexivity|].
  split; [vm_compute; discriminate|]. split; [|reflexivity].
  vm_compute. repeat constructor.
Defined.

Lemma findHandler_runs_the_first_service_witness :
  let matched := wholeMatch (U "対話 hi") "body" (U "hi") in
  findHandler [silentService; echoService; silentService] noKeywords matched
  = sendAsync (U "対話 hi") /\
  findHandler [silentService; silentService] (fun _ => sendAsync (U "tested")) matched
  = sendAsync (U "tested").
Proof.
  cbv zeta. split.
  - apply (proj1 (findHandler_runs_the_first_service
                    [silentService; echoService; silentService] noKeywords
                    (wholeMatch (U "対話 hi") "body" (U "hi")))
             [silentService] echoService [silentService]
             (wholeMatch (U "hi") "body" (U "hi"))).
    + reflexivity.
    + repeat constructor.
    + reflexivity.
  - apply (proj2 (findHandler_runs_the_first_service
                    [silentService; silentService] (fun _ => sendAsync (U "tested"))
                    (wholeMatch (U "対話 hi") "body" (U "hi")))).
    repeat constructor.
Defined.

Lemma TallyRE_and_HelpRE_match_exactly_witness :
  re_match TallyRE (U "集計" ++ 32 :: U "--help")
  = Some (wholeMatch (U "集計" ++ 32 :: U "--help") "command" (U "--help")) /\
  re_match HelpRE (U "ヘルプ") = Some (wholeMatch (U "ヘルプ") "command" (U "ヘルプ")).
Proof.
  split.
  - apply (proj2 (proj1 (TallyRE_and_HelpRE_match_exactly
                           (U "集計" ++ 32 :: U "--help")
                           (wholeMatch (U "集計" ++ 32 :: U "--help") "command"
                                       (U "--help"))))).
    right. exists 32. repeat split.
  - apply (proj2 (proj1 (proj2 (TallyRE_and_HelpRE_match_exactly
                                  (U "ヘルプ")
                                  (wholeMatch (U "ヘルプ") "command" (U "ヘルプ")))))).
    split; [right; now right | reflexivity].
Defined.
